(** * pru-motion-queue.c: the host side of the PRU motion queue

    A shallow embedding of [src/pru-motion-queue.c] (BeagleG).  The host
    writes motion segments into a ring buffer that lives in the PRU's data
    RAM; the PRU firmware consumes them and hands the slots back.

    - C [unsigned int] and [uint32_t] values are [Z] with the wrap-around
      modulo [2^32] written out;
    - [pru_data_->ring_buffer] is a [list MotionSegment] read with stdpp's
      lookup and written with stdpp's insert; an access outside the mapped
      block is reported as [Undefined];
    - the functions are computations in a small state-and-outcome monad over
      a [world] that holds the shared block, the host's statics, the GPIO
      register and a log of what the host did;
    - the two [while] loops that wait for the PRU take a bound on the number
      of iterations ([fuel]); running out of it is the outcome [Blocked];
    - the PRU runs concurrently: just before the host's [t]-th operation it
      completes [sched t] segments, for an arbitrary schedule [sched]. *)

From Stdlib Require Import ZArith Lia List Bool.
From stdpp Require Import base list.

Local Open Scope Z_scope.

(** ** Data *)

(** Modelled from the spec: [struct MotionSegment] is declared in
    [motion-queue.h], which is not part of the sources at hand.  The fields
    are the ones [DumpMotionSegment] reads and the specification lists;
    [state] is a [uint8_t] (it is read into a [uint8_t] local and compared
    with the [STATE_*] constants). *)
Record MotionSegment : Type := mkMotionSegment {
  state : Z;
  direction_bits : Z;
  loops_accel : Z;
  loops_travel : Z;
  loops_decel : Z;
  hires_accel_cycles : Z;
  travel_delay_cycles : Z;
  fractions : list Z
}.

(** [s.state = v] *)
Definition set_state (v : Z) (s : MotionSegment) : MotionSegment :=
  mkMotionSegment v (direction_bits s) (loops_accel s) (loops_travel s)
    (loops_decel s) (hires_accel_cycles s) (travel_delay_cycles s)
    (fractions s).

(** The members of the record, and the value a member holds. *)
Inductive field : Type :=
| F_state
| F_direction_bits
| F_loops_accel
| F_loops_travel
| F_loops_decel
| F_hires_accel_cycles
| F_travel_delay_cycles
| F_fractions.

Inductive fval : Type :=
| Word (z : Z)
| Words (l : list Z).

Definition get_field (f : field) (s : MotionSegment) : fval :=
  match f with
  | F_state => Word (state s)
  | F_direction_bits => Word (direction_bits s)
  | F_loops_accel => Word (loops_accel s)
  | F_loops_travel => Word (loops_travel s)
  | F_loops_decel => Word (loops_decel s)
  | F_hires_accel_cycles => Word (hires_accel_cycles s)
  | F_travel_delay_cycles => Word (travel_delay_cycles s)
  | F_fractions => Words (fractions s)
  end.

Definition put_field (f : field) (v : fval) (s : MotionSegment) : MotionSegment :=
  match f, v with
  | F_state, Word z => set_state z s
  | F_direction_bits, Word z =>
      mkMotionSegment (state s) z (loops_accel s) (loops_travel s)
        (loops_decel s) (hires_accel_cycles s) (travel_delay_cycles s)
        (fractions s)
  | F_loops_accel, Word z =>
      mkMotionSegment (state s) (direction_bits s) z (loops_travel s)
        (loops_decel s) (hires_accel_cycles s) (travel_delay_cycles s)
        (fractions s)
  | F_loops_travel, Word z =>
      mkMotionSegment (state s) (direction_bits s) (loops_accel s) z
        (loops_decel s) (hires_accel_cycles s) (travel_delay_cycles s)
        (fractions s)
  | F_loops_decel, Word z =>
      mkMotionSegment (state s) (direction_bits s) (loops_accel s)
        (loops_travel s) z (hires_accel_cycles s) (travel_delay_cycles s)
        (fractions s)
  | F_hires_accel_cycles, Word z =>
      mkMotionSegment (state s) (direction_bits s) (loops_accel s)
        (loops_travel s) (loops_decel s) z (travel_delay_cycles s)
        (fractions s)
  | F_travel_delay_cycles, Word z =>
      mkMotionSegment (state s) (direction_bits s) (loops_accel s)
        (loops_travel s) (loops_decel s) (hires_accel_cycles s) z
        (fractions s)
  | F_fractions, Words l =>
      mkMotionSegment (state s) (direction_bits s) (loops_accel s)
        (loops_travel s) (loops_decel s) (hires_accel_cycles s)
        (travel_delay_cycles s) l
  | _, _ => s
  end.

#[global] Instance field_eq_dec : EqDecision field.
Proof. solve_decision. Defined.

(** The members in the order of their declaration. *)
Definition declaration_order : list field :=
  [F_state; F_direction_bits; F_loops_accel; F_loops_travel; F_loops_decel;
   F_hires_accel_cycles; F_travel_delay_cycles; F_fractions].

(** What the host does, in program order. *)
Inductive event : Type :=
| Store (i : Z) (f : field) (v : fval)
    (* pru_data_->ring_buffer[i].f = v *)
| WaitEvent
    (* prussdrv_pru_wait_event(PRU_EVTOUT_0) *)
| ClearEvent
    (* prussdrv_pru_clear_event(PRU_EVTOUT_0, PRU0_ARM_INTERRUPT) *)
| StderrExit (i : Z)
    (* "enqueue[i]: EXIT" *)
| StderrSegment (i : Z) (copy : MotionSegment)
    (* "enqueue[i]: dir:.. s:(..) ad: .. td: .. f..:.." *)
| Gpio1Dataout (v : Z)
    (* gpio_1[GPIO_DATAOUT/4] = v *)
| PruDisable
    (* prussdrv_pru_disable(PRU_NUM) *)
| PruExit
    (* prussdrv_exit() *)
| UnmapGpio.
    (* munmap of both GPIO banks *)

Record world : Type := mkWorld {
  ring_buffer : list MotionSegment;  (* pru_data_->ring_buffer, shared *)
  queue_pos_ : Z;                    (* static unsigned int queue_pos_ *)
  gpio_mapped : bool;                (* gpio_0, gpio_1 are not NULL *)
  gpio_1_DATAOUT : Z;                (* the register behind gpio_1[GPIO_DATAOUT/4] *)
  pru_pos : Z;                       (* the slot the firmware looks at *)
  pru_running : bool;                (* the firmware is executing *)
  clock : nat;                       (* host operations so far *)
  host_log : list event;             (* what the host did, oldest first *)
  history : list (list MotionSegment)
    (* every content the shared ring buffer ever had, oldest first *)
}.

Inductive outcome (A : Type) : Type :=
| Returned (a : A) (w : world)   (* the call returned [a] *)
| AssertFailed (w : world)       (* assert() failed: abort() *)
| Blocked (w : world)            (* still inside a wait loop *)
| Undefined (w : world).         (* access outside a mapped object *)

Arguments Returned {A} a w.
Arguments AssertFailed {A} w.
Arguments Blocked {A} w.
Arguments Undefined {A} w.

Definition world_of {A : Type} (o : outcome A) : world :=
  match o with
  | Returned _ w | AssertFailed w | Blocked w | Undefined w => w
  end.

Definition M (A : Type) : Type := world -> outcome A.

Definition ret {A : Type} (a : A) : M A := fun w => Returned a w.

Definition bind {A B : Type} (m : M A) (k : A -> M B) : M B :=
  fun w =>
    match m w with
    | Returned a w' => k a w'
    | AssertFailed w' => AssertFailed w'
    | Blocked w' => Blocked w'
    | Undefined w' => Undefined w'
    end.

Notation "x <- m ;; k" := (bind m (fun x => k))
  (at level 100, m at next level, right associativity).
Notation "m ;;; k" := (bind m (fun _ => k))
  (at level 100, right associativity).

(** [unsigned int] arithmetic wraps modulo this. *)
Definition UINT_MAX_1 : Z := 2 ^ 32.

(** Constants of [motor-interface-constants.h] (shared with the firmware and
    not part of the sources at hand), the compiler's choice of the order in
    which the struct assignment [*queue_element = *element] stores the
    members, and the PRU's timing: [sched t] is the number of segments the
    PRU completes just before the host's [t]-th operation. *)
Class Setup : Type := mkSetup {
  QUEUE_LEN : Z;
  STATE_EMPTY : Z;
  STATE_EXIT : Z;
  MOTOR_ENABLE_GPIO1_BIT : Z;
  MOTION_MOTOR_COUNT : nat;
  copy_order : list field;
  sched : nat -> nat
}.

Section Model.

Context {setup : Setup}.

(** *** World updates *)

Definition set_ring (r : list MotionSegment) (w : world) : world :=
  mkWorld r (queue_pos_ w) (gpio_mapped w) (gpio_1_DATAOUT w) (pru_pos w)
    (pru_running w) (clock w) (host_log w) (history w ++ [r]).

Definition set_queue_pos (p : Z) (w : world) : world :=
  mkWorld (ring_buffer w) p (gpio_mapped w) (gpio_1_DATAOUT w) (pru_pos w)
    (pru_running w) (clock w) (host_log w) (history w).

Definition set_gpio (mapped : bool) (v : Z) (w : world) : world :=
  mkWorld (ring_buffer w) (queue_pos_ w) mapped v (pru_pos w)
    (pru_running w) (clock w) (host_log w) (history w).

Definition set_pru (pos : Z) (running : bool) (w : world) : world :=
  mkWorld (ring_buffer w) (queue_pos_ w) (gpio_mapped w) (gpio_1_DATAOUT w)
    pos running (clock w) (host_log w) (history w).

Definition set_clock (c : nat) (w : world) : world :=
  mkWorld (ring_buffer w) (queue_pos_ w) (gpio_mapped w) (gpio_1_DATAOUT w)
    (pru_pos w) (pru_running w) c (host_log w) (history w).

Definition log (e : event) (w : world) : world :=
  mkWorld (ring_buffer w) (queue_pos_ w) (gpio_mapped w) (gpio_1_DATAOUT w)
    (pru_pos w) (pru_running w) (clock w) (host_log w ++ [e]) (history w).

(** *** The coprocessor *)

(** Modelled from the spec: the firmware ([motor-interface-pru.p]) is not
    part of the sources at hand.  It looks at the slots in the fixed order
    0 .. QUEUE_LEN-1, wrapping; it ignores a slot whose state is Empty; when
    it has executed a segment it marks that slot Empty and moves on; an Exit
    segment makes it halt after that. *)
Definition pru_consume (w : world) : world :=
  if pru_running w then
    match ring_buffer w !! Z.to_nat (pru_pos w) with
    | Some s =>
        if state s =? STATE_EMPTY then w
        else
          set_pru ((pru_pos w + 1) mod QUEUE_LEN)
            (negb (state s =? STATE_EXIT))
            (set_ring
               (<[Z.to_nat (pru_pos w) := set_state STATE_EMPTY s]>
                  (ring_buffer w)) w)
    | None => w
    end
  else w.

(** An instant passes: the PRU does what the schedule says for it. *)
Definition tick (w : world) : world :=
  set_clock (S (clock w)) (Nat.iter (sched (clock w)) pru_consume w).

(** *** Host primitives *)

(** A host operation that touches neither the ring buffer nor a register of
    interest.  (A [prussdrv_pru_wait_event] returns when the PRU has raised
    its event; how far the PRU has got by then is the schedule's business,
    and a wait that never ends shows as a loop that runs out of fuel.) *)
Definition call (e : event) : M unit :=
  fun w => Returned tt (log e (tick w)).

Definition prussdrv_pru_wait_event : M unit := call WaitEvent.
Definition prussdrv_pru_clear_event : M unit := call ClearEvent.
Definition prussdrv_exit : M unit := call PruExit.

Definition prussdrv_pru_disable : M unit :=
  fun w =>
    let w1 := tick w in
    Returned tt (log PruDisable (set_pru (pru_pos w1) false w1)).

Definition prussdrv_pru_enable : M unit :=
  fun w => Returned tt (set_pru 0 true w).

(** Volatile read of [pru_data_->ring_buffer[i]]. *)
Definition read_slot (i : Z) : M MotionSegment :=
  fun w =>
    let w1 := tick w in
    match ring_buffer w1 !! Z.to_nat i with
    | Some s => if 0 <=? i then Returned s w1 else Undefined w1
    | None => Undefined w1
    end.

(** Volatile read of [pru_data_->ring_buffer[i].state]. *)
Definition read_state (i : Z) : M Z :=
  s <- read_slot i ;; ret (state s).

(** The effect of [pru_data_->ring_buffer[i].f = v] on a slot that holds
    [s]. *)
Definition do_store (i : Z) (f : field) (v : fval) (s : MotionSegment)
  (w : world) : world :=
  log (Store i f v)
    (set_ring (<[Z.to_nat i := put_field f v s]> (ring_buffer w)) w).

(** Volatile write [pru_data_->ring_buffer[i].f = v]. *)
Definition store (i : Z) (f : field) (v : fval) : M unit :=
  fun w =>
    let w1 := tick w in
    match ring_buffer w1 !! Z.to_nat i with
    | Some s => if 0 <=? i then Returned tt (do_store i f v s w1)
                else Undefined w1
    | None => Undefined w1
    end.

(** *** The functions of the file *)

(** [struct MotionSegment x = {0}], and what [bzero] leaves in a slot. *)
Definition zero_segment : MotionSegment :=
  mkMotionSegment 0 0 0 0 0 0 0 (replicate MOTION_MOTOR_COUNT 0).

Definition map_gpio : M Z :=
  fun w => Returned 1 (set_gpio true (gpio_1_DATAOUT w) w).

Definition unmap_gpio : M unit :=
  fun w =>
    let w1 := tick w in
    Returned tt (log UnmapGpio (set_gpio false (gpio_1_DATAOUT w1) w1)).

(** [for (i = 0; i < QUEUE_LEN; ++i) ring_buffer[i].state = STATE_EMPTY] *)
Definition mark_all_empty (r : list MotionSegment) : list MotionSegment :=
  foldl (fun acc i => alter (set_state STATE_EMPTY) i acc) r
    (seq 0%nat (Z.to_nat QUEUE_LEN)).

(** The firmware is not yet running when this is called. *)
Definition map_pru_communication : M unit :=
  fun w =>
    let zeroed := replicate (Z.to_nat QUEUE_LEN) zero_segment in
    Returned tt (set_queue_pos 0 (set_ring (mark_all_empty zeroed) w)).

(** [while (ring_buffer[i].state != STATE_EMPTY) { wait; clear; }] *)
Fixpoint wait_slot_empty (fuel : nat) (i : Z) : M unit :=
  s <- read_state i ;;
  if s =? STATE_EMPTY then ret tt
  else
    match fuel with
    | O => fun w => Blocked w
    | S fuel' =>
        prussdrv_pru_wait_event ;;;
        prussdrv_pru_clear_event ;;;
        wait_slot_empty fuel' i
    end.

(** Returns the index of the slot that [&ring_buffer[queue_pos_++]] points
    to. *)
Definition next_queue_element (fuel : nat) : M Z :=
  fun w =>
    let w0 := set_queue_pos (queue_pos_ w mod QUEUE_LEN) w in
    (wait_slot_empty fuel (queue_pos_ w0) ;;;
     fun w1 =>
       Returned (queue_pos_ w1)
         (set_queue_pos ((queue_pos_ w1 + 1) mod UINT_MAX_1) w1)) w0.

Definition pru_motor_enable_nowait (on : Z) : M unit :=
  fun w =>
    let w1 := tick w in
    if gpio_mapped w1 then
      let v := if on =? 0
               then Z.shiftl 1 MOTOR_ENABLE_GPIO1_BIT mod UINT_MAX_1
               else 0 in
      Returned tt (log (Gpio1Dataout v) (set_gpio true v w1))
    else Undefined w1.

Definition DumpMotionSegment (i : Z) : M unit :=
  s <- read_state i ;;
  if s =? STATE_EXIT then call (StderrExit i)
  else copy <- read_slot i ;; call (StderrSegment i copy).

(** [*queue_element = *element], member by member. *)
Fixpoint copy_struct (order : list field) (i : Z) (element : MotionSegment)
  : M unit :=
  match order with
  | [] => ret tt
  | f :: order' =>
      store i f (get_field f element) ;;; copy_struct order' i element
  end.

(** Returns the caller's [*element] as the call leaves it. *)
Definition pru_enqueue_segment (fuel : nat) (element : MotionSegment)
  : M MotionSegment :=
  let state_to_send := state element in
  if state_to_send =? STATE_EMPTY then fun w => AssertFailed w
  else
    let element := set_state STATE_EMPTY element in
    queue_element <- next_queue_element fuel ;;
    copy_struct copy_order queue_element element ;;;
    store queue_element F_state (Word state_to_send) ;;;
    DumpMotionSegment queue_element ;;;
    ret element.

(** [(queue_pos_ - 1) % QUEUE_LEN], in [unsigned int]. *)
Definition last_insert_position (w : world) : Z :=
  ((queue_pos_ w - 1) mod UINT_MAX_1) mod QUEUE_LEN.

Definition pru_wait_queue_empty (fuel : nat) : M unit :=
  fun w => wait_slot_empty fuel (last_insert_position w) w.

Definition pru_shutdown (fuel : nat) (flush_queue : Z) : M unit :=
  (if flush_queue =? 0 then ret tt
   else
     let end_element := set_state STATE_EXIT zero_segment in
     pru_enqueue_segment fuel end_element ;;;
     pru_wait_queue_empty fuel) ;;;
  prussdrv_pru_disable ;;;
  prussdrv_exit ;;;
  pru_motor_enable_nowait 0 ;;;
  unmap_gpio.

(** The path of [init_pru_motion_queue] on which every mapping call
    succeeds (the only one that binds the operations).  The writes to the
    output-enable registers, the initialisation of the driver and of its
    interrupt, and the upload of the firmware touch nothing that is modelled
    here and are left out. *)
Definition init_pru_motion_queue : M Z :=
  map_gpio ;;;
  pru_motor_enable_nowait 0 ;;;
  map_pru_communication ;;;
  prussdrv_pru_enable ;;;
  ret 0.

(** The machine before [init_pru_motion_queue]: nothing mapped, the firmware
    not loaded. *)
Definition boot : world :=
  mkWorld [] 0 false 0 0 false 0%nat [] [].

(** The freshly opened channel. *)
Definition opened : world := world_of (init_pru_motion_queue boot).

(** A caller that enqueues the segments of a list one after the other. *)
Fixpoint enqueue_all (fuel : nat) (es : list MotionSegment) : M unit :=
  match es with
  | [] => ret tt
  | e :: es' => pru_enqueue_segment fuel e ;;; enqueue_all fuel es'
  end.

(** The worlds a session can be in between two calls, with the segments
    enqueued so far. *)
Inductive session : list MotionSegment -> world -> Prop :=
| session_open : session [] opened
| session_enqueue segs w fuel e e' w' :
    session segs w ->
    pru_enqueue_segment fuel e w = Returned e' w' ->
    session (segs ++ [e]) w'
| session_wait segs w fuel w' :
    session segs w ->
    pru_wait_queue_empty fuel w = Returned tt w' ->
    session segs w'
| session_motor_enable segs w on w' :
    session segs w ->
    pru_motor_enable_nowait on w = Returned tt w' ->
    session segs w'.

(** *** Vocabulary of the statements *)

(** [k] rounds of the body of a wait loop. *)
Definition waits (k : nat) : list event :=
  concat (replicate k [WaitEvent; ClearEvent]).

(** The stores of the struct assignment of [e] into slot [i]. *)
Definition copy_stores (i : Z) (e : MotionSegment) : list event :=
  map (fun f => Store i f (get_field f e)) copy_order.

(** What [DumpMotionSegment] prints for slot [i]. *)
Definition dump_of (i : Z) (d : list event) : Prop :=
  d = [StderrExit i] \/ exists copy, d = [StderrSegment i copy].

Definition is_store (e : event) : bool :=
  match e with
  | Store _ _ _ => true
  | _ => false
  end.

(** Slot [i] exists and its state is Empty. *)
Definition slot_empty (i : Z) (w : world) : Prop :=
  0 <= i /\
  exists s, ring_buffer w !! Z.to_nat i = Some s /\ state s = STATE_EMPTY.

(** Slot [i] exists and holds exactly [s]. *)
Definition slot_is (i : Z) (s : MotionSegment) (w : world) : Prop :=
  0 <= i /\ ring_buffer w !! Z.to_nat i = Some s.

(** The slots from [k] on are Empty. *)
Definition free_from (k : Z) (w : world) : Prop :=
  forall j, k <= j < QUEUE_LEN -> slot_empty j w.

Definition all_empty (r : list MotionSegment) : Prop :=
  Forall (fun s => state s = STATE_EMPTY) r.

(** Every slot of [r] is Empty or holds, member for member, one of the
    segments [segs]. *)
Definition intact (segs : list MotionSegment) (r : list MotionSegment)
  : Prop :=
  Forall (fun s => state s = STATE_EMPTY \/ s ∈ segs) r.

(** No content the ring buffer ever had shows a torn slot. *)
Definition never_torn (segs : list MotionSegment) (w : world) : Prop :=
  Forall (intact segs) (history w) /\ intact segs (ring_buffer w).

Definition is_wait (e : event) : bool :=
  match e with
  | WaitEvent => true
  | _ => false
  end.

(** A store that makes a slot visible to the firmware. *)
Definition is_flip (e : event) : bool :=
  match e with
  | Store _ F_state (Word v) => negb (v =? STATE_EMPTY)
  | _ => false
  end.

(** The level of the GPIO-1 data-out register that switches the motors
    off. *)
Definition disabled_level : Z :=
  Z.shiftl 1 MOTOR_ENABLE_GPIO1_BIT mod UINT_MAX_1.

(** What [map_pru_communication] leaves in the shared block. *)
Definition fresh_ring : list MotionSegment :=
  mark_all_empty (replicate (Z.to_nat QUEUE_LEN) zero_segment).

(** The sentinel [pru_shutdown] enqueues. *)
Definition end_element : MotionSegment := set_state STATE_EXIT zero_segment.

(** In the ring content [r], slot [i] is Empty. *)
Definition empty_in (i : Z) (r : list MotionSegment) : Prop :=
  exists s, r !! Z.to_nat i = Some s /\ state s = STATE_EMPTY.

(** Since the history was [h0], slot [i] has been Empty throughout and
    still is. *)
Definition copying (i : Z) (h0 : list (list MotionSegment)) (w : world)
  : Prop :=
  slot_empty i w /\
  exists since, history w = h0 ++ since /\ Forall (empty_in i) since.

(** [m] never ends in a failed assertion. *)
Definition never_aborts {A : Type} (m : M A) : Prop :=
  forall w w', m w <> AssertFailed w'.

(** [m] never ends inside a wait loop. *)
Definition never_blocks {A : Type} (m : M A) : Prop :=
  forall w w', m w <> Blocked w'.

(** What is left in a slot that held [s] when the members [order] of [e]
    have been stored into it. *)
Fixpoint put_fields (order : list field) (e s : MotionSegment)
  : MotionSegment :=
  match order with
  | [] => s
  | f :: order' => put_fields order' e (put_field f (get_field f e) s)
  end.

(** The host-private part of the world. *)
Definition private (w : world) : Z * bool * Z * list event :=
  (queue_pos_ w, gpio_mapped w, gpio_1_DATAOUT w, host_log w).

(** [m] keeps [P], however it ends. *)
Definition preserves {A : Type} (P : world -> Prop) (m : M A) : Prop :=
  forall w, P w -> P (world_of (m w)).

(** Properties that neither the PRU nor the passing of time nor the host's
    log can break. *)
Record quiet (P : world -> Prop) : Prop := mkQuiet {
  quiet_consume : forall w, P w -> P (pru_consume w);
  quiet_clock : forall w c, P w -> P (set_clock c w);
  quiet_log : forall w e, P w -> P (log e w)
}.

(** Properties that survive a store into slot [i] that finds the slot Empty
    and leaves it Empty. *)
Definition copy_safe (i : Z) (P : world -> Prop) : Prop :=
  forall w f v s,
    P w -> 0 <= i -> ring_buffer w !! Z.to_nat i = Some s ->
    state s = STATE_EMPTY -> state (put_field f v s) = STATE_EMPTY ->
    P (do_store i f v s w).

(** The occupied slots are the [n] slots from the firmware's position on,
    and the host's position [h] is right behind them. *)
Definition ring_inv (h : Z) (w : world) : Prop :=
  Z.of_nat (length (ring_buffer w)) = QUEUE_LEN /\
  0 <= pru_pos w < QUEUE_LEN /\
  exists n,
    0 <= n <= QUEUE_LEN /\
    h mod QUEUE_LEN = (pru_pos w + n) mod QUEUE_LEN /\
    forall i s,
      0 <= i < QUEUE_LEN -> ring_buffer w !! Z.to_nat i = Some s ->
      (state s <> STATE_EMPTY <-> (i - pru_pos w) mod QUEUE_LEN < n).

(** What holds between two calls of a session. *)
Definition session_inv (segs : list MotionSegment) (w : world) : Prop :=
  ring_inv (queue_pos_ w) w /\
  0 <= queue_pos_ w <= QUEUE_LEN /\
  (queue_pos_ w = 0 -> all_empty (ring_buffer w)) /\
  never_torn segs w /\
  gpio_mapped w = true.

End Model.

(** ** A concrete board, for running the model *)

(** [QUEUE_LEN = 4] as in the specification's test; the other constants as
    BeagleG has them (STATE_EMPTY 0, STATE_FILLED 1, STATE_EXIT 2, the enable
    line on bit 28 of GPIO-1, eight motors). *)
Definition STATE_FILLED : Z := 1.

Definition board4 (s : nat -> nat) : Setup :=
  mkSetup 4 0 2 28 8 declaration_order s.

(** The consumer never completes anything. *)
Definition idle : nat -> nat := fun _ => 0%nat.

(** The consumer completes one segment, just before the host's [T]-th
    operation. *)
Definition one_shot (T : nat) : nat -> nat :=
  fun t => if (t =? T)%nat then 1%nat else 0%nat.

(** The consumer completes one segment before each host operation from the
    [T]-th on. *)
Definition steady_from (T : nat) : nat -> nat :=
  fun t => if (T <=? t)%nat then 1%nat else 0%nat.

Definition sample (n : Z) : MotionSegment :=
  mkMotionSegment STATE_FILLED n 10 20 30 40 50 (replicate 8 n).

(** ** The queue interface and its two implementations *)

(** Modelled from the spec: [struct MotionQueue] is declared in
    [motion-queue.h], which is not part of the sources at hand.  Its four
    function pointers are the ones both init functions assign.  (The
    operations that can wait take the bound on the waiting as their first
    argument, as everywhere in this model.) *)
Record MotionQueue : Type := mkMotionQueue {
  enqueue : nat -> MotionSegment -> M MotionSegment;
  wait_queue_empty : nat -> M unit;
  motor_enable : Z -> M unit;
  shutdown : nat -> Z -> M unit
}.

(** The dummy implementation: four empty function bodies. *)
Definition dummy_enqueue (segment : MotionSegment) : M MotionSegment :=
  fun w => Returned segment w.

Definition dummy_wait_queue_empty : M unit := fun w => Returned tt w.

Definition dummy_motor_enable (on : Z) : M unit := fun w => Returned tt w.

Definition dummy_shutdown (do_flush : Z) : M unit := fun w => Returned tt w.

(** What [init_dummy_motion_queue] leaves in [*queue]. *)
Definition init_dummy_motion_queue : MotionQueue :=
  mkMotionQueue (fun _ => dummy_enqueue) (fun _ => dummy_wait_queue_empty)
    dummy_motor_enable (fun _ => dummy_shutdown).

(** A use of the interface by a caller. *)
Inductive api_call : Type :=
| Enqueue (segment : MotionSegment)
| WaitQueueEmpty
| MotorEnable (on : Z)
| Shutdown (flush : Z).

Definition do_call (q : MotionQueue) (fuel : nat) (c : api_call) : M unit :=
  match c with
  | Enqueue segment => enqueue q fuel segment ;;; ret tt
  | WaitQueueEmpty => wait_queue_empty q fuel
  | MotorEnable on => motor_enable q on
  | Shutdown flush => shutdown q fuel flush
  end.

Fixpoint do_calls (q : MotionQueue) (fuel : nat) (cs : list api_call)
  : M unit :=
  match cs with
  | [] => ret tt
  | c :: cs' => do_call q fuel c ;;; do_calls q fuel cs'
  end.

Section Facade.

Context {setup : Setup}.

(** What [init_pru_motion_queue] leaves in [*queue] when it succeeds. *)
Definition pru_motion_queue : MotionQueue :=
  mkMotionQueue pru_enqueue_segment pru_wait_queue_empty
    pru_motor_enable_nowait pru_shutdown.

(** Slot [j] holds the segment [e] as it was sent, or as the firmware
    leaves it when done: the same members, the state Empty. *)
Definition holds (j : Z) (e : MotionSegment) (w : world) : Prop :=
  0 <= j /\
  exists s, ring_buffer w !! Z.to_nat j = Some s /\
            (s = e \/ s = set_state STATE_EMPTY e).

(** The segments [es] sit in the slots from 0 on, in their order. *)
Definition laid_out (es : list MotionSegment) (w : world) : Prop :=
  forall j e, es !! j = Some e -> holds (Z.of_nat j) e w.

(** The consumer does nothing from here on: the firmware has halted, or the
    schedule gives it no time. *)
Definition frozen (w : world) : Prop :=
  pru_running w = false \/ forall t, sched t = 0%nat.

(** Properties that do not depend on the cursor. *)
Definition cursor_free (P : world -> Prop) : Prop :=
  forall w p, P w -> P (set_queue_pos p w).

(** Properties that survive any store into the ring buffer. *)
Definition store_proof (P : world -> Prop) : Prop :=
  forall w i f v s, P w -> P (do_store i f v s w).

(** The tail of [pru_shutdown], which both kinds of shutdown run. *)
Definition teardown : M unit :=
  prussdrv_pru_disable ;;;
  prussdrv_exit ;;;
  pru_motor_enable_nowait 0 ;;;
  unmap_gpio.

End Facade.

(** ** The start-up, with the calls that can fail *)

Module Startup.

(** What [mmap] can leave in [gpio_0] and [gpio_1]. *)
Inductive pointer : Type :=
| Null
| MapFailed
| Mapped.

Definition valid (p : pointer) : bool :=
  match p with
  | Mapped => true
  | _ => false
  end.

(** What the kernel and the PRU driver answer during the start-up. *)
Record answers : Type := mkAnswers {
  open_dev_mem : bool;    (* open("/dev/mem", O_RDWR) gave a descriptor *)
  mmap_GPIO_0 : bool;     (* the first mmap did not give MAP_FAILED *)
  mmap_GPIO_1 : bool;     (* the second mmap did not give MAP_FAILED *)
  prussdrv_open : Z       (* what prussdrv_open(PRU_EVTOUT_0) returns *)
}.

(** What is written to stderr. *)
Inductive message : Type :=
| Perror_GPIO_0                    (* perror("mmap() GPIO-0") *)
| Perror_GPIO_1                    (* perror("mmap() GPIO-1") *)
| Couldnt_mmap_GPIO                (* "Couldn't mmap() GPIO ranges." *)
| Prussdrv_open_failed (ret : Z).  (* "prussdrv_open() failed (ret)" *)

(** The machine during the start-up: the world of the queue operations, the
    two pointers (of which the world only knows whether both are usable),
    the descriptors open on /dev/mem, the output-enable registers of the
    two GPIO banks, and stderr. *)
Record machine : Type := mkMachine {
  hw : world;
  gpio_0 : pointer;
  gpio_1 : pointer;
  open_fds : nat;
  gpio_0_OE : Z;
  gpio_1_OE : Z;
  stderr : list message
}.

Inductive result (A : Type) : Type :=
| Finished (a : A) (m : machine)
| Crashed (m : machine).     (* a store through an unusable pointer *)

Arguments Finished {A} a m.
Arguments Crashed {A} m.

(** Constants of [motor-interface-constants.h]: the lines of the two GPIO
    banks. *)
Class Pins : Type := mkPins {
  MOTOR_1_STEP_BIT : Z;
  MOTOR_2_STEP_BIT : Z;
  MOTOR_3_STEP_BIT : Z;
  MOTOR_4_STEP_BIT : Z;
  MOTOR_5_STEP_BIT : Z;
  MOTOR_6_STEP_BIT : Z;
  MOTOR_7_STEP_BIT : Z;
  MOTOR_8_STEP_BIT : Z;
  AUX_1_BIT : Z;
  AUX_2_BIT : Z;
  DIRECTION_GPIO1_SHIFT : Z
}.

Section Init.

Context {setup : Setup} {pins : Pins}.

Definition to_uint32 (z : Z) : Z := z mod UINT_MAX_1.

Definition MOTOR_OUT_BITS : Z :=
  to_uint32
    (Z.lor (Z.lor (Z.lor (Z.lor (Z.lor (Z.lor (Z.lor
       (Z.shiftl 1 MOTOR_1_STEP_BIT)
       (Z.shiftl 1 MOTOR_2_STEP_BIT))
       (Z.shiftl 1 MOTOR_3_STEP_BIT))
       (Z.shiftl 1 MOTOR_4_STEP_BIT))
       (Z.shiftl 1 MOTOR_5_STEP_BIT))
       (Z.shiftl 1 MOTOR_6_STEP_BIT))
       (Z.shiftl 1 MOTOR_7_STEP_BIT))
       (Z.shiftl 1 MOTOR_8_STEP_BIT)).

Definition DIRECTION_OUT_BITS : Z :=
  to_uint32 (Z.shiftl 255 DIRECTION_GPIO1_SHIFT).

(** [~(MOTOR_OUT_BITS | (1 << AUX_1_BIT) | (1 << AUX_2_BIT))] *)
Definition gpio_0_output_enable : Z :=
  to_uint32
    (Z.lnot (Z.lor (Z.lor MOTOR_OUT_BITS (Z.shiftl 1 AUX_1_BIT))
               (Z.shiftl 1 AUX_2_BIT))).

(** [~(DIRECTION_OUT_BITS | (1 << MOTOR_ENABLE_GPIO1_BIT))] *)
Definition gpio_1_output_enable : Z :=
  to_uint32
    (Z.lnot (Z.lor DIRECTION_OUT_BITS (Z.shiftl 1 MOTOR_ENABLE_GPIO1_BIT))).

(** The lines of each bank that the file makes outputs. *)
Definition gpio_0_outputs : list Z :=
  [MOTOR_1_STEP_BIT; MOTOR_2_STEP_BIT; MOTOR_3_STEP_BIT; MOTOR_4_STEP_BIT;
   MOTOR_5_STEP_BIT; MOTOR_6_STEP_BIT; MOTOR_7_STEP_BIT; MOTOR_8_STEP_BIT;
   AUX_1_BIT; AUX_2_BIT].

Definition is_gpio_1_output (k : Z) : bool :=
  ((DIRECTION_GPIO1_SHIFT <=? k) && (k <? DIRECTION_GPIO1_SHIFT + 8))
  || (k =? MOTOR_ENABLE_GPIO1_BIT).

Definition with_hw (w : world) (m : machine) : machine :=
  mkMachine w (gpio_0 m) (gpio_1 m) (open_fds m) (gpio_0_OE m) (gpio_1_OE m)
    (stderr m).

(** Assigning the pointers; the world learns whether both are usable. *)
Definition with_pointers (p0 p1 : pointer) (m : machine) : machine :=
  mkMachine
    (set_gpio (valid p0 && valid p1) (gpio_1_DATAOUT (hw m)) (hw m))
    p0 p1 (open_fds m) (gpio_0_OE m) (gpio_1_OE m) (stderr m).

Definition with_fds (n : nat) (m : machine) : machine :=
  mkMachine (hw m) (gpio_0 m) (gpio_1 m) n (gpio_0_OE m) (gpio_1_OE m)
    (stderr m).

Definition with_OE (oe0 oe1 : Z) (m : machine) : machine :=
  mkMachine (hw m) (gpio_0 m) (gpio_1 m) (open_fds m) oe0 oe1 (stderr m).

Definition say (msg : message) (m : machine) : machine :=
  mkMachine (hw m) (gpio_0 m) (gpio_1 m) (open_fds m) (gpio_0_OE m)
    (gpio_1_OE m) (stderr m ++ [msg]).

Definition mmap (ok : bool) : pointer := if ok then Mapped else MapFailed.

Definition map_gpio (a : answers) (m : machine) : Z * machine :=
  (* int fd = open("/dev/mem", O_RDWR); *)
  let m1 := with_fds (if open_dev_mem a then S (open_fds m) else open_fds m) m in
  let m2 := with_pointers (mmap (mmap_GPIO_0 a)) (gpio_1 m1) m1 in
  match gpio_0 m2 with
  | MapFailed => (0, say Perror_GPIO_0 m2)
  | _ =>
      let m3 := with_pointers (gpio_0 m2) (mmap (mmap_GPIO_1 a)) m2 in
      match gpio_1 m3 with
      | MapFailed => (0, say Perror_GPIO_1 m3)
      | _ =>
          (* close(fd); *)
          (1, with_fds (if open_dev_mem a then Nat.pred (open_fds m3)
                        else open_fds m3) m3)
      end
  end.

(** [map_pru_communication] returns the block it has just cleared, which is
    not NULL; the branch of [init_pru_motion_queue] for a NULL result is not
    taken. *)
Definition init_pru_motion_queue (a : answers) (m : machine)
  : result (Z * option MotionQueue) :=
  let (mapped, m1) := map_gpio a m in
  if mapped =? 0 then Finished (1, None) (say Couldnt_mmap_GPIO m1)
  else if negb (valid (gpio_0 m1)) then Crashed m1
  else
    let m2 := with_OE gpio_0_output_enable (gpio_1_OE m1) m1 in
    if negb (valid (gpio_1 m2)) then Crashed m2
    else
      let m3 := with_OE (gpio_0_OE m2) gpio_1_output_enable m2 in
      match pru_motor_enable_nowait 0 (hw m3) with
      | Returned _ w1 =>
          let m4 := with_hw w1 m3 in
          let ret := prussdrv_open a in
          if ret =? 0 then
            match (map_pru_communication ;;; prussdrv_pru_enable) w1 with
            | Returned _ w2 =>
                Finished (0, Some pru_motion_queue) (with_hw w2 m4)
            | _ => Crashed m4
            end
          else Finished (ret, None) (say (Prussdrv_open_failed ret) m4)
      | _ => Crashed m3
      end.

(** The machine before the start-up. *)
Definition power_on : machine := mkMachine boot Null Null 0 0 0 [].

End Init.

End Startup.

(** Some lines, for running the start-up. *)
Definition sample_pins : Startup.Pins :=
  Startup.mkPins 2 3 4 5 7 14 15 20 30 31 12.

(** * Proofs *)

(** ** Distances around the ring *)

Lemma dist_cases Q i c :
  0 <= i < Q -> 0 <= c < Q ->
  (c <= i /\ (i - c) mod Q = i - c) \/ (i < c /\ (i - c) mod Q = i - c + Q).
Proof.
  intros Hi Hc. destruct (Z_le_gt_dec c i) as [H|H].
  - left. split; [assumption|]. apply Z.mod_small. lia.
  - right. split; [lia|].
    rewrite <- (Z.mod_add (i - c) 1 Q) by lia.
    rewrite Z.mod_small by lia. lia.
Qed.

Lemma succ_mod_cases Q c :
  0 <= c < Q ->
  (c + 1 < Q /\ (c + 1) mod Q = c + 1) \/ (c + 1 = Q /\ (c + 1) mod Q = 0).
Proof.
  intros Hc. destruct (Z.eq_dec (c + 1) Q) as [H|H].
  - right. split; [assumption|]. rewrite H. apply Z.mod_same. lia.
  - left. split; [lia|]. apply Z.mod_small. lia.
Qed.

Lemma dist_succ Q i c :
  0 <= i < Q -> 0 <= c < Q -> i <> c ->
  (i - (c + 1) mod Q) mod Q = (i - c) mod Q - 1.
Proof.
  intros Hi Hc Hne.
  assert (Hp : 0 <= (c + 1) mod Q < Q) by (apply Z.mod_pos_bound; lia).
  destruct (succ_mod_cases Q c Hc) as [[H1 H2]|[H1 H2]];
    destruct (dist_cases Q i c Hi Hc) as [[H3 H4]|[H3 H4]];
    destruct (dist_cases Q i ((c + 1) mod Q) Hi Hp) as [[H5 H6]|[H5 H6]];
    lia.
Qed.

Lemma dist_self_succ Q c :
  0 <= c < Q -> (c - (c + 1) mod Q) mod Q = Q - 1.
Proof.
  intros Hc.
  assert (Hp : 0 <= (c + 1) mod Q < Q) by (apply Z.mod_pos_bound; lia).
  destruct (succ_mod_cases Q c Hc) as [[H1 H2]|[H1 H2]];
    destruct (dist_cases Q c ((c + 1) mod Q) Hc Hp) as [[H5 H6]|[H5 H6]];
    lia.
Qed.

Lemma dist_inj Q c i j :
  0 <= c < Q -> 0 <= i < Q -> 0 <= j < Q ->
  (i - c) mod Q = (j - c) mod Q -> i = j.
Proof.
  intros Hc Hi Hj.
  destruct (dist_cases Q i c Hi Hc) as [[H3 H4]|[H3 H4]];
    destruct (dist_cases Q j c Hj Hc) as [[H5 H6]|[H5 H6]]; lia.
Qed.

Lemma dist_of_sum Q c n i :
  0 < Q -> i mod Q = (c + n) mod Q -> (i - c) mod Q = n mod Q.
Proof.
  intros HQ H.
  rewrite Zminus_mod, H, <- Zminus_mod. f_equal. ring.
Qed.

Lemma wrap_pred Q :
  0 < Q -> (Q | UINT_MAX_1) -> ((0 - 1) mod UINT_MAX_1) mod Q = Q - 1.
Proof.
  intros HQ [c Hc]. 
  replace ((0 - 1) mod UINT_MAX_1) with (UINT_MAX_1 - 1) by reflexivity.
  rewrite Hc. replace (c * Q - 1) with (Q - 1 + (c - 1) * Q) by ring.
  rewrite Z.mod_add by lia. apply Z.mod_small. lia.
Qed.

Section Proofs.

Context {setup : Setup}.

Arguments tick : simpl never.

(** ** The monad *)

Lemma bind_returned {A B : Type} (m : M A) (k : A -> M B) w b w' :
  bind m k w = Returned b w' ->
  exists a w1, m w = Returned a w1 /\ k a w1 = Returned b w'.
Proof.
  unfold bind. destruct (m w) as [a w1| | |]; try discriminate.
  intros Hk. exists a, w1. auto.
Qed.

Lemma bind_eq_returned {A B : Type} (m : M A) (k : A -> M B) w a w1 :
  m w = Returned a w1 -> bind m k w = k a w1.
Proof. unfold bind. intros ->. reflexivity. Qed.

Lemma preserves_bind {A B : Type} P (m : M A) (k : A -> M B) :
  preserves P m -> (forall a, preserves P (k a)) -> preserves P (bind m k).
Proof.
  intros Hm Hk w HP. specialize (Hm w HP). unfold bind.
  destruct (m w) as [a w1| | |]; simpl in *; auto.
  apply Hk; assumption.
Qed.

Lemma preserves_ret {A : Type} P (a : A) : preserves P (ret a).
Proof. intros w HP. exact HP. Qed.

(** ** The coprocessor and the clock *)

Lemma quiet_iter P n w : quiet P -> P w -> P (Nat.iter n pru_consume w).
Proof.
  intros HQ HP. induction n as [|n IH]; simpl; [assumption|].
  apply (quiet_consume P HQ). exact IH.
Qed.

Lemma quiet_tick P w : quiet P -> P w -> P (tick w).
Proof.
  intros HQ HP. unfold tick. apply (quiet_clock P HQ).
  apply quiet_iter; assumption.
Qed.

Lemma quiet_and P Q : quiet P -> quiet Q -> quiet (fun w => P w /\ Q w).
Proof.
  intros [p1 p2 p3] [q1 q2 q3]. split; intros; split; intuition auto.
Qed.

Lemma quiet_call P e : quiet P -> preserves P (call e).
Proof.
  intros HQ w HP. simpl. apply (quiet_log P HQ). apply quiet_tick; assumption.
Qed.

Lemma quiet_read_slot P i : quiet P -> preserves P (read_slot i).
Proof.
  intros HQ w HP. unfold read_slot.
  pose proof (quiet_tick P w HQ HP) as Ht.
  destruct (ring_buffer (tick w) !! Z.to_nat i); [destruct (0 <=? i)|]; exact Ht.
Qed.

Lemma quiet_read_state P i : quiet P -> preserves P (read_state i).
Proof.
  intros HQ. unfold read_state. apply preserves_bind.
  - apply quiet_read_slot; assumption.
  - intros a. apply preserves_ret.
Qed.

Lemma quiet_wait_slot_empty P fuel i :
  quiet P -> preserves P (wait_slot_empty fuel i).
Proof.
  intros HQ. induction fuel as [|fuel IH]; simpl.
  - apply preserves_bind; [apply quiet_read_state; assumption|].
    intros s. destruct (s =? STATE_EMPTY); [apply preserves_ret|].
    intros w HP. exact HP.
  - apply preserves_bind; [apply quiet_read_state; assumption|].
    intros s. destruct (s =? STATE_EMPTY); [apply preserves_ret|].
    apply preserves_bind; [apply quiet_call; assumption|]. intros _.
    apply preserves_bind; [apply quiet_call; assumption|]. intros _.
    exact IH.
Qed.

Lemma quiet_DumpMotionSegment P i :
  quiet P -> preserves P (DumpMotionSegment i).
Proof.
  intros HQ. unfold DumpMotionSegment.
  apply preserves_bind; [apply quiet_read_state; assumption|].
  intros s. destruct (s =? STATE_EXIT); [apply quiet_call; assumption|].
  apply preserves_bind; [apply quiet_read_slot; assumption|].
  intros c. apply quiet_call; assumption.
Qed.

(** What the PRU leaves alone. *)

Lemma consume_cases w :
  pru_consume w = w \/
  exists s,
    pru_running w = true /\
    ring_buffer w !! Z.to_nat (pru_pos w) = Some s /\
    state s <> STATE_EMPTY /\
    pru_consume w =
      set_pru ((pru_pos w + 1) mod QUEUE_LEN) (negb (state s =? STATE_EXIT))
        (set_ring (<[Z.to_nat (pru_pos w) := set_state STATE_EMPTY s]>
                     (ring_buffer w)) w).
Proof.
  unfold pru_consume. destruct (pru_running w); [|left; reflexivity].
  destruct (ring_buffer w !! Z.to_nat (pru_pos w)) as [s|] eqn:Hs;
    [|left; reflexivity].
  destruct (state s =? STATE_EMPTY) eqn:He; [left; reflexivity|].
  right. exists s. apply Z.eqb_neq in He. auto.
Qed.

Lemma consume_host_log w : host_log (pru_consume w) = host_log w.
Proof. destruct (consume_cases w) as [->|(s & _ & _ & _ & ->)]; reflexivity. Qed.

Lemma consume_queue_pos w : queue_pos_ (pru_consume w) = queue_pos_ w.
Proof. destruct (consume_cases w) as [->|(s & _ & _ & _ & ->)]; reflexivity. Qed.

Lemma consume_gpio w :
  gpio_mapped (pru_consume w) = gpio_mapped w /\
  gpio_1_DATAOUT (pru_consume w) = gpio_1_DATAOUT w.
Proof. destruct (consume_cases w) as [->|(s & _ & _ & _ & ->)]; auto. Qed.

Lemma consume_length w :
  length (ring_buffer (pru_consume w)) = length (ring_buffer w).
Proof.
  destruct (consume_cases w) as [->|(s & _ & _ & _ & ->)]; [reflexivity|].
  simpl. apply length_insert.
Qed.

Lemma iter_private n w : private (Nat.iter n pru_consume w) = private w.
Proof.
  induction n as [|n IH]; simpl; [reflexivity|]. rewrite <- IH.
  unfold private. rewrite consume_queue_pos, consume_host_log.
  destruct (consume_gpio (Nat.iter n pru_consume w)) as [-> ->]. reflexivity.
Qed.

Lemma tick_private w : private (tick w) = private w.
Proof. unfold tick. rewrite <- (iter_private (sched (clock w)) w). reflexivity. Qed.

Lemma tick_host_log w : host_log (tick w) = host_log w.
Proof. pose proof (tick_private w) as H. unfold private in H. congruence. Qed.

Lemma tick_queue_pos w : queue_pos_ (tick w) = queue_pos_ w.
Proof. pose proof (tick_private w) as H. unfold private in H. congruence. Qed.

Lemma tick_gpio_mapped w : gpio_mapped (tick w) = gpio_mapped w.
Proof. pose proof (tick_private w) as H. unfold private in H. congruence. Qed.

Lemma tick_gpio_1_DATAOUT w : gpio_1_DATAOUT (tick w) = gpio_1_DATAOUT w.
Proof. pose proof (tick_private w) as H. unfold private in H. congruence. Qed.

Lemma tick_length w : length (ring_buffer (tick w)) = length (ring_buffer w).
Proof.
  unfold tick. simpl. induction (sched (clock w)) as [|n IH]; simpl; [reflexivity|].
  rewrite consume_length. exact IH.
Qed.

(** An Empty slot stays as it is until the host writes to it. *)
Lemma quiet_slot_is i s :
  state s = STATE_EMPTY -> quiet (slot_is i s).
Proof.
  intros Hs. split; try (intros w ? H; exact H).
  intros w [Hi H]. split; [assumption|].
  destruct (consume_cases w) as [->|(s' & _ & Hs' & Hne & ->)]; [assumption|].
  simpl. destruct (decide (Z.to_nat (pru_pos w) = Z.to_nat i)) as [E|E].
  - rewrite E in Hs'. congruence.
  - rewrite list_lookup_insert_ne; assumption.
Qed.

Lemma quiet_slot_empty i : quiet (slot_empty i).
Proof.
  assert (forall w, slot_empty i w <-> exists s, state s = STATE_EMPTY /\ slot_is i s w) as E.
  { intros w. unfold slot_empty, slot_is. split.
    - intros (Hi & s & H1 & H2). eauto.
    - intros (s & H2 & Hi & H1). eauto. }
  split.
  - intros w H. apply E in H as (s & Hs & H). apply E. exists s. split; [assumption|].
    apply (quiet_consume _ (quiet_slot_is i s Hs)). assumption.
  - intros w c H. exact H.
  - intros w e H. exact H.
Qed.

Lemma quiet_queue_pos c : quiet (fun w => queue_pos_ w = c).
Proof.
  split; intros w; [|simpl; auto..].
  intros H. rewrite consume_queue_pos. exact H.
Qed.

(** ** Segments and their members *)

Lemma get_put_same f e s : get_field f (put_field f (get_field f e) s) = get_field f e.
Proof. destruct f; reflexivity. Qed.

Lemma get_put_other f g e s :
  f <> g -> get_field f (put_field g (get_field g e) s) = get_field f s.
Proof. destruct f, g; intros H; try reflexivity; congruence. Qed.

Lemma segment_ext a b : (forall f, get_field f a = get_field f b) -> a = b.
Proof.
  intros H. destruct a, b.
  pose proof (H F_state) as H1. pose proof (H F_direction_bits) as H2.
  pose proof (H F_loops_accel) as H3. pose proof (H F_loops_travel) as H4.
  pose proof (H F_loops_decel) as H5. pose proof (H F_hires_accel_cycles) as H6.
  pose proof (H F_travel_delay_cycles) as H7. pose proof (H F_fractions) as H8.
  simpl in *. congruence.
Qed.

Lemma set_state_set_state v e : set_state v (set_state STATE_EMPTY e) = set_state v e.
Proof. reflexivity. Qed.

Lemma set_state_same e : set_state (state e) e = e.
Proof. destruct e; reflexivity. Qed.

Lemma put_fields_keeps order f e s :
  get_field f s = get_field f e ->
  get_field f (put_fields order e s) = get_field f e.
Proof.
  revert s. induction order as [|g order IH]; intros s H; simpl; [assumption|].
  apply IH. destruct (decide (f = g)) as [->|Hne].
  - apply get_put_same.
  - rewrite get_put_other; assumption.
Qed.

Lemma put_fields_member order f e s :
  f ∈ order -> get_field f (put_fields order e s) = get_field f e.
Proof.
  revert s. induction order as [|g order IH]; intros s H; simpl.
  - inversion H.
  - destruct (decide (f = g)) as [->|Hne].
    + apply put_fields_keeps. apply get_put_same.
    + apply IH. apply elem_of_cons in H as [H|H]; [contradiction|assumption].
Qed.

Lemma put_fields_all order e s :
  (forall f, f ∈ order) -> put_fields order e s = e.
Proof.
  intros H. apply segment_ext. intros f. apply put_fields_member. apply H.
Qed.

Lemma put_field_state_empty f e s :
  state e = STATE_EMPTY -> state s = STATE_EMPTY ->
  state (put_field f (get_field f e) s) = STATE_EMPTY.
Proof. intros He Hs. destruct f; simpl; assumption. Qed.

(** ** Reads and stores *)

Lemma read_slot_returned i w s w' :
  read_slot i w = Returned s w' ->
  w' = tick w /\ slot_is i s w'.
Proof.
  unfold read_slot, slot_is.
  destruct (ring_buffer (tick w) !! Z.to_nat i) as [s0|] eqn:Hs; [|discriminate].
  destruct (0 <=? i) eqn:Hi; [|discriminate].
  intros [= <- <-]. apply Z.leb_le in Hi. auto.
Qed.

Lemma read_slot_slot_is i s w :
  slot_is i s (tick w) -> read_slot i w = Returned s (tick w).
Proof.
  intros [Hi Hs]. unfold read_slot. rewrite Hs.
  apply Z.leb_le in Hi. rewrite Hi. reflexivity.
Qed.

Lemma read_state_returned i w v w' :
  read_state i w = Returned v w' ->
  w' = tick w /\ exists s, slot_is i s w' /\ state s = v.
Proof.
  unfold read_state. intros H.
  apply bind_returned in H as (s & w1 & H1 & H2).
  apply read_slot_returned in H1 as [-> Hs]. injection H2 as <- <-. eauto.
Qed.

Lemma read_state_slot_is i s w :
  slot_is i s (tick w) -> read_state i w = Returned (state s) (tick w).
Proof.
  intros H. unfold read_state.
  rewrite (bind_eq_returned _ _ _ _ _ (read_slot_slot_is i s w H)). reflexivity.
Qed.

Lemma in_range_slot i w :
  0 <= i -> (Z.to_nat i < length (ring_buffer w))%nat ->
  exists s, slot_is i s w.
Proof.
  intros Hi Hl. destruct (lookup_lt_is_Some_2 _ _ Hl) as [s Hs].
  exists s. split; assumption.
Qed.

Lemma slot_is_in_range i s w :
  slot_is i s w -> 0 <= i /\ (Z.to_nat i < length (ring_buffer w))%nat.
Proof. intros [Hi Hs]. split; [assumption|]. eapply lookup_lt_Some; eassumption. Qed.

Lemma store_slot_is i f v s w :
  slot_is i s (tick w) -> store i f v w = Returned tt (do_store i f v s (tick w)).
Proof.
  intros [Hi Hs]. unfold store. rewrite Hs.
  apply Z.leb_le in Hi. rewrite Hi. reflexivity.
Qed.

Lemma do_store_slot_is i f v s w :
  slot_is i s w -> slot_is i (put_field f v s) (do_store i f v s w).
Proof.
  intros H. destruct (slot_is_in_range _ _ _ H) as [Hi Hl].
  split; [assumption|]. simpl. apply list_lookup_insert_eq. assumption.
Qed.

(** ** The wait loop *)

Lemma wait_slot_empty_free fuel i w :
  slot_empty i w -> wait_slot_empty fuel i w = Returned tt (tick w).
Proof.
  intros H. apply (quiet_tick _ _ (quiet_slot_empty i)) in H.
  destruct H as (Hi & s & Hs & He).
  assert (read_state i w = Returned (state s) (tick w)) as Hr
    by (apply read_state_slot_is; split; assumption).
  destruct fuel; simpl; rewrite (bind_eq_returned _ _ _ _ _ Hr);
    rewrite He, Z.eqb_refl; reflexivity.
Qed.

Lemma wait_slot_empty_returned fuel i w w' :
  wait_slot_empty fuel i w = Returned tt w' -> slot_empty i w'.
Proof.
  revert w. induction fuel as [|fuel IH]; intros w; simpl; intros H;
    apply bind_returned in H as (v & w1 & Hr & H);
    apply read_state_returned in Hr as (-> & s & [Hi Hs] & <-);
    destruct (state s =? STATE_EMPTY) eqn:He.
  - injection H as <-. apply Z.eqb_eq in He. split; eauto.
  - discriminate.
  - injection H as <-. apply Z.eqb_eq in He. split; eauto.
  - apply bind_returned in H as (? & w2 & _ & H).
    apply bind_returned in H as (? & w3 & _ & H).
    eapply IH; eassumption.
Qed.

Lemma waits_S k : waits (S k) = [WaitEvent; ClearEvent] ++ waits k.
Proof. reflexivity. Qed.

Lemma read_state_cases i w :
  (exists s, slot_is i s (tick w) /\ read_state i w = Returned (state s) (tick w)) \/
  read_state i w = Undefined (tick w).
Proof.
  unfold read_state, bind, read_slot, slot_is.
  destruct (ring_buffer (tick w) !! Z.to_nat i) as [s|] eqn:Hs; [|right; reflexivity].
  destruct (0 <=? i) eqn:Hi; [|right; reflexivity].
  left. exists s. apply Z.leb_le in Hi. auto.
Qed.

Lemma wait_slot_empty_log fuel i w :
  exists k, (k <= fuel)%nat /\
    host_log (world_of (wait_slot_empty fuel i w)) = host_log w ++ waits k.
Proof.
  revert w. induction fuel as [|fuel IH]; intros w; cbn; unfold bind at 1;
    destruct (read_state_cases i w) as [(s & _ & ->)| ->].
  - exists 0%nat. split; [lia|].
    destruct (state s =? STATE_EMPTY); unfold ret; cbn;
      rewrite tick_host_log, app_nil_r; reflexivity.
  - exists 0%nat. cbn. rewrite tick_host_log, app_nil_r. split; [lia|reflexivity].
  - destruct (state s =? STATE_EMPTY).
    + exists 0%nat. split; [lia|]. unfold ret. cbn.
      rewrite tick_host_log, app_nil_r. reflexivity.
    + unfold bind, prussdrv_pru_wait_event, prussdrv_pru_clear_event, call.
      destruct (IH (log ClearEvent (tick (log WaitEvent (tick (tick w))))))
        as (k & Hk & Hlog).
      exists (S k). split; [lia|]. rewrite Hlog. cbn.
      rewrite !tick_host_log. cbn. rewrite !tick_host_log.
      rewrite <- !app_assoc. reflexivity.
  - exists 0%nat. cbn. rewrite tick_host_log, app_nil_r. split; [lia|reflexivity].
Qed.

Lemma wait_slot_empty_blocked fuel i w w' :
  wait_slot_empty fuel i w = Blocked w' ->
  exists s, slot_is i s w' /\ state s <> STATE_EMPTY.
Proof.
  revert w. induction fuel as [|fuel IH]; intros w; cbn; unfold bind at 1;
    destruct (read_state_cases i w) as [(s & Hs & ->)| ->]; try discriminate.
  - destruct (state s =? STATE_EMPTY) eqn:He; [discriminate|].
    intros [= <-]. apply Z.eqb_neq in He. eauto.
  - destruct (state s =? STATE_EMPTY) eqn:He; [discriminate|].
    unfold bind, prussdrv_pru_wait_event, prussdrv_pru_clear_event, call.
    apply IH.
Qed.

(** The loop is left at the first read that finds the slot Empty, and it
    never aborts. *)
Lemma wait_slot_empty_no_abort fuel i w w' :
  wait_slot_empty fuel i w <> AssertFailed w'.
Proof.
  revert w. induction fuel as [|fuel IH]; intros w; cbn; unfold bind at 1;
    destruct (read_state_cases i w) as [(s & Hs & ->)| ->]; try discriminate.
  - destruct (state s =? STATE_EMPTY); discriminate.
  - destruct (state s =? STATE_EMPTY); [discriminate|].
    unfold bind, prussdrv_pru_wait_event, prussdrv_pru_clear_event, call.
    apply IH.
Qed.

(** ** The struct assignment *)

Lemma copy_struct_spec order i e s w :
  state e = STATE_EMPTY -> state s = STATE_EMPTY -> slot_is i s w ->
  exists w',
    copy_struct order i e w = Returned tt w' /\
    slot_is i (put_fields order e s) w' /\
    state (put_fields order e s) = STATE_EMPTY /\
    host_log w' = host_log w ++ map (fun f => Store i f (get_field f e)) order /\
    (forall P, quiet P -> copy_safe i P -> P w -> P w').
Proof.
  intros He. revert s w. induction order as [|f order IH]; intros s w Hs Hslot.
  - exists w. cbn. rewrite app_nil_r. auto.
  - pose proof (quiet_tick _ _ (quiet_slot_is i s Hs) Hslot) as Ht.
    pose proof (put_field_state_empty f e s He Hs) as Hs'.
    destruct (IH _ (do_store i f (get_field f e) s (tick w)) Hs'
                (do_store_slot_is _ _ _ _ _ Ht))
      as (w' & Hrun & Hslot' & Hst & Hlog & HP).
    exists w'. cbn [copy_struct put_fields].
    rewrite (bind_eq_returned _ _ _ _ _ (store_slot_is i f _ s w Ht)).
    repeat split; try assumption.
    + apply Hslot'.
    + apply Hslot'.
    + rewrite Hlog. cbn. rewrite tick_host_log, <- app_assoc. reflexivity.
    + intros P HQ HC HPw. apply HP; try assumption.
      destruct Ht as [Hi Hl]. apply HC; try assumption.
      apply quiet_tick; assumption.
Qed.

(** ** DumpMotionSegment *)

Lemma DumpMotionSegment_spec i w :
  0 <= i -> (Z.to_nat i < length (ring_buffer w))%nat ->
  exists w' d,
    DumpMotionSegment i w = Returned tt w' /\
    dump_of i d /\
    host_log w' = host_log w ++ d.
Proof.
  intros Hi Hl. unfold DumpMotionSegment.
  assert (Hl1 : (Z.to_nat i < length (ring_buffer (tick w)))%nat)
    by (rewrite tick_length; assumption).
  destruct (in_range_slot i (tick w) Hi Hl1) as [s Hs].
  rewrite (bind_eq_returned _ _ _ _ _ (read_state_slot_is i s w Hs)).
  destruct (state s =? STATE_EXIT).
  - eexists _, [StderrExit i]. split; [reflexivity|]. split; [left; reflexivity|].
    cbn. rewrite !tick_host_log. reflexivity.
  - assert (Hl2 : (Z.to_nat i < length (ring_buffer (tick (tick w))))%nat)
      by (rewrite tick_length; assumption).
    destruct (in_range_slot i (tick (tick w)) Hi Hl2) as [c Hc].
    rewrite (bind_eq_returned _ _ _ _ _ (read_slot_slot_is i c _ Hc)).
    eexists _, [StderrSegment i c]. split; [reflexivity|].
    split; [right; eexists; reflexivity|].
    cbn. rewrite !tick_host_log. reflexivity.
Qed.

Lemma DumpMotionSegment_returned i w w' :
  DumpMotionSegment i w = Returned tt w' ->
  exists d, dump_of i d /\ host_log w' = host_log w ++ d.
Proof.
  intros H. pose proof H as H0. unfold DumpMotionSegment in H0.
  apply bind_returned in H0 as (v & w1 & Hr & _).
  apply read_state_returned in Hr as (-> & s & Hs & _).
  apply slot_is_in_range in Hs as [Hi Hl]. rewrite tick_length in Hl.
  destruct (DumpMotionSegment_spec i w Hi Hl) as (w2 & d & Hrun & Hd & Hlog).
  rewrite H in Hrun. injection Hrun as <-. eauto.
Qed.

(** ** next_queue_element *)

Lemma next_queue_element_returned fuel w i w' :
  next_queue_element fuel w = Returned i w' ->
  i = queue_pos_ w mod QUEUE_LEN /\
  exists w1,
    wait_slot_empty fuel i (set_queue_pos i w) = Returned tt w1 /\
    queue_pos_ w1 = i /\
    w' = set_queue_pos ((i + 1) mod UINT_MAX_1) w1.
Proof.
  unfold next_queue_element. intros H.
  apply bind_returned in H as ([] & w1 & Hw & H).
  cbn [queue_pos_ set_queue_pos] in Hw.
  pose proof (quiet_wait_slot_empty _ fuel (queue_pos_ w mod QUEUE_LEN)
                (quiet_queue_pos (queue_pos_ w mod QUEUE_LEN))
                (set_queue_pos (queue_pos_ w mod QUEUE_LEN) w) eq_refl) as Hq.
  rewrite Hw in Hq. cbn [world_of] in Hq.
  injection H as <- <-. rewrite Hq. split; [reflexivity|].
  exists w1. auto.
Qed.

(** ** pru_enqueue_segment, taken apart *)

Lemma enqueue_returned fuel e w e' w' :
  (forall f, f ∈ copy_order) ->
  pru_enqueue_segment fuel e w = Returned e' w' ->
  let i := queue_pos_ w mod QUEUE_LEN in
  let e0 := set_state STATE_EMPTY e in
  state e <> STATE_EMPTY /\ e' = e0 /\
  exists w1 w2 d,
    wait_slot_empty fuel i (set_queue_pos i w) = Returned tt w1 /\
    slot_empty i w1 /\
    copy_struct copy_order i e0 (set_queue_pos ((i + 1) mod UINT_MAX_1) w1)
      = Returned tt w2 /\
    slot_is i e0 (tick w2) /\
    (forall P, quiet P -> copy_safe i P ->
       P (set_queue_pos ((i + 1) mod UINT_MAX_1) w1) -> P (tick w2)) /\
    DumpMotionSegment i (do_store i F_state (Word (state e)) e0 (tick w2))
      = Returned tt w' /\
    dump_of i d /\
    host_log w' =
      host_log w1 ++ copy_stores i e0 ++ [Store i F_state (Word (state e))] ++ d.
Proof.
  intros Hall H i e0. unfold pru_enqueue_segment in H.
  destruct (state e =? STATE_EMPTY) eqn:Hne; [discriminate|].
  apply Z.eqb_neq in Hne. split; [assumption|].
  apply bind_returned in H as (qe & wa & Hnext & H).
  apply next_queue_element_returned in Hnext as (-> & w1 & Hwait & Hqp & ->).
  fold i in Hwait, Hqp, H |- *. fold e0 in H.
  pose proof (wait_slot_empty_returned _ _ _ _ Hwait) as Hempty.
  destruct Hempty as (Hi & s & Hs & Hse).
  destruct (copy_struct_spec copy_order i e0 s
              (set_queue_pos ((i + 1) mod UINT_MAX_1) w1) eq_refl Hse)
    as (w2 & Hcopy & Hslot & _ & Hlog & HP).
  { split; assumption. }
  rewrite (put_fields_all _ _ _ Hall) in Hslot.
  rewrite (bind_eq_returned _ _ _ _ _ Hcopy) in H.
  pose proof (quiet_tick _ _ (quiet_slot_is i e0 eq_refl) Hslot) as Hslot'.
  rewrite (bind_eq_returned _ _ _ _ _ (store_slot_is i F_state _ e0 w2 Hslot')) in H.
  apply bind_returned in H as ([] & w4 & Hdump & H).
  injection H as <- <-. split; [reflexivity|].
  destruct (DumpMotionSegment_returned _ _ _ Hdump) as (d & Hd & Hlogd).
  exists w1, w2, d.
  split; [exact Hwait|]. split; [split; eauto|]. split; [exact Hcopy|].
  split; [exact Hslot'|].
  split; [intros P HQ HC HPw; apply quiet_tick; [assumption|];
          apply HP; assumption|].
  split; [exact Hdump|]. split; [exact Hd|].
  rewrite Hlogd. cbn. rewrite tick_host_log, Hlog. cbn.
  unfold copy_stores. rewrite <- !app_assoc. reflexivity.
Qed.

(** When the slot is free the call goes through without waiting. *)
Lemma enqueue_free fuel e w :
  state e <> STATE_EMPTY ->
  slot_empty (queue_pos_ w mod QUEUE_LEN) w ->
  exists e' w', pru_enqueue_segment fuel e w = Returned e' w'.
Proof.
  intros Hne Hfree. set (i := queue_pos_ w mod QUEUE_LEN) in *.
  unfold pru_enqueue_segment. apply Z.eqb_neq in Hne. rewrite Hne.
  assert (Hnext : next_queue_element fuel w =
            Returned i (set_queue_pos ((i + 1) mod UINT_MAX_1)
                          (tick (set_queue_pos i w)))).
  { unfold next_queue_element. fold i. cbn [queue_pos_ set_queue_pos].
    assert (Hf : slot_empty i (set_queue_pos i w)) by exact Hfree.
    rewrite (bind_eq_returned _ _ _ _ _ (wait_slot_empty_free fuel i _ Hf)).
    rewrite tick_queue_pos. reflexivity. }
  rewrite (bind_eq_returned _ _ _ _ _ Hnext).
  assert (Hf : slot_empty i (set_queue_pos ((i + 1) mod UINT_MAX_1)
                               (tick (set_queue_pos i w)))).
  { apply (quiet_tick _ (set_queue_pos i w) (quiet_slot_empty i)). exact Hfree. }
  destruct Hf as (Hi & s & Hs & Hse).
  destruct (copy_struct_spec copy_order i (set_state STATE_EMPTY e) s
              (set_queue_pos ((i + 1) mod UINT_MAX_1) (tick (set_queue_pos i w)))
              eq_refl Hse)
    as (w2 & Hcopy & Hslot & Hst & _ & _).
  { split; assumption. }
  rewrite (bind_eq_returned _ _ _ _ _ Hcopy).
  pose proof (quiet_tick _ _ (quiet_slot_is i _ Hst) Hslot) as Hslot'.
  rewrite (bind_eq_returned _ _ _ _ _ (store_slot_is i F_state _ _ w2 Hslot')).
  pose proof (do_store_slot_is i F_state (Word (state e)) _ _ Hslot') as Hs3.
  apply slot_is_in_range in Hs3 as [_ Hl].
  destruct (DumpMotionSegment_spec i _ Hi Hl) as (w4 & d & Hdump & _).
  rewrite (bind_eq_returned _ _ _ _ _ Hdump). eexists _, _. reflexivity.
Qed.

(** ** Invariants of the ring *)

Lemma quiet_intro (P : world -> Prop) :
  (forall w s,
     pru_running w = true ->
     ring_buffer w !! Z.to_nat (pru_pos w) = Some s ->
     state s <> STATE_EMPTY -> P w ->
     P (set_pru ((pru_pos w + 1) mod QUEUE_LEN) (negb (state s =? STATE_EXIT))
          (set_ring (<[Z.to_nat (pru_pos w) := set_state STATE_EMPTY s]>
                       (ring_buffer w)) w))) ->
  (forall w c, P w -> P (set_clock c w)) ->
  (forall w e, P w -> P (log e w)) ->
  quiet P.
Proof.
  intros Hc Hk Hl. split; try assumption.
  intros w HP. destruct (consume_cases w) as [->|(s & Hr & Hs & Hne & ->)];
    [assumption|]. apply Hc; assumption.
Qed.

Lemma quiet_all_empty : quiet (fun w => all_empty (ring_buffer w)).
Proof.
  apply quiet_intro; try (intros w ? H; exact H).
  intros w s _ Hs Hne H. exfalso. apply Hne.
  unfold all_empty in H. rewrite Forall_lookup in H. eapply H. eassumption.
Qed.

Lemma quiet_never_torn segs : quiet (never_torn segs).
Proof.
  apply quiet_intro; try (intros w ? H; exact H).
  intros w s _ Hs Hne [Hh Hr].
  assert (Hi : intact segs (<[Z.to_nat (pru_pos w) := set_state STATE_EMPTY s]>
                              (ring_buffer w))).
  { apply Forall_insert; [assumption|]. left. reflexivity. }
  split; cbn; [|assumption].
  apply Forall_app. split; [assumption|]. constructor; [assumption|constructor].
Qed.

Lemma copy_safe_never_torn i segs : copy_safe i (never_torn segs).
Proof.
  intros w f v s [Hh Hr] Hi Hs Hse Hput.
  assert (Hint : intact segs (<[Z.to_nat i := put_field f v s]> (ring_buffer w))).
  { apply Forall_insert; [assumption|]. left. assumption. }
  split; cbn; [|assumption].
  apply Forall_app. split; [assumption|]. constructor; [assumption|constructor].
Qed.

Lemma flip_never_torn i e segs w :
  never_torn segs w -> e ∈ segs ->
  never_torn segs
    (do_store i F_state (Word (state e)) (set_state STATE_EMPTY e) w).
Proof.
  intros [Hh Hr] He.
  assert (Hint : intact segs
            (<[Z.to_nat i := put_field F_state (Word (state e))
                               (set_state STATE_EMPTY e)]> (ring_buffer w))).
  { apply Forall_insert; [assumption|]. right.
    cbn [put_field]. rewrite set_state_set_state, set_state_same. assumption. }
  split; cbn; [|assumption].
  apply Forall_app. split; [assumption|]. constructor; [assumption|constructor].
Qed.

Lemma never_torn_mono segs segs' w :
  segs ⊆ segs' -> never_torn segs w -> never_torn segs' w.
Proof.
  intros Hsub [Hh Hr].
  assert (Hm : forall r, intact segs r -> intact segs' r).
  { intros r Hi. eapply Forall_impl; [exact Hi|].
    intros s [H|H]; [left|right]; auto. }
  split; [|auto]. eapply Forall_impl; [exact Hh|exact Hm].
Qed.

(** [ring_inv] looks at the states of the slots and at the firmware's
    position only. *)
Lemma ring_inv_ext h w w' :
  state <$> ring_buffer w' = state <$> ring_buffer w ->
  pru_pos w' = pru_pos w ->
  ring_inv h w -> ring_inv h w'.
Proof.
  intros Hst Hpos (Hlen & Hp & n & Hn & Hh & Hocc).
  split; [|split].
  - rewrite <- Hlen. f_equal.
    rewrite <- (length_fmap state (ring_buffer w')), Hst. apply length_fmap.
  - rewrite Hpos. assumption.
  - exists n. rewrite Hpos. split; [assumption|]. split; [assumption|].
    intros i s' Hi Hs'.
    assert (Hl : (state <$> ring_buffer w) !! Z.to_nat i = Some (state s')).
    { rewrite <- Hst, list_lookup_fmap, Hs'. reflexivity. }
    rewrite list_lookup_fmap in Hl.
    destruct (ring_buffer w !! Z.to_nat i) as [s0|] eqn:Hs0; [|discriminate].
    injection Hl as Hl. rewrite <- Hl. apply (Hocc i s0 Hi Hs0).
Qed.

Lemma copy_safe_ring_inv i h : copy_safe i (ring_inv h).
Proof.
  intros w f v s H Hi Hs Hse Hput.
  apply (ring_inv_ext h w); [|reflexivity|assumption].
  cbn. rewrite list_fmap_insert. apply list_insert_id.
  rewrite list_lookup_fmap, Hs. cbn. congruence.
Qed.

Lemma quiet_ring_inv h : quiet (ring_inv h).
Proof.
  apply quiet_intro; try (intros w ? H; exact H).
  intros w s _ Hs Hne (Hlen & Hp & n & Hn & Hh & Hocc).
  set (c := pru_pos w) in *.
  assert (HQ : 0 < QUEUE_LEN) by lia.
  assert (Hn1 : 1 <= n).
  { pose proof (proj1 (Hocc c s Hp Hs) Hne) as H.
    rewrite Z.sub_diag, Z.mod_0_l in H by lia. lia. }
  split; [|split].
  - cbn. rewrite length_insert. assumption.
  - cbn. apply Z.mod_pos_bound. assumption.
  - exists (n - 1). cbn. split; [lia|]. split.
    + rewrite Hh, Zplus_mod_idemp_l. f_equal. ring.
    + intros i s' Hi Hs'.
      destruct (Z.eq_dec i c) as [->|Hic].
      * rewrite list_lookup_insert_eq in Hs'
          by (eapply lookup_lt_Some; eassumption).
        injection Hs' as <-. cbn. rewrite dist_self_succ by assumption.
        split; [congruence|lia].
      * rewrite list_lookup_insert_ne in Hs'
          by (intros E; apply Hic; symmetry; apply Z2Nat.inj; lia).
        rewrite dist_succ by assumption.
        rewrite (Hocc i s' Hi Hs'). lia.
Qed.

(** The flip: an Empty slot at the host's position becomes occupied. *)
Lemma flip_ring_inv i s' w :
  0 <= i < QUEUE_LEN ->
  slot_empty i w -> state s' <> STATE_EMPTY ->
  ring_inv i w ->
  ring_inv (i + 1) (set_ring (<[Z.to_nat i := s']> (ring_buffer w)) w).
Proof.
  intros Hi (_ & s & Hs & Hse) Hne (Hlen & Hp & n & Hn & Hh & Hocc).
  set (c := pru_pos w) in *.
  assert (HQ : 0 < QUEUE_LEN) by lia.
  assert (Hd : (i - c) mod QUEUE_LEN = n mod QUEUE_LEN)
    by (apply dist_of_sum; assumption).
  assert (Hfree : ~ (i - c) mod QUEUE_LEN < n).
  { intros H. apply (Hocc i s Hi Hs) in H. contradiction. }
  assert (Hnlt : n < QUEUE_LEN).
  { destruct (Z.eq_dec n QUEUE_LEN) as [E|E]; [|lia].
    exfalso. apply Hfree. rewrite Hd, E, Z.mod_same by lia. lia. }
  rewrite (Z.mod_small n) in Hd by lia.
  split; [|split].
  - cbn. rewrite length_insert. assumption.
  - assumption.
  - exists (n + 1). cbn. fold c. split; [lia|]. split.
    + rewrite <- Zplus_mod_idemp_l, Hh, Zplus_mod_idemp_l. f_equal. ring.
    + intros j s'' Hj Hs''.
      destruct (Z.eq_dec j i) as [->|Hji].
      * rewrite list_lookup_insert_eq in Hs''
          by (eapply lookup_lt_Some; eassumption).
        injection Hs'' as <-. split; [lia|auto].
      * rewrite list_lookup_insert_ne in Hs''
          by (intros E; apply Hji; symmetry; apply Z2Nat.inj; lia).
        rewrite (Hocc j s'' Hj Hs'').
        assert ((j - c) mod QUEUE_LEN <> n).
        { intros E. apply Hji. apply (dist_inj QUEUE_LEN c j i); try assumption.
          congruence. }
        lia.
Qed.

(** When the slot behind the host's position is Empty, every slot is. *)
Lemma drained w :
  QUEUE_LEN < UINT_MAX_1 ->
  ring_inv (queue_pos_ w) w ->
  0 <= queue_pos_ w <= QUEUE_LEN ->
  (queue_pos_ w = 0 -> all_empty (ring_buffer w)) ->
  slot_empty (last_insert_position w) w ->
  all_empty (ring_buffer w).
Proof.
  intros Hmax (Hlen & Hp & n & Hn & Hh & Hocc) Hqp H0 (_ & s & Hs & Hse).
  destruct (Z.eq_dec (queue_pos_ w) 0) as [E|E]; [auto|].
  set (c := pru_pos w) in *. set (q := queue_pos_ w) in *.
  assert (HQ : 0 < QUEUE_LEN) by lia.
  unfold last_insert_position in Hs. fold q in Hs.
  rewrite (Z.mod_small (q - 1)) in Hs by lia.
  assert (Hl : 0 <= (q - 1) mod QUEUE_LEN < QUEUE_LEN)
    by (apply Z.mod_pos_bound; assumption).
  assert (Hd : ((q - 1) mod QUEUE_LEN - c) mod QUEUE_LEN = (n - 1) mod QUEUE_LEN).
  { apply dist_of_sum; [assumption|]. rewrite Z.mod_mod by lia.
    rewrite <- Zminus_mod_idemp_l, Hh, Zminus_mod_idemp_l. f_equal. ring. }
  assert (Hn0 : n = 0).
  { destruct (Z.eq_dec n 0) as [|Hn0]; [assumption|]. exfalso.
    assert (Hocc1 : ((q - 1) mod QUEUE_LEN - c) mod QUEUE_LEN < n)
      by (rewrite Hd, Z.mod_small by lia; lia).
    apply (Hocc _ s Hl Hs) in Hocc1. contradiction. }
  apply Forall_lookup. intros j x Hx.
  assert (Hj : 0 <= Z.of_nat j < QUEUE_LEN).
  { apply lookup_lt_Some in Hx. lia. }
  rewrite <- (Nat2Z.id j) in Hx.
  destruct (Z.eq_dec (state x) STATE_EMPTY) as [|Hne]; [assumption|].
  apply (Hocc _ x Hj Hx) in Hne.
  pose proof (Z.mod_pos_bound (Z.of_nat j - c) QUEUE_LEN HQ). lia.
Qed.

(** ** The freshly opened channel *)

Lemma iter_not_running n w :
  pru_running w = false -> Nat.iter n pru_consume w = w.
Proof.
  intros H. induction n as [|n IH]; [reflexivity|].
  change (Nat.iter (S n) pru_consume w)
    with (pru_consume (Nat.iter n pru_consume w)).
  rewrite IH. unfold pru_consume. rewrite H. reflexivity.
Qed.

Lemma opened_eq :
  opened =
  mkWorld fresh_ring 0 true disabled_level 0 true 1%nat
    [Gpio1Dataout disabled_level] [fresh_ring].
Proof.
  unfold opened, init_pru_motion_queue, bind, map_gpio, pru_motor_enable_nowait.
  unfold tick. rewrite iter_not_running by reflexivity. reflexivity.
Qed.

Lemma mark_all_empty_length r : length (mark_all_empty r) = length r.
Proof.
  unfold mark_all_empty. induction (Z.to_nat QUEUE_LEN) as [|n IH];
    [reflexivity|].
  rewrite seq_S, foldl_snoc, length_alter. exact IH.
Qed.

Lemma mark_all_empty_lookup r j s :
  (j < Z.to_nat QUEUE_LEN)%nat ->
  mark_all_empty r !! j = Some s -> state s = STATE_EMPTY.
Proof.
  unfold mark_all_empty. revert s.
  induction (Z.to_nat QUEUE_LEN) as [|n IH]; intros s Hj; [lia|].
  rewrite seq_S, foldl_snoc. cbn [Nat.add].
  destruct (decide (n = j)) as [->|Hne].
  - rewrite list_lookup_alter_eq.
    destruct (foldl _ r (seq 0 j) !! j); [|discriminate].
    intros [= <-]. reflexivity.
  - rewrite list_lookup_alter_ne by assumption. apply IH. lia.
Qed.

Lemma fresh_ring_length : length fresh_ring = Z.to_nat QUEUE_LEN.
Proof. unfold fresh_ring. rewrite mark_all_empty_length. apply length_replicate. Qed.

Lemma fresh_ring_all_empty : all_empty fresh_ring.
Proof.
  apply Forall_lookup. intros j s Hs.
  refine (mark_all_empty_lookup
            (replicate (Z.to_nat QUEUE_LEN) zero_segment) j s _ Hs).
  apply lookup_lt_Some in Hs. rewrite fresh_ring_length in Hs. assumption.
Qed.

Lemma all_empty_slot_empty i w :
  0 <= i -> (Z.to_nat i < length (ring_buffer w))%nat ->
  all_empty (ring_buffer w) -> slot_empty i w.
Proof.
  intros Hi Hl Ha. destruct (in_range_slot i w Hi Hl) as [s [_ Hs]].
  split; [assumption|]. exists s. split; [assumption|].
  unfold all_empty in Ha. rewrite Forall_lookup in Ha. eapply Ha. eassumption.
Qed.

(** ** The invariant of a session *)

Lemma copy_safe_and i P Q :
  copy_safe i P -> copy_safe i Q -> copy_safe i (fun w => P w /\ Q w).
Proof.
  intros HP HQ w f v s [H1 H2] Hi Hs Hse Hput. split; [apply HP|apply HQ]; assumption.
Qed.

Lemma copy_safe_private i (p : Z * bool * Z) :
  copy_safe i (fun w => (queue_pos_ w, gpio_mapped w, gpio_1_DATAOUT w) = p).
Proof. intros w f v s H _ _ _ _. exact H. Qed.

Lemma quiet_private (p : Z * bool * Z) :
  quiet (fun w => (queue_pos_ w, gpio_mapped w, gpio_1_DATAOUT w) = p).
Proof.
  split; intros w; [|cbn; auto..].
  intros H. rewrite consume_queue_pos.
  destruct (consume_gpio w) as [-> ->]. exact H.
Qed.

Lemma quiet_session_inv segs : quiet (session_inv segs).
Proof.
  split.
  - intros w (H1 & H2 & H3 & H4 & H5). unfold session_inv.
    rewrite consume_queue_pos. destruct (consume_gpio w) as [-> _].
    split; [apply (quiet_consume _ (quiet_ring_inv _)); assumption|].
    split; [assumption|].
    split; [intros E; apply (quiet_consume _ quiet_all_empty); auto|].
    split; [apply (quiet_consume _ (quiet_never_torn _)); assumption|assumption].
  - intros w c H. exact H.
  - intros w e H. exact H.
Qed.

Lemma session_inv_opened : 0 < QUEUE_LEN -> session_inv [] opened.
Proof.
  intros HQ. rewrite opened_eq. unfold session_inv. cbn.
  assert (Ha := fresh_ring_all_empty).
  split; [|split; [lia|split; [auto|split; [|reflexivity]]]].
  - split; [|split].
    + cbn. rewrite fresh_ring_length. lia.
    + cbn. lia.
    + exists 0. cbn. split; [lia|]. split; [reflexivity|].
      intros i s Hi Hs. unfold all_empty in Ha. rewrite Forall_lookup in Ha.
      pose proof (Ha _ _ Hs). pose proof (Z.mod_pos_bound (i - 0) QUEUE_LEN HQ).
      split; [contradiction|lia].
  - assert (Hi : intact [] fresh_ring).
    { eapply Forall_impl; [exact Ha|]. intros s Hs. left. exact Hs. }
    split; cbn; [repeat constructor|]; assumption.
Qed.

Lemma ring_inv_mod h w : ring_inv h w -> ring_inv (h mod QUEUE_LEN) w.
Proof.
  intros (H1 & H2 & n & Hn & Hh & Hocc). split; [assumption|]. split; [assumption|].
  exists n. split; [assumption|]. split; [|assumption].
  rewrite Z.mod_mod by lia. assumption.
Qed.

Lemma enqueue_session_inv segs fuel e w e' w' :
  0 < QUEUE_LEN < UINT_MAX_1 -> (forall f, f ∈ copy_order) ->
  session_inv segs w ->
  pru_enqueue_segment fuel e w = Returned e' w' ->
  session_inv (segs ++ [e]) w'.
Proof.
  intros HQ Hall (Hring & Hqp & H0 & Htorn & Hgpio) Hrun.
  destruct (enqueue_returned _ _ _ _ _ Hall Hrun)
    as (Hne & _ & w1 & w2 & d & Hwait & Hfree & _ & Hslot & HP & Hdump & _).
  set (i := queue_pos_ w mod QUEUE_LEN) in *.
  set (e0 := set_state STATE_EMPTY e) in *.
  set (segs' := segs ++ [e]).
  assert (Hi : 0 <= i < QUEUE_LEN) by (apply Z.mod_pos_bound; lia).
  assert (Hnext : (i + 1) mod UINT_MAX_1 = i + 1) by (apply Z.mod_small; lia).
  rewrite Hnext in HP.
  pose (P := fun w0 => (ring_inv i w0 /\ never_torn segs' w0) /\
                       (queue_pos_ w0, gpio_mapped w0, gpio_1_DATAOUT w0)
                       = (i + 1, true, gpio_1_DATAOUT w)).
  pose (P0 := fun w0 => (ring_inv i w0 /\ never_torn segs' w0) /\
                        (queue_pos_ w0, gpio_mapped w0, gpio_1_DATAOUT w0)
                        = (i, true, gpio_1_DATAOUT w)).
  assert (HP0 : P0 w1).
  { pose proof (quiet_wait_slot_empty P0 fuel i) as Hq.
    unfold preserves in Hq. specialize (Hq (quiet_and _ _
      (quiet_and _ _ (quiet_ring_inv i) (quiet_never_torn segs'))
      (quiet_private _)) (set_queue_pos i w)).
    rewrite Hwait in Hq. apply Hq. split; [split|].
    - apply ring_inv_mod in Hring. exact Hring.
    - apply (never_torn_mono segs); [|assumption].
      intros x Hx. apply elem_of_app. left. exact Hx.
    - cbn. rewrite Hgpio. reflexivity. }
  assert (HP2 : P (tick w2)).
  { apply HP.
    - apply quiet_and; [apply quiet_and|];
        [apply quiet_ring_inv|apply quiet_never_torn|apply quiet_private].
    - apply copy_safe_and; [apply copy_safe_and|];
        [apply copy_safe_ring_inv|apply copy_safe_never_torn|apply copy_safe_private].
    - destruct HP0 as [HA HB]. split; [exact HA|].
      cbn. injection HB as _ -> ->. reflexivity. }
  destruct HP2 as [[HR HT] HB].
  assert (H3 : session_inv segs'
                 (do_store i F_state (Word (state e)) e0 (tick w2))).
  { pose proof (f_equal (fun p => fst (fst p)) HB) as HB1.
    pose proof (f_equal (fun p => snd (fst p)) HB) as HB2.
    cbv beta in HB1, HB2. cbn [fst snd] in HB1, HB2.
    unfold session_inv. cbn [queue_pos_ do_store log set_ring gpio_mapped].
    rewrite HB1. split; [|split; [lia|split; [lia|split; [|assumption]]]].
    - apply (quiet_log _ (quiet_ring_inv (i + 1))).
      apply flip_ring_inv; try assumption.
      destruct Hslot as [Hi0 Hs]. split; [assumption|]. exists e0. auto.
    - apply flip_never_torn; [assumption|].
      apply elem_of_app. right. apply list_elem_of_singleton. reflexivity. }
  pose proof (quiet_DumpMotionSegment _ i (quiet_session_inv segs') _ H3) as Hq.
  rewrite Hdump in Hq. exact Hq.
Qed.

Lemma session_inv_holds segs w :
  0 < QUEUE_LEN < UINT_MAX_1 -> (forall f, f ∈ copy_order) ->
  session segs w -> session_inv segs w.
Proof.
  intros HQ Hall Hs. induction Hs as
    [|segs w fuel e e' w' Hs IH Hrun|segs w fuel w' Hs IH Hrun
     |segs w on w' Hs IH Hrun].
  - apply session_inv_opened. lia.
  - eapply enqueue_session_inv; eassumption.
  - pose proof (quiet_wait_slot_empty _ fuel (last_insert_position w)
                  (quiet_session_inv segs) w IH) as Hq.
    unfold pru_wait_queue_empty in Hrun. rewrite Hrun in Hq. exact Hq.
  - unfold pru_motor_enable_nowait in Hrun.
    pose proof (quiet_tick _ _ (quiet_session_inv segs) IH) as Ht.
    destruct (gpio_mapped (tick w)); [|discriminate].
    injection Hrun as <-.
    destruct Ht as (H1 & H2 & H3 & H4 & H5).
    split; [exact H1|]. split; [exact H2|]. split; [exact H3|].
    split; [exact H4|reflexivity].
Qed.

(** ** What one call of pru_enqueue_segment does *)

Lemma quiet_prefix h : quiet (fun w => h `prefix_of` history w).
Proof.
  split; intros w; [|cbn; auto..].
  intros H. destruct (consume_cases w) as [->|(s & _ & _ & _ & ->)]; [assumption|].
  cbn. apply prefix_app_r. exact H.
Qed.

Lemma quiet_copying i h0 : quiet (copying i h0).
Proof.
  apply quiet_intro; try (intros w ? H; exact H).
  intros w s Hr Hs Hne [Hfree (since & Hh & Hall)].
  pose proof (quiet_consume _ (quiet_slot_empty i) w Hfree) as Hfree'.
  unfold pru_consume in Hfree'. rewrite Hr, Hs in Hfree'.
  apply Z.eqb_neq in Hne. rewrite Hne in Hfree'.
  split; [exact Hfree'|].
  exists (since ++ [<[Z.to_nat (pru_pos w) := set_state STATE_EMPTY s]>
                      (ring_buffer w)]).
  cbn. rewrite Hh, <- app_assoc. split; [reflexivity|].
  apply Forall_app. split; [assumption|]. constructor; [|constructor].
  destruct Hfree' as (_ & x & Hx & Hxe). exists x. auto.
Qed.

Lemma copy_safe_copying i h0 : copy_safe i (copying i h0).
Proof.
  intros w f v s [Hfree (since & Hh & Hall)] Hi Hs Hse Hput.
  assert (Hl : (Z.to_nat i < length (ring_buffer w))%nat)
    by (eapply lookup_lt_Some; eassumption).
  assert (Hnew : empty_in i (<[Z.to_nat i := put_field f v s]> (ring_buffer w))).
  { exists (put_field f v s). split; [|assumption].
    apply list_lookup_insert_eq. assumption. }
  split.
  - split; [assumption|]. exact Hnew.
  - exists (since ++ [<[Z.to_nat i := put_field f v s]> (ring_buffer w)]).
    cbn. rewrite Hh, <- app_assoc. split; [reflexivity|].
    apply Forall_app. split; [assumption|]. constructor; [assumption|constructor].
Qed.

(** The cursor and the registers after a call. *)
Lemma enqueue_private fuel e w e' w' :
  (forall f, f ∈ copy_order) ->
  pru_enqueue_segment fuel e w = Returned e' w' ->
  queue_pos_ w' = (queue_pos_ w mod QUEUE_LEN + 1) mod UINT_MAX_1 /\
  gpio_mapped w' = gpio_mapped w /\
  gpio_1_DATAOUT w' = gpio_1_DATAOUT w.
Proof.
  intros Hall Hrun.
  destruct (enqueue_returned _ _ _ _ _ Hall Hrun)
    as (_ & _ & w1 & w2 & d & Hwait & _ & _ & _ & HP & Hdump & _).
  set (i := queue_pos_ w mod QUEUE_LEN) in *.
  pose proof (quiet_wait_slot_empty _ fuel i
                (quiet_private (i, gpio_mapped w, gpio_1_DATAOUT w))
                (set_queue_pos i w) eq_refl) as H1.
  rewrite Hwait in H1. cbn [world_of] in H1.
  assert (H2 : (queue_pos_ (tick w2), gpio_mapped (tick w2),
                gpio_1_DATAOUT (tick w2))
               = ((i + 1) mod UINT_MAX_1, gpio_mapped w, gpio_1_DATAOUT w)).
  { apply (HP _ (quiet_private _) (copy_safe_private i _)).
    cbn. congruence. }
  pose proof (quiet_DumpMotionSegment _ i (quiet_private _) _
                (H2 : (fun w0 => (queue_pos_ w0, gpio_mapped w0,
                                  gpio_1_DATAOUT w0) = _)
                        (do_store i F_state (Word (state e))
                           (set_state STATE_EMPTY e) (tick w2)))) as H3.
  rewrite Hdump in H3. cbn [world_of] in H3.
  split; [|split]; congruence.
Qed.

(** The host's operations during a call. *)
Lemma enqueue_log fuel e w e' w' :
  (forall f, f ∈ copy_order) ->
  pru_enqueue_segment fuel e w = Returned e' w' ->
  let i := queue_pos_ w mod QUEUE_LEN in
  exists k d,
    dump_of i d /\
    host_log w' =
      host_log w ++ waits k ++ copy_stores i (set_state STATE_EMPTY e)
        ++ [Store i F_state (Word (state e))] ++ d.
Proof.
  intros Hall Hrun i.
  destruct (enqueue_returned _ _ _ _ _ Hall Hrun)
    as (_ & _ & w1 & w2 & d & Hwait & _ & _ & _ & _ & _ & Hd & Hlog).
  fold i in Hwait, Hd, Hlog.
  destruct (wait_slot_empty_log fuel i (set_queue_pos i w)) as (k & _ & Hk).
  rewrite Hwait in Hk. cbn [world_of] in Hk.
  exists k, d. split; [assumption|].
  rewrite Hlog, Hk. cbn. rewrite <- !app_assoc. reflexivity.
Qed.

(** The contents of the ring buffer during a call: since the slot was
    acquired it stayed Empty, until one store showed the whole segment. *)
Lemma enqueue_history fuel e w e' w' :
  (forall f, f ∈ copy_order) ->
  pru_enqueue_segment fuel e w = Returned e' w' ->
  let i := queue_pos_ w mod QUEUE_LEN in
  exists h0 since r0 after,
    history w' = h0 ++ since ++ [<[Z.to_nat i := e]> r0] ++ after /\
    history w `prefix_of` h0 /\
    Forall (empty_in i) since /\
    r0 !! Z.to_nat i = Some (set_state STATE_EMPTY e).
Proof.
  intros Hall Hrun i.
  destruct (enqueue_returned _ _ _ _ _ Hall Hrun)
    as (_ & _ & w1 & w2 & d & Hwait & Hfree & _ & Hslot & HP & Hdump & _).
  fold i in Hwait, Hfree, Hslot, HP, Hdump.
  pose proof (quiet_wait_slot_empty _ fuel i (quiet_prefix (history w))
                (set_queue_pos i w) (reflexivity _)) as H1.
  rewrite Hwait in H1. cbn [world_of] in H1.
  assert (H2 : copying i (history w1) (tick w2)).
  { apply (HP _ (quiet_copying i _) (copy_safe_copying i _)).
    split; [exact Hfree|]. exists []. cbn. rewrite app_nil_r. auto. }
  destruct H2 as [_ (since & Hh & Hsince)].
  set (w3 := do_store i F_state (Word (state e)) (set_state STATE_EMPTY e)
               (tick w2)) in *.
  pose proof (quiet_DumpMotionSegment _ i (quiet_prefix (history w3)) w3
                (reflexivity _)) as H3.
  rewrite Hdump in H3. cbn [world_of] in H3. destruct H3 as [after Hafter].
  exists (history w1), since, (ring_buffer (tick w2)), after.
  split; [|split; [assumption|split; [assumption|apply Hslot]]].
  rewrite Hafter. unfold w3. cbn [history do_store log set_ring put_field].
  rewrite set_state_set_state, set_state_same, Hh, <- !app_assoc. reflexivity.
Qed.

(** ** C1 *)

(** C1.  For a segment passed to pru_enqueue_segment in a session: the
    assertion holds; the host's operations are the waits, then the stores of
    the struct assignment, which write the record with its state forced to
    Empty into the acquired slot, then exactly one more store, which sets
    that slot's state to the caller's value, then the dump; from the moment
    the slot was acquired it showed state Empty in every content of the ring
    buffer until the one store that showed the complete segment; and at no
    instant of the session did any slot have a state other than Empty unless
    it held, member for member, one of the segments passed to enqueue. *)
Theorem C1_write_then_flip segs fuel e w e' w' :
  0 < QUEUE_LEN < UINT_MAX_1 ->
  (forall f, f ∈ copy_order) ->
  session segs w ->
  pru_enqueue_segment fuel e w = Returned e' w' ->
  let i := queue_pos_ w mod QUEUE_LEN in
  state e <> STATE_EMPTY /\
  (exists k d,
     dump_of i d /\
     host_log w' =
       host_log w ++ waits k ++ copy_stores i (set_state STATE_EMPTY e)
         ++ [Store i F_state (Word (state e))] ++ d) /\
  (exists h0 since r0 after,
     history w' = h0 ++ since ++ [<[Z.to_nat i := e]> r0] ++ after /\
     history w `prefix_of` h0 /\
     Forall (empty_in i) since /\
     r0 !! Z.to_nat i = Some (set_state STATE_EMPTY e)) /\
  Forall (intact (segs ++ [e])) (history w').
Proof.
  intros HQ Hall Hs Hrun i.
  split; [exact (proj1 (enqueue_returned _ _ _ _ _ Hall Hrun))|].
  split; [exact (enqueue_log _ _ _ _ _ Hall Hrun)|].
  split; [exact (enqueue_history _ _ _ _ _ Hall Hrun)|].
  pose proof (session_inv_holds _ _ HQ Hall Hs) as Hinv.
  pose proof (enqueue_session_inv _ _ _ _ _ _ HQ Hall Hinv Hrun)
    as (_ & _ & _ & [Hh _] & _).
  exact Hh.
Qed.

(** ** C4 *)

Lemma wait_queue_empty_drains segs fuel w w' :
  0 < QUEUE_LEN < UINT_MAX_1 ->
  (forall f, f ∈ copy_order) ->
  session segs w ->
  pru_wait_queue_empty fuel w = Returned tt w' ->
  slot_empty (last_insert_position w) w' /\
  all_empty (ring_buffer w').
Proof.
  intros HQ Hall Hs Hrun.
  pose proof (session_inv_holds _ _ HQ Hall (session_wait _ _ _ _ Hs Hrun))
    as (Hring & Hqp & H0 & _ & _).
  unfold pru_wait_queue_empty in Hrun.
  pose proof (wait_slot_empty_returned _ _ _ _ Hrun) as Hfree.
  pose proof (quiet_wait_slot_empty _ fuel (last_insert_position w)
                (quiet_queue_pos (queue_pos_ w)) w eq_refl) as Hq.
  rewrite Hrun in Hq. cbn [world_of] in Hq.
  split; [exact Hfree|].
  apply drained; try assumption; [lia|].
  unfold last_insert_position in *. rewrite Hq. exact Hfree.
Qed.

(** C4.  In a session, when pru_wait_queue_empty returns, the slot filled
    last (at (queue_pos_ - 1) mod QUEUE_LEN) reads Empty and so does every
    other slot of the ring buffer: no segment enqueued before is left
    unconsumed.  (The firmware consumes the slots in order.) *)
Theorem C4_wait_queue_empty_drains segs fuel w w' :
  0 < QUEUE_LEN < UINT_MAX_1 ->
  (forall f, f ∈ copy_order) ->
  session segs w ->
  pru_wait_queue_empty fuel w = Returned tt w' ->
  slot_empty (last_insert_position w) w' /\
  all_empty (ring_buffer w').
Proof. apply wait_queue_empty_drains. Qed.

(** ** C3 *)

Lemma quiet_forall {X : Type} (P : X -> world -> Prop) :
  (forall x, quiet (P x)) -> quiet (fun w => forall x, P x w).
Proof.
  intros H. split.
  - intros w HP x. apply (quiet_consume _ (H x)). apply HP.
  - intros w c HP x. apply (quiet_clock _ (H x)). apply HP.
  - intros w e HP x. apply (quiet_log _ (H x)). apply HP.
Qed.

Lemma quiet_impl (C : Prop) P : quiet P -> quiet (fun w => C -> P w).
Proof.
  intros H. split.
  - intros w HP HC. apply (quiet_consume _ H). apply HP. exact HC.
  - intros w c HP HC. apply (quiet_clock _ H). apply HP. exact HC.
  - intros w e HP HC. apply (quiet_log _ H). apply HP. exact HC.
Qed.

Lemma copy_safe_slot_empty i j : copy_safe i (slot_empty j).
Proof.
  intros w f v s (Hj & x & Hx & Hxe) Hi Hs Hse Hput.
  split; [assumption|]. cbn.
  destruct (decide (Z.to_nat i = Z.to_nat j)) as [E|E].
  - exists (put_field f v s). split; [|assumption].
    rewrite <- E. apply list_lookup_insert_eq. eapply lookup_lt_Some; eassumption.
  - exists x. rewrite list_lookup_insert_ne by assumption. auto.
Qed.

Lemma quiet_free_from k : quiet (free_from k).
Proof.
  unfold free_from. apply quiet_forall. intros j. apply quiet_impl.
  apply quiet_slot_empty.
Qed.

Lemma copy_safe_free_from i k : copy_safe i (free_from k).
Proof.
  intros w f v s H Hi Hs Hse Hput j Hj.
  apply copy_safe_slot_empty; auto.
Qed.

Lemma do_store_other i j f v s w :
  0 <= i -> i <> j -> slot_empty j w -> slot_empty j (do_store i f v s w).
Proof.
  intros Hi Hne (Hj & x & Hx & Hxe). split; [assumption|]. exists x.
  split; [|assumption]. cbn. rewrite list_lookup_insert_ne; [assumption|].
  intros E. apply Hne. apply Z2Nat.inj; assumption.
Qed.

Lemma copy_stores_no_wait i e : Forall (fun ev => is_wait ev = false) (copy_stores i e).
Proof.
  unfold copy_stores. induction copy_order as [|f o IH]; cbn; constructor; auto.
Qed.

Lemma dump_no_wait i d : dump_of i d -> Forall (fun ev => is_wait ev = false) d.
Proof. intros [->|[c ->]]; repeat constructor. Qed.

Lemma enqueue_all_free fuel es w :
  0 < QUEUE_LEN < UINT_MAX_1 ->
  (forall f, f ∈ copy_order) ->
  Forall (fun e => state e <> STATE_EMPTY) es ->
  0 <= queue_pos_ w ->
  queue_pos_ w + Z.of_nat (length es) <= QUEUE_LEN ->
  free_from (queue_pos_ w) w ->
  exists w' l,
    enqueue_all fuel es w = Returned tt w' /\
    queue_pos_ w' = queue_pos_ w + Z.of_nat (length es) /\
    host_log w' = host_log w ++ l /\
    Forall (fun ev => is_wait ev = false) l.
Proof.
  intros HQ Hall Hes. revert w.
  induction Hes as [|e es Hne Hes IH]; intros w Hk Hlen Hfree.
  - exists w, []. cbn. rewrite Z.add_0_r, app_nil_r. auto.
  - cbn [length] in Hlen. set (k := queue_pos_ w) in *.
    assert (Hmod : k mod QUEUE_LEN = k) by (apply Z.mod_small; lia).
    assert (Hslot : slot_empty (queue_pos_ w mod QUEUE_LEN) w).
    { fold k. rewrite Hmod. apply Hfree. lia. }
    destruct (enqueue_free fuel e w Hne Hslot) as (e' & w1 & Hrun).
    destruct (enqueue_returned _ _ _ _ _ Hall Hrun)
      as (_ & _ & wa & w2 & d & Hwait & _ & _ & Hs2 & HP & Hdump & Hd & Hlog).
    fold k in Hwait, Hs2, HP, Hdump, Hd, Hlog, Hslot.
    rewrite Hmod in Hwait, Hs2, HP, Hdump, Hd, Hlog, Hslot.
    rewrite (wait_slot_empty_free fuel k (set_queue_pos k w) Hslot) in Hwait.
    injection Hwait as <-.
    rewrite (Z.mod_small (k + 1)) in HP by lia.
    pose (P := fun w0 => free_from (k + 1) w0 /\
                 (queue_pos_ w0, gpio_mapped w0, gpio_1_DATAOUT w0)
                 = (k + 1, gpio_mapped w, gpio_1_DATAOUT w)).
    assert (HQP : quiet P)
      by (apply quiet_and; [apply quiet_free_from|apply quiet_private]).
    assert (H2 : P (tick w2)).
    { apply HP; [exact HQP| |].
      - apply copy_safe_and; [apply copy_safe_free_from|apply copy_safe_private].
      - split.
        + intros j Hj.
          apply (quiet_tick _ (set_queue_pos k w) (quiet_slot_empty j)).
          apply Hfree. lia.
        + pose proof (tick_private (set_queue_pos k w)) as Hp.
          unfold private in Hp. cbn in Hp |- *. congruence. }
    assert (H3 : P (do_store k F_state (Word (state e))
                      (set_state STATE_EMPTY e) (tick w2))).
    { destruct H2 as [Hf Hp]. split; [|exact Hp].
      intros j Hj. apply do_store_other; [lia|lia|]. apply Hf. exact Hj. }
    pose proof (quiet_DumpMotionSegment _ k HQP _ H3) as H4.
    rewrite Hdump in H4. cbn [world_of] in H4. destruct H4 as [Hf1 Hp1].
    assert (Hq1 : queue_pos_ w1 = k + 1) by congruence.
    destruct (IH w1) as (w' & l & Hrun' & Hqp' & Hlog' & Hl).
    { lia. } { rewrite Hq1. lia. } { rewrite Hq1. exact Hf1. }
    exists w', (copy_stores k (set_state STATE_EMPTY e)
                ++ [Store k F_state (Word (state e))] ++ d ++ l).
    split; [|split; [|split]].
    + cbn [enqueue_all]. rewrite (bind_eq_returned _ _ _ _ _ Hrun). exact Hrun'.
    + rewrite Hqp', Hq1. cbn [length]. lia.
    + rewrite Hlog', Hlog, tick_host_log. cbn. rewrite <- !app_assoc. reflexivity.
    + apply Forall_app. split; [apply copy_stores_no_wait|].
      constructor; [reflexivity|]. apply Forall_app. split; [|assumption].
      eapply dump_no_wait. eassumption.
Qed.

Lemma opened_free : 0 < QUEUE_LEN -> free_from 0 opened.
Proof.
  intros HQ j Hj. apply all_empty_slot_empty; [lia| |].
  - rewrite opened_eq. cbn. rewrite fresh_ring_length. lia.
  - rewrite opened_eq. apply fresh_ring_all_empty.
Qed.

(** C3.  The freshly opened channel has QUEUE_LEN slots, all Empty, and
    the cursor at 0; from it, any sequence of at most QUEUE_LEN calls of
    pru_enqueue_segment returns without a single pass through the body of
    the wait loop, whatever the consumer does meanwhile (and so also when it
    marks no slot Empty), and whatever bound on the waiting is allowed: each
    call finds its slot Empty. *)
Theorem C3_no_wait_while_room fuel es :
  0 < QUEUE_LEN < UINT_MAX_1 ->
  (forall f, f ∈ copy_order) ->
  Forall (fun e => state e <> STATE_EMPTY) es ->
  Z.of_nat (length es) <= QUEUE_LEN ->
  Z.of_nat (length (ring_buffer opened)) = QUEUE_LEN /\
  all_empty (ring_buffer opened) /\
  queue_pos_ opened = 0 /\
  exists w',
    enqueue_all fuel es opened = Returned tt w' /\
    (WaitEvent ∉ host_log w') /\
    queue_pos_ w' = Z.of_nat (length es).
Proof.
  intros HQ Hall Hes Hlen.
  assert (Hq0 : queue_pos_ opened = 0) by (rewrite opened_eq; reflexivity).
  split; [rewrite opened_eq; cbn; rewrite fresh_ring_length; lia|].
  split; [rewrite opened_eq; apply fresh_ring_all_empty|].
  split; [exact Hq0|].
  destruct (enqueue_all_free fuel es opened HQ Hall Hes)
    as (w' & l & Hrun & Hqp & Hlog & Hl).
  { lia. } { lia. } { rewrite Hq0. apply opened_free. lia. }
  exists w'. split; [exact Hrun|]. split; [|lia].
  rewrite Hlog, opened_eq. cbn [host_log]. intros Hin.
  apply elem_of_cons in Hin as [Hin|Hin]; [discriminate Hin|].
  rewrite Forall_forall in Hl. specialize (Hl _ Hin). discriminate Hl.
Qed.

(** ** C10 *)

Lemma wait_queue_empty_opened fuel :
  0 < QUEUE_LEN ->
  slot_empty (last_insert_position opened) opened /\
  pru_wait_queue_empty fuel opened = Returned tt (tick opened).
Proof.
  intros HQ.
  assert (Hs : slot_empty (last_insert_position opened) opened).
  { apply opened_free; [assumption|]. unfold last_insert_position.
    apply Z.mod_pos_bound. assumption. }
  split; [exact Hs|]. unfold pru_wait_queue_empty.
  apply wait_slot_empty_free. exact Hs.
Qed.

(** C10.  On the freshly opened channel, before any enqueue,
    pru_wait_queue_empty does not wait: when QUEUE_LEN divides 2^32 the
    unsigned (queue_pos_ - 1) % QUEUE_LEN is QUEUE_LEN - 1, that slot is
    Empty after the initialisation, and the call returns after the first
    read of its state, with no wait logged. *)
Theorem C10_wait_on_fresh_channel fuel :
  0 < QUEUE_LEN ->
  (QUEUE_LEN | UINT_MAX_1) ->
  queue_pos_ opened = 0 /\
  last_insert_position opened = QUEUE_LEN - 1 /\
  slot_empty (QUEUE_LEN - 1) opened /\
  pru_wait_queue_empty fuel opened = Returned tt (tick opened) /\
  host_log (tick opened) = host_log opened.
Proof.
  intros HQ Hdiv.
  assert (Hlast : last_insert_position opened = QUEUE_LEN - 1).
  { unfold last_insert_position. rewrite opened_eq. cbn [queue_pos_].
    apply wrap_pred; assumption. }
  destruct (wait_queue_empty_opened fuel HQ) as [Hs Hrun].
  rewrite Hlast in Hs.
  split; [rewrite opened_eq; reflexivity|].
  split; [exact Hlast|]. split; [exact Hs|]. split; [exact Hrun|].
  apply tick_host_log.
Qed.

(** ** C5 *)

Lemma never_aborts_bind {A B : Type} (m : M A) (k : A -> M B) :
  never_aborts m -> (forall a, never_aborts (k a)) -> never_aborts (bind m k).
Proof.
  intros Hm Hk w w'. unfold bind. specialize (Hm w).
  destruct (m w) as [a w1|w1|w1|w1]; try discriminate.
  - apply Hk.
  - exfalso. apply (Hm w1). reflexivity.
Qed.

Lemma never_aborts_store i f v : never_aborts (store i f v).
Proof.
  intros w w'. unfold store.
  destruct (ring_buffer (tick w) !! Z.to_nat i); [destruct (0 <=? i)|];
    discriminate.
Qed.

Lemma never_aborts_read_slot i : never_aborts (read_slot i).
Proof.
  intros w w'. unfold read_slot.
  destruct (ring_buffer (tick w) !! Z.to_nat i); [destruct (0 <=? i)|];
    discriminate.
Qed.

Lemma never_aborts_copy_struct order i e : never_aborts (copy_struct order i e).
Proof.
  induction order as [|f order IH]; cbn [copy_struct].
  - intros w w'. discriminate.
  - apply never_aborts_bind; [apply never_aborts_store|]. intros _. exact IH.
Qed.

Lemma never_aborts_DumpMotionSegment i : never_aborts (DumpMotionSegment i).
Proof.
  unfold DumpMotionSegment, read_state.
  apply never_aborts_bind.
  - apply never_aborts_bind; [apply never_aborts_read_slot|].
    intros s w w'. discriminate.
  - intros s. destruct (s =? STATE_EXIT).
    + intros w w'. discriminate.
    + apply never_aborts_bind; [apply never_aborts_read_slot|].
      intros c w w'. discriminate.
Qed.

Lemma never_aborts_next_queue_element fuel : never_aborts (next_queue_element fuel).
Proof.
  intros w w'. unfold next_queue_element.
  apply never_aborts_bind.
  - intros w0 w0'. apply wait_slot_empty_no_abort.
  - intros _ w0 w0'. discriminate.
Qed.

(** C5.  pru_enqueue_segment ends in the failed assertion exactly when the
    caller's segment has the state Empty, and then before anything was
    touched; for a segment with any other state the assertion holds and the
    call goes on to acquire a slot. *)
Theorem C5_assert_iff_empty fuel e w :
  ((exists w', pru_enqueue_segment fuel e w = AssertFailed w') <->
   state e = STATE_EMPTY) /\
  (state e = STATE_EMPTY -> pru_enqueue_segment fuel e w = AssertFailed w) /\
  (state e <> STATE_EMPTY ->
   pru_enqueue_segment fuel e w =
     (queue_element <- next_queue_element fuel ;;
      copy_struct copy_order queue_element (set_state STATE_EMPTY e) ;;;
      store queue_element F_state (Word (state e)) ;;;
      DumpMotionSegment queue_element ;;;
      ret (set_state STATE_EMPTY e)) w).
Proof.
  assert (Hyes : state e = STATE_EMPTY ->
                 pru_enqueue_segment fuel e w = AssertFailed w).
  { intros H. unfold pru_enqueue_segment. apply Z.eqb_eq in H. rewrite H.
    reflexivity. }
  assert (Hno : state e <> STATE_EMPTY ->
                pru_enqueue_segment fuel e w =
                (queue_element <- next_queue_element fuel ;;
                 copy_struct copy_order queue_element (set_state STATE_EMPTY e) ;;;
                 store queue_element F_state (Word (state e)) ;;;
                 DumpMotionSegment queue_element ;;;
                 ret (set_state STATE_EMPTY e)) w).
  { intros H. unfold pru_enqueue_segment. apply Z.eqb_neq in H. rewrite H.
    reflexivity. }
  split; [|split; assumption].
  split.
  - intros [w' Hw']. destruct (Z.eq_dec (state e) STATE_EMPTY) as [|Hne];
      [assumption|]. exfalso. rewrite (Hno Hne) in Hw'. revert Hw'.
    apply never_aborts_bind; [apply never_aborts_next_queue_element|].
    intros qe. apply never_aborts_bind; [apply never_aborts_copy_struct|].
    intros _. apply never_aborts_bind; [apply never_aborts_store|].
    intros _. apply never_aborts_bind; [apply never_aborts_DumpMotionSegment|].
    intros _ w0 w0'. discriminate.
  - intros H. exists w. apply Hyes. exact H.
Qed.

(** ** C9 *)

(** C9.  pru_enqueue_segment writes to the caller's segment: when the call
    returns, the caller's segment has the state Empty, which is not the
    state it was passed with, and every other member is as it was. *)
Theorem C9_caller_segment_left_empty fuel e w e' w' :
  pru_enqueue_segment fuel e w = Returned e' w' ->
  e' = set_state STATE_EMPTY e /\
  state e' = STATE_EMPTY /\
  state e' <> state e /\
  forall f, f <> F_state -> get_field f e' = get_field f e.
Proof.
  intros Hrun. unfold pru_enqueue_segment in Hrun.
  destruct (state e =? STATE_EMPTY) eqn:Hne; [discriminate|].
  apply Z.eqb_neq in Hne.
  apply bind_returned in Hrun as (qe & w1 & _ & Hrun).
  apply bind_returned in Hrun as (? & w2 & _ & Hrun).
  apply bind_returned in Hrun as (? & w3 & _ & Hrun).
  apply bind_returned in Hrun as (? & w4 & _ & Hrun).
  injection Hrun as <- <-.
  split; [reflexivity|]. split; [reflexivity|]. split.
  - cbn. congruence.
  - intros f Hf. destruct f; try reflexivity. contradiction.
Qed.

(** ** C7 and C8 *)

Lemma motor_enable_returns on w :
  gpio_mapped w = true ->
  pru_motor_enable_nowait on w =
    Returned tt
      (log (Gpio1Dataout (if on =? 0 then disabled_level else 0))
         (set_gpio true (if on =? 0 then disabled_level else 0) (tick w))).
Proof.
  intros H. unfold pru_motor_enable_nowait. rewrite tick_gpio_mapped, H.
  reflexivity.
Qed.

Lemma disabled_level_bits k :
  0 <= MOTOR_ENABLE_GPIO1_BIT < 32 ->
  Z.testbit disabled_level k = (k =? MOTOR_ENABLE_GPIO1_BIT).
Proof.
  intros Hb. unfold disabled_level, UINT_MAX_1.
  rewrite Z.shiftl_1_l, Z.mod_small
    by (split; [apply Z.pow_nonneg; lia|apply Z.pow_lt_mono_r; lia]).
  destruct (Z.eqb_spec k MOTOR_ENABLE_GPIO1_BIT) as [->|Hne].
  - apply Z.pow2_bits_true. lia.
  - apply Z.pow2_bits_false. congruence.
Qed.

(** C7.  The enable line is inverted: pru_motor_enable_nowait with a true
    (non-zero) argument leaves the enable bit of the GPIO-1 data-out
    register at 0, and with a false (zero) argument leaves it at 1. *)
Theorem C7_enable_is_active_low on w :
  gpio_mapped w = true ->
  0 <= MOTOR_ENABLE_GPIO1_BIT < 32 ->
  exists w',
    pru_motor_enable_nowait on w = Returned tt w' /\
    (on <> 0 ->
     Z.testbit (gpio_1_DATAOUT w') MOTOR_ENABLE_GPIO1_BIT = false) /\
    (on = 0 ->
     Z.testbit (gpio_1_DATAOUT w') MOTOR_ENABLE_GPIO1_BIT = true).
Proof.
  intros Hm Hb. eexists. split; [apply motor_enable_returns; exact Hm|].
  cbn [gpio_1_DATAOUT log set_gpio]. split.
  - intros Hon. apply Z.eqb_neq in Hon. rewrite Hon. apply Z.bits_0.
  - intros ->. cbn [Z.eqb]. rewrite disabled_level_bits by assumption.
    apply Z.eqb_refl.
Qed.

(** C8.  Either way pru_motor_enable_nowait assigns the whole GPIO-1
    data-out register: whatever it held before, after the call every bit
    other than the enable bit is 0. *)
Theorem C8_enable_overwrites_register on w :
  gpio_mapped w = true ->
  0 <= MOTOR_ENABLE_GPIO1_BIT < 32 ->
  exists w',
    pru_motor_enable_nowait on w = Returned tt w' /\
    forall k, k <> MOTOR_ENABLE_GPIO1_BIT ->
              Z.testbit (gpio_1_DATAOUT w') k = false.
Proof.
  intros Hm Hb. eexists. split; [apply motor_enable_returns; exact Hm|].
  cbn [gpio_1_DATAOUT log set_gpio]. intros k Hk.
  destruct (on =? 0).
  - rewrite disabled_level_bits by assumption. apply Z.eqb_neq. exact Hk.
  - apply Z.bits_0.
Qed.

(** ** C6 *)

Lemma quiet_halted : quiet (fun w => pru_running w = false).
Proof.
  apply quiet_intro; try (intros w ? H; exact H).
  intros w s Hr _ _ H. congruence.
Qed.

Lemma filter_flip_waits k : List.filter is_flip (waits k) = [].
Proof. induction k as [|k IH]; [reflexivity|]. rewrite waits_S. exact IH. Qed.

Lemma filter_flip_copy_stores i e :
  state e = STATE_EMPTY -> List.filter is_flip (copy_stores i e) = [].
Proof.
  intros He. unfold copy_stores.
  induction copy_order as [|f o IH]; [reflexivity|].
  cbn [map List.filter]. rewrite IH.
  destruct f; cbn; try reflexivity.
  rewrite He, Z.eqb_refl. reflexivity.
Qed.

Lemma filter_flip_dump i d : dump_of i d -> List.filter is_flip d = [].
Proof. intros [->|[c ->]]; reflexivity. Qed.

(** C6.  pru_shutdown with a true (non-zero) flush_queue, in a session:
    it enqueues the Exit sentinel, then waits in pru_wait_queue_empty, at
    whose return every slot of the ring buffer is Empty, and only then
    disables the PRU program, releases the driver, switches the motors off
    and unmaps the registers, in this order.  Of all the host's operations
    of the call, exactly one store makes a slot visible to the firmware: the
    one that sets the sentinel's state to Exit; nothing is enqueued after
    it. *)
Theorem C6_shutdown_flush segs fuel flush_queue w w' :
  0 < QUEUE_LEN < UINT_MAX_1 ->
  (forall f, f ∈ copy_order) ->
  session segs w ->
  flush_queue <> 0 ->
  pru_shutdown fuel flush_queue w = Returned tt w' ->
  let i := queue_pos_ w mod QUEUE_LEN in
  exists e' w1 w2 k1 d k2 new,
    pru_enqueue_segment fuel end_element w = Returned e' w1 /\
    pru_wait_queue_empty fuel w1 = Returned tt w2 /\
    all_empty (ring_buffer w2) /\
    dump_of i d /\
    host_log w2 =
      host_log w ++ waits k1
        ++ copy_stores i (set_state STATE_EMPTY end_element)
        ++ [Store i F_state (Word STATE_EXIT)] ++ d ++ waits k2 /\
    host_log w' =
      host_log w2 ++ [PruDisable; PruExit; Gpio1Dataout disabled_level;
                      UnmapGpio] /\
    host_log w' = host_log w ++ new /\
    List.filter is_flip new = [Store i F_state (Word STATE_EXIT)] /\
    pru_running w' = false /\
    gpio_1_DATAOUT w' = disabled_level /\
    gpio_mapped w' = false.
Proof.
  intros HQ Hall Hs Hflush Hrun i. unfold pru_shutdown in Hrun.
  apply Z.eqb_neq in Hflush. rewrite Hflush in Hrun. fold end_element in Hrun.
  apply bind_returned in Hrun as ([] & w2 & Hfl & Hrun).
  apply bind_returned in Hfl as (e' & w1 & Henq & Hwait).
  apply bind_returned in Hrun as ([] & wa & Hdis & Hrun).
  apply bind_returned in Hrun as ([] & wb & Hexit & Hrun).
  apply bind_returned in Hrun as ([] & wc & Hmot & Hrun).
  pose proof (wait_queue_empty_drains _ _ _ _ HQ Hall
                (session_enqueue _ _ _ _ _ _ Hs Henq) Hwait) as [_ Hdrained].
  destruct (enqueue_log _ _ _ _ _ Hall Henq) as (k1 & d & Hd & Hlog1).
  fold i in Hd, Hlog1.
  pose proof (proj1 (enqueue_returned _ _ _ _ _ Hall Henq)) as Hne.
  change (state end_element) with STATE_EXIT in Hne, Hlog1.
  destruct (wait_slot_empty_log fuel (last_insert_position w1) w1)
    as (k2 & _ & Hlog2).
  unfold pru_wait_queue_empty in Hwait. rewrite Hwait in Hlog2.
  cbn [world_of] in Hlog2.
  unfold prussdrv_pru_disable in Hdis. injection Hdis as Hdis.
  assert (La : host_log wa = host_log w2 ++ [PruDisable])
    by (rewrite <- Hdis; cbn [host_log log set_pru];
        rewrite tick_host_log; reflexivity).
  assert (Ra : pru_running wa = false) by (rewrite <- Hdis; reflexivity).
  unfold prussdrv_exit, call in Hexit. injection Hexit as Hexit.
  assert (Lb : host_log wb = host_log wa ++ [PruExit])
    by (rewrite <- Hexit; cbn [host_log log];
        rewrite tick_host_log; reflexivity).
  assert (Rb : pru_running wb = false)
    by (rewrite <- Hexit; cbn [pru_running log];
        apply (quiet_tick _ _ quiet_halted); exact Ra).
  unfold pru_motor_enable_nowait in Hmot.
  destruct (gpio_mapped (tick wb)); [|discriminate].
  injection Hmot as Hmot. change (0 =? 0) with true in Hmot.
  fold disabled_level in Hmot.
  assert (Lc : host_log wc = host_log wb ++ [Gpio1Dataout disabled_level])
    by (rewrite <- Hmot; cbn [host_log log set_gpio];
        rewrite tick_host_log; reflexivity).
  assert (Rc : pru_running wc = false)
    by (rewrite <- Hmot; cbn [pru_running log set_gpio];
        apply (quiet_tick _ _ quiet_halted); exact Rb).
  assert (Gc : gpio_1_DATAOUT wc = disabled_level)
    by (rewrite <- Hmot; reflexivity).
  unfold unmap_gpio in Hrun. injection Hrun as Hrun.
  assert (L' : host_log w' = host_log wc ++ [UnmapGpio])
    by (rewrite <- Hrun; cbn [host_log log set_gpio];
        rewrite tick_host_log; reflexivity).
  assert (R' : pru_running w' = false)
    by (rewrite <- Hrun; cbn [pru_running log set_gpio];
        apply (quiet_tick _ _ quiet_halted); exact Rc).
  assert (G' : gpio_1_DATAOUT w' = disabled_level)
    by (transitivity (gpio_1_DATAOUT (tick wc));
        [rewrite <- Hrun; reflexivity
        |rewrite tick_gpio_1_DATAOUT; exact Gc]).
  assert (M' : gpio_mapped w' = false) by (rewrite <- Hrun; reflexivity).
  assert (Hw2 : host_log w2 =
                host_log w ++ waits k1
                  ++ copy_stores i (set_state STATE_EMPTY end_element)
                  ++ [Store i F_state (Word STATE_EXIT)] ++ d ++ waits k2).
  { rewrite Hlog2, Hlog1. rewrite <- !app_assoc. reflexivity. }
  assert (Hw' : host_log w' =
                host_log w2 ++ [PruDisable; PruExit;
                                Gpio1Dataout disabled_level; UnmapGpio]).
  { rewrite L', Lc, Lb, La, <- !app_assoc. reflexivity. }
  exists e', w1, w2, k1, d, k2.
  eexists. split; [exact Henq|]. split; [exact Hwait|].
  split; [exact Hdrained|]. split; [exact Hd|]. split; [exact Hw2|].
  split; [exact Hw'|].
  split; [rewrite Hw', Hw2, <- !app_assoc; reflexivity|].
  split; [|split; [|split]]; try assumption.
  rewrite !List.filter_app, filter_flip_waits, filter_flip_waits,
    (filter_flip_copy_stores i (set_state STATE_EMPTY end_element) eq_refl),
    (filter_flip_dump i d Hd).
  cbn. apply Z.eqb_neq in Hne. rewrite Hne. reflexivity.
Qed.

(** ** The cursor *)

(** A call that returns has filled the slot at queue_pos_ mod QUEUE_LEN and
    moved the cursor one past it. *)
Lemma enqueue_fills fuel e w e' w' :
  0 < QUEUE_LEN < UINT_MAX_1 ->
  (forall f, f ∈ copy_order) ->
  pru_enqueue_segment fuel e w = Returned e' w' ->
  let i := queue_pos_ w mod QUEUE_LEN in
  0 <= i < QUEUE_LEN /\
  queue_pos_ w' = i + 1 /\
  queue_pos_ w' mod QUEUE_LEN = (queue_pos_ w + 1) mod QUEUE_LEN /\
  (exists k d,
     host_log w' =
       host_log w ++ waits k ++ copy_stores i (set_state STATE_EMPTY e)
         ++ [Store i F_state (Word (state e))] ++ d /\
     List.filter is_store d = []) /\
  (exists r, r ∈ history w' /\ r !! Z.to_nat i = Some e).
Proof.
  intros HQ Hall Hrun i.
  assert (Hi : 0 <= i < QUEUE_LEN) by (apply Z.mod_pos_bound; lia).
  destruct (enqueue_private _ _ _ _ _ Hall Hrun) as (Hqp & _ & _).
  fold i in Hqp. rewrite Z.mod_small in Hqp by lia.
  split; [exact Hi|]. split; [exact Hqp|]. split.
  { rewrite Hqp. unfold i. rewrite Zplus_mod_idemp_l. reflexivity. }
  split.
  { destruct (enqueue_log _ _ _ _ _ Hall Hrun) as (k & d & Hd & Hlog).
    exists k, d. split; [exact Hlog|]. destruct Hd as [->|[c ->]]; reflexivity. }
  destruct (enqueue_history _ _ _ _ _ Hall Hrun)
    as (h0 & since & r0 & after & Hh & Hpre & Hsince & Hr0).
  fold i in Hh, Hsince, Hr0.
  exists (<[Z.to_nat i := e]> r0). split.
  - rewrite Hh. apply elem_of_app. right. apply elem_of_app. right.
    apply elem_of_cons. left. reflexivity.
  - apply list_lookup_insert_eq. eapply lookup_lt_Some. eassumption.
Qed.

(** ** Only the wait for the slot can block *)

Lemma never_blocks_bind {A B : Type} (m : M A) (k : A -> M B) :
  never_blocks m -> (forall a, never_blocks (k a)) -> never_blocks (bind m k).
Proof.
  intros Hm Hk w w'. unfold bind. specialize (Hm w).
  destruct (m w) as [a w1|w1|w1|w1]; try discriminate.
  - apply Hk.
  - exfalso. apply (Hm w1). reflexivity.
Qed.

Lemma never_blocks_store i f v : never_blocks (store i f v).
Proof.
  intros w w'. unfold store.
  destruct (ring_buffer (tick w) !! Z.to_nat i); [destruct (0 <=? i)|];
    discriminate.
Qed.

Lemma never_blocks_read_slot i : never_blocks (read_slot i).
Proof.
  intros w w'. unfold read_slot.
  destruct (ring_buffer (tick w) !! Z.to_nat i); [destruct (0 <=? i)|];
    discriminate.
Qed.

Lemma never_blocks_copy_struct order i e : never_blocks (copy_struct order i e).
Proof.
  induction order as [|f order IH]; cbn [copy_struct].
  - intros w w'. discriminate.
  - apply never_blocks_bind; [apply never_blocks_store|]. intros _. exact IH.
Qed.

Lemma never_blocks_DumpMotionSegment i : never_blocks (DumpMotionSegment i).
Proof.
  unfold DumpMotionSegment, read_state.
  apply never_blocks_bind.
  - apply never_blocks_bind; [apply never_blocks_read_slot|].
    intros s w w'. discriminate.
  - intros s. destruct (s =? STATE_EXIT).
    + intros w w'. discriminate.
    + apply never_blocks_bind; [apply never_blocks_read_slot|].
      intros c w w'. discriminate.
Qed.

(** A call that is still waiting has found its slot occupied at every read,
    has not moved the cursor past it and has written nothing. *)
Lemma enqueue_blocked fuel e w wb :
  pru_enqueue_segment fuel e w = Blocked wb ->
  let i := queue_pos_ w mod QUEUE_LEN in
  (exists s, slot_is i s wb /\ state s <> STATE_EMPTY) /\
  queue_pos_ wb = i /\
  exists k, host_log wb = host_log w ++ waits k.
Proof.
  intros Hrun i. unfold pru_enqueue_segment in Hrun.
  destruct (state e =? STATE_EMPTY); [discriminate Hrun|].
  unfold bind at 1 in Hrun.
  destruct (next_queue_element fuel w) as [qe w1|w1|w1|w1] eqn:Hn;
    try discriminate Hrun.
  - exfalso. revert Hrun.
    apply never_blocks_bind; [apply never_blocks_copy_struct|].
    intros _. apply never_blocks_bind; [apply never_blocks_store|].
    intros _. apply never_blocks_bind; [apply never_blocks_DumpMotionSegment|].
    intros _ w0 w0'. discriminate.
  - injection Hrun as <-. unfold next_queue_element, bind in Hn.
    cbn [queue_pos_ set_queue_pos] in Hn. fold i in Hn.
    destruct (wait_slot_empty fuel i (set_queue_pos i w))
      as [[] w2|w2|w2|w2] eqn:Hw; try discriminate Hn.
    injection Hn as <-.
    split; [exact (wait_slot_empty_blocked _ _ _ _ Hw)|].
    pose proof (quiet_wait_slot_empty _ fuel i (quiet_queue_pos i)
                  (set_queue_pos i w) eq_refl) as Hq.
    destruct (wait_slot_empty_log fuel i (set_queue_pos i w)) as (k & _ & Hk).
    rewrite Hw in Hq, Hk. split; [exact Hq|]. exists k. exact Hk.
Qed.

(** ** Enough fuel *)

Lemma wait_slot_empty_more_fuel fuel fuel' i w w' :
  (fuel <= fuel')%nat ->
  wait_slot_empty fuel i w = Returned tt w' ->
  wait_slot_empty fuel' i w = Returned tt w'.
Proof.
  revert fuel' w. induction fuel as [|fuel IH]; intros fuel' w Hle.
  - destruct fuel' as [|fuel']; [auto|]. cbn.
    destruct (read_state_cases i w) as [(s & Hs & Hr)|Hr].
    + rewrite !(bind_eq_returned _ _ _ _ _ Hr).
      destruct (state s =? STATE_EMPTY); intros H; [exact H|discriminate H].
    + unfold bind at 1. rewrite Hr. intros H. discriminate H.
  - destruct fuel' as [|fuel']; [lia|]. cbn.
    destruct (read_state_cases i w) as [(s & Hs & Hr)|Hr].
    + rewrite !(bind_eq_returned _ _ _ _ _ Hr).
      destruct (state s =? STATE_EMPTY); [auto|].
      unfold bind, prussdrv_pru_wait_event, prussdrv_pru_clear_event, call.
      apply IH. lia.
    + unfold bind at 1. rewrite Hr. intros H. discriminate H.
Qed.

Lemma enqueue_more_fuel fuel fuel' e w e' w' :
  (fuel <= fuel')%nat ->
  pru_enqueue_segment fuel e w = Returned e' w' ->
  pru_enqueue_segment fuel' e w = Returned e' w'.
Proof.
  intros Hle. unfold pru_enqueue_segment.
  destruct (state e =? STATE_EMPTY); [discriminate|].
  intros H. apply bind_returned in H as (qe & w1 & Hnext & H).
  assert (Hnext' : next_queue_element fuel' w = Returned qe w1).
  { unfold next_queue_element in *.
    apply bind_returned in Hnext as ([] & w0 & Hwait & Hnext).
    rewrite (bind_eq_returned _ _ _ _ _
               (wait_slot_empty_more_fuel _ _ _ _ _ Hle Hwait)).
    exact Hnext. }
  rewrite (bind_eq_returned _ _ _ _ _ Hnext'). exact H.
Qed.

(** ** An idle consumer *)

Lemma idle_tick w :
  (forall t, sched t = 0%nat) -> tick w = set_clock (S (clock w)) w.
Proof. intros H. unfold tick. rewrite H. reflexivity. Qed.

Lemma wait_blocked_while_idle fuel i s w :
  (forall t, sched t = 0%nat) ->
  slot_is i s w -> state s <> STATE_EMPTY ->
  exists w',
    wait_slot_empty fuel i w = Blocked w' /\
    ring_buffer w' = ring_buffer w /\
    queue_pos_ w' = queue_pos_ w /\
    List.filter is_store (host_log w') = List.filter is_store (host_log w).
Proof.
  intros Hidle Hs Hne. revert w Hs.
  induction fuel as [|fuel IH]; intros w Hs.
  - assert (Ht : slot_is i s (tick w)) by (rewrite idle_tick; assumption).
    cbn. rewrite (bind_eq_returned _ _ _ _ _ (read_state_slot_is i s w Ht)).
    apply Z.eqb_neq in Hne. rewrite Hne.
    exists (tick w). rewrite idle_tick by assumption. auto.
  - assert (Ht : slot_is i s (tick w)) by (rewrite idle_tick; assumption).
    cbn. rewrite (bind_eq_returned _ _ _ _ _ (read_state_slot_is i s w Ht)).
    apply Z.eqb_neq in Hne. rewrite Hne.
    unfold bind, prussdrv_pru_wait_event, prussdrv_pru_clear_event, call.
    destruct (IH (log ClearEvent (tick (log WaitEvent (tick (tick w))))))
      as (w' & Hrun & Hr & Hq & Hl).
    { rewrite !idle_tick by assumption. exact Hs. }
    exists w'. split; [exact Hrun|].
    rewrite Hr, Hq, Hl, !idle_tick by assumption. cbn.
    rewrite !List.filter_app. cbn. rewrite !app_nil_r. auto.
Qed.

(** While the consumer is idle, a call whose slot is occupied stays in the
    wait loop, whatever the bound, and has written nothing. *)
Lemma enqueue_blocked_while_idle fuel e s w :
  (forall t, sched t = 0%nat) ->
  state e <> STATE_EMPTY ->
  slot_is (queue_pos_ w mod QUEUE_LEN) s w -> state s <> STATE_EMPTY ->
  exists w',
    pru_enqueue_segment fuel e w = Blocked w' /\
    ring_buffer w' = ring_buffer w /\
    queue_pos_ w' = queue_pos_ w mod QUEUE_LEN /\
    List.filter is_store (host_log w') = List.filter is_store (host_log w).
Proof.
  intros Hidle He Hs Hne.
  destruct (wait_blocked_while_idle fuel (queue_pos_ w mod QUEUE_LEN) s
              (set_queue_pos (queue_pos_ w mod QUEUE_LEN) w) Hidle Hs Hne)
    as (w' & Hrun & Hr & Hq & Hl).
  exists w'. unfold pru_enqueue_segment, next_queue_element.
  apply Z.eqb_neq in He. rewrite He. unfold bind.
  cbn [queue_pos_ set_queue_pos]. rewrite Hrun. auto.
Qed.

Lemma declaration_order_complete : forall f, f ∈ declaration_order.
Proof.
  intros f. apply list_elem_of_In. destruct f; cbn; tauto.
Qed.

End Proofs.

(** * The test of the specification, QUEUE_LEN = 4 *)

Lemma board4_queue_len s :
  0 < @QUEUE_LEN (board4 s) < UINT_MAX_1.
Proof. cbn. unfold UINT_MAX_1. lia. Qed.

(** C2.  Every call of pru_enqueue_segment that returns has filled the slot
    at queue_pos_ mod QUEUE_LEN (all its stores go there, and the ring
    buffer then showed the caller's segment in that slot) and has moved the
    cursor one past that slot, which is one step modulo QUEUE_LEN; a call
    that is still waiting has found that slot occupied, has left the cursor
    on it and has written nothing; and a call that finds the slot Empty
    returns.  With QUEUE_LEN = 4: four calls on the fresh channel return
    without waiting and leave the cursor at 4; while the consumer stays idle
    the fifth call stays in the wait loop for slot 0 whatever the bound,
    having written nothing; with a consumer that marks slot 0 Empty (just
    before the host's 60th operation) the fifth call is still waiting, slot 0
    holding the first segment, for every bound below 3, and for every bound
    from 3 on it returns after 3 waits with the fifth segment in slot 0 and
    the cursor at 1. *)
Theorem C2_cursor_once_per_enqueue :
  (forall (setup : Setup) fuel e w e' w',
     0 < QUEUE_LEN < UINT_MAX_1 ->
     (forall f, f ∈ copy_order) ->
     pru_enqueue_segment fuel e w = Returned e' w' ->
     let i := queue_pos_ w mod QUEUE_LEN in
     0 <= i < QUEUE_LEN /\
     queue_pos_ w' = i + 1 /\
     queue_pos_ w' mod QUEUE_LEN = (queue_pos_ w + 1) mod QUEUE_LEN /\
     (exists k d,
        host_log w' =
          host_log w ++ waits k ++ copy_stores i (set_state STATE_EMPTY e)
            ++ [Store i F_state (Word (state e))] ++ d /\
        List.filter is_store d = []) /\
     (exists r, r ∈ history w' /\ r !! Z.to_nat i = Some e)) /\
  (forall (setup : Setup) fuel e w wb,
     pru_enqueue_segment fuel e w = Blocked wb ->
     let i := queue_pos_ w mod QUEUE_LEN in
     (exists s, slot_is i s wb /\ state s <> STATE_EMPTY) /\
     queue_pos_ wb = i /\
     exists k, host_log wb = host_log w ++ waits k) /\
  (forall (setup : Setup) fuel e w,
     state e <> STATE_EMPTY ->
     slot_empty (queue_pos_ w mod QUEUE_LEN) w ->
     exists e' w', pru_enqueue_segment fuel e w = Returned e' w') /\
  (exists w4,
     @enqueue_all (board4 idle) 0 [sample 1; sample 2; sample 3; sample 4]
       (@opened (board4 idle)) = Returned tt w4 /\
     (WaitEvent ∉ host_log w4) /\
     queue_pos_ w4 = 4 /\
     ring_buffer w4 = [sample 1; sample 2; sample 3; sample 4] /\
     forall fuel, exists w5,
       @pru_enqueue_segment (board4 idle) fuel (sample 5) w4 = Blocked w5 /\
       ring_buffer w5 = ring_buffer w4 /\
       queue_pos_ w5 = 0 /\
       List.filter is_store (host_log w5) = List.filter is_store (host_log w4)) /\
  (exists w4 w5,
     @enqueue_all (board4 (one_shot 60)) 0
       [sample 1; sample 2; sample 3; sample 4]
       (@opened (board4 (one_shot 60))) = Returned tt w4 /\
     (WaitEvent ∉ host_log w4) /\
     queue_pos_ w4 = 4 /\
     (forall fuel, (fuel < 3)%nat -> exists wb,
        @pru_enqueue_segment (board4 (one_shot 60)) fuel (sample 5) w4
          = Blocked wb /\
        ring_buffer wb !! 0%nat = Some (sample 1)) /\
     (forall fuel, (3 <= fuel)%nat ->
        @pru_enqueue_segment (board4 (one_shot 60)) fuel (sample 5) w4
          = Returned (set_state 0 (sample 5)) w5) /\
     host_log w5 =
       host_log w4 ++ @waits 3
         ++ @copy_stores (board4 (one_shot 60)) 0 (set_state 0 (sample 5))
         ++ [Store 0 F_state (Word STATE_FILLED); StderrSegment 0 (sample 5)] /\
     ring_buffer w5 = [sample 5; sample 2; sample 3; sample 4] /\
     queue_pos_ w5 = 1).
Proof.
  split; [|split; [|split; [|split]]].
  - intros setup fuel e w e' w' HQ Hall Hrun.
    exact (enqueue_fills fuel e w e' w' HQ Hall Hrun).
  - intros setup fuel e w wb Hrun. exact (enqueue_blocked fuel e w wb Hrun).
  - intros setup fuel e w Hne Hfree. exact (enqueue_free fuel e w Hne Hfree).
  - destruct (@enqueue_all_free (board4 idle) 0
                [sample 1; sample 2; sample 3; sample 4]
                (@opened (board4 idle)) (board4_queue_len idle)
                declaration_order_complete)
      as (w4 & l & Hrun & Hqp & Hlog & Hl).
    { repeat constructor; discriminate. }
    { vm_compute. discriminate. }
    { vm_compute. discriminate. }
    { apply (@opened_free (board4 idle)). reflexivity. }
    exists w4. split; [exact Hrun|].
    assert (Hw4 : w4 = world_of (@enqueue_all (board4 idle) 0
                     [sample 1; sample 2; sample 3; sample 4]
                     (@opened (board4 idle))))
      by (rewrite Hrun; reflexivity).
    split; [|split; [|split]].
    + rewrite Hlog. intros Hin. apply elem_of_app in Hin as [Hin|Hin].
      * vm_compute in Hin. apply list_elem_of_singleton in Hin.
        discriminate Hin.
      * rewrite Forall_forall in Hl. specialize (Hl _ Hin). discriminate Hl.
    + rewrite Hw4. vm_compute. reflexivity.
    + rewrite Hw4. vm_compute. reflexivity.
    + intros fuel.
      destruct (@enqueue_blocked_while_idle (board4 idle) fuel (sample 5)
                  (sample 1) w4) as (w5 & H5 & Hr & Hq & Hs).
      { reflexivity. } { intros H; discriminate H. }
      { rewrite Hw4. vm_compute. split; [intros H; discriminate H|reflexivity]. }
      { intros H; discriminate H. }
      exists w5. split; [exact H5|]. split; [exact Hr|]. split; [|exact Hs].
      rewrite Hq, Hw4. vm_compute. reflexivity.
  - set (b := board4 (one_shot 60)).
    set (w4 := world_of (@enqueue_all b 0
                 [sample 1; sample 2; sample 3; sample 4] (@opened b))).
    set (w5 := world_of (@pru_enqueue_segment b 3 (sample 5) w4)).
    exists w4, w5.
    split; [vm_compute; reflexivity|].
    split.
    { intros Hin. vm_compute in Hin.
      repeat (apply elem_of_cons in Hin as [Hin|Hin]; [discriminate Hin|]).
      inversion Hin. }
    split; [vm_compute; reflexivity|].
    split.
    { intros fuel Hf.
      destruct fuel as [|[|[|fuel]]]; [| | |lia];
        eexists; (split; [vm_compute; reflexivity|vm_compute; reflexivity]). }
    split.
    { intros fuel Hf. apply (@enqueue_more_fuel b 3 fuel); [exact Hf|].
      vm_compute. reflexivity. }
    split; [vm_compute; reflexivity|].
    split; vm_compute; reflexivity.
Qed.

(** * The theorems at work on the concrete board *)

Lemma board4_bit s : 0 <= @MOTOR_ENABLE_GPIO1_BIT (board4 s) < 32.
Proof. cbn. lia. Qed.

Lemma board4_opened_mapped s : gpio_mapped (@opened (board4 s)) = true.
Proof. rewrite opened_eq. reflexivity. Qed.

Lemma C1_witness :
  exists e' w',
    @pru_enqueue_segment (board4 idle) 0 (sample 1) (@opened (board4 idle))
      = Returned e' w' /\
    Forall (@intact (board4 idle) [sample 1]) (history w').
Proof.
  set (b := board4 idle).
  set (r := @pru_enqueue_segment b 0 (sample 1) (@opened b)).
  assert (Hrun : r = Returned (set_state 0 (sample 1)) (world_of r))
    by (vm_compute; reflexivity).
  exists (set_state 0 (sample 1)), (world_of r). split; [exact Hrun|].
  exact (proj2 (proj2 (proj2
           (@C1_write_then_flip b [] 0 (sample 1) (@opened b) _ _
              (board4_queue_len idle) declaration_order_complete
              (@session_open b) Hrun)))).
Defined.

Lemma C2_witness :
  exists e' w',
    @pru_enqueue_segment (board4 idle) 0 (sample 1) (@opened (board4 idle))
      = Returned e' w' /\
    queue_pos_ w' = 1.
Proof.
  set (b := board4 idle).
  set (r := @pru_enqueue_segment b 0 (sample 1) (@opened b)).
  assert (Hrun : r = Returned (set_state 0 (sample 1)) (world_of r))
    by (vm_compute; reflexivity).
  exists (set_state 0 (sample 1)), (world_of r). split; [exact Hrun|].
  exact (proj1 (proj2
           (proj1 C2_cursor_once_per_enqueue b 0%nat (sample 1) (@opened b)
              _ _
              (board4_queue_len idle) declaration_order_complete Hrun))).
Defined.

Lemma C3_witness :
  exists w',
    @enqueue_all (board4 idle) 0 [sample 1; sample 2; sample 3; sample 4]
      (@opened (board4 idle)) = Returned tt w' /\
    (WaitEvent ∉ host_log w') /\
    queue_pos_ w' = 4.
Proof.
  refine (proj2 (proj2 (proj2
    (@C3_no_wait_while_room (board4 idle) 0
       [sample 1; sample 2; sample 3; sample 4]
       (board4_queue_len idle) declaration_order_complete _ _)))).
  - repeat constructor; intros H; discriminate H.
  - cbn. lia.
Defined.

Lemma C4_witness :
  exists w1 w2,
    @session (board4 (steady_from 0)) [sample 1] w1 /\
    @pru_wait_queue_empty (board4 (steady_from 0)) 0 w1 = Returned tt w2 /\
    @all_empty (board4 (steady_from 0)) (ring_buffer w2).
Proof.
  set (b := board4 (steady_from 0)).
  set (r1 := @pru_enqueue_segment b 0 (sample 1) (@opened b)).
  set (r2 := @pru_wait_queue_empty b 0 (world_of r1)).
  assert (H1 : r1 = Returned (set_state 0 (sample 1)) (world_of r1))
    by (vm_compute; reflexivity).
  assert (H2 : r2 = Returned tt (world_of r2)) by (vm_compute; reflexivity).
  assert (Hs : @session b [sample 1] (world_of r1))
    by exact (@session_enqueue b [] _ 0 _ _ _ (@session_open b) H1).
  exists (world_of r1), (world_of r2).
  split; [exact Hs|]. split; [exact H2|].
  exact (proj2 (@C4_wait_queue_empty_drains b [sample 1] 0 _ _
                  (board4_queue_len _) declaration_order_complete Hs H2)).
Defined.

Lemma C6_witness :
  exists w',
    @pru_shutdown (board4 (steady_from 0)) 0 1 (@opened (board4 (steady_from 0)))
      = Returned tt w' /\
    gpio_mapped w' = false /\
    pru_running w' = false.
Proof.
  set (b := board4 (steady_from 0)).
  set (r := @pru_shutdown b 0 1 (@opened b)).
  assert (Hrun : r = Returned tt (world_of r)) by (vm_compute; reflexivity).
  exists (world_of r). split; [exact Hrun|].
  destruct (@C6_shutdown_flush b [] 0 1 (@opened b) (world_of r)
              (board4_queue_len _) declaration_order_complete
              (@session_open b) ltac:(intros H; discriminate H) Hrun)
    as (e' & w1 & w2 & k1 & d & k2 & new & _ & _ & _ & _ & _ & _ & _ & _
        & Hr & _ & Hm).
  split; [exact Hm|exact Hr].
Defined.

Lemma C7_witness :
  exists w',
    @pru_motor_enable_nowait (board4 idle) 1 (@opened (board4 idle))
      = Returned tt w' /\
    Z.testbit (gpio_1_DATAOUT w') 28 = false.
Proof.
  destruct (@C7_enable_is_active_low (board4 idle) 1 (@opened (board4 idle))
              (board4_opened_mapped idle) (board4_bit idle))
    as (w' & Hrun & Hon & _).
  exists w'. split; [exact Hrun|]. apply Hon. intros H; discriminate H.
Defined.

Lemma C8_witness :
  exists w',
    @pru_motor_enable_nowait (board4 idle) 0 (@opened (board4 idle))
      = Returned tt w' /\
    Z.testbit (gpio_1_DATAOUT w') 20 = false.
Proof.
  destruct (@C8_enable_overwrites_register (board4 idle) 0
              (@opened (board4 idle))
              (board4_opened_mapped idle) (board4_bit idle))
    as (w' & Hrun & Hbits).
  exists w'. split; [exact Hrun|]. apply Hbits. intros H; discriminate H.
Defined.

Lemma C9_witness :
  exists e' w',
    @pru_enqueue_segment (board4 idle) 0 (sample 1) (@opened (board4 idle))
      = Returned e' w' /\
    state e' = 0 /\ direction_bits e' = 1.
Proof.
  set (b := board4 idle).
  set (r := @pru_enqueue_segment b 0 (sample 1) (@opened b)).
  assert (Hrun : r = Returned (set_state 0 (sample 1)) (world_of r))
    by (vm_compute; reflexivity).
  exists (set_state 0 (sample 1)), (world_of r). split; [exact Hrun|].
  destruct (@C9_caller_segment_left_empty b 0 (sample 1) (@opened b) _ _ Hrun)
    as (_ & Hst & _ & _).
  split; [exact Hst|reflexivity].
Defined.

Lemma C10_witness :
  @last_insert_position (board4 idle) (@opened (board4 idle)) = 3 /\
  @pru_wait_queue_empty (board4 idle) 0 (@opened (board4 idle))
    = Returned tt (@tick (board4 idle) (@opened (board4 idle))).
Proof.
  destruct (@C10_wait_on_fresh_channel (board4 idle) 0)
    as (_ & Hlast & _ & Hrun & _).
  - cbn. lia.
  - exists (2 ^ 30). reflexivity.
  - split; [exact Hlast|exact Hrun].
Defined.

(** * More of the file *)

Section MoreProofs.

Context {setup : Setup}.

Arguments tick : simpl never.

(** ** Shutdown *)


Lemma disable_returns w :
  prussdrv_pru_disable w =
    Returned tt (log PruDisable (set_pru (pru_pos (tick w)) false (tick w))).
Proof. reflexivity. Qed.

Lemma teardown_mapped w :
  gpio_mapped w = true ->
  exists w',
    teardown w = Returned tt w' /\
    host_log w' =
      host_log w ++ [PruDisable; PruExit; Gpio1Dataout disabled_level;
                     UnmapGpio] /\
    queue_pos_ w' = queue_pos_ w /\
    pru_running w' = false /\
    gpio_mapped w' = false /\
    gpio_1_DATAOUT w' = disabled_level.
Proof.
  intros Hm. unfold teardown.
  rewrite (bind_eq_returned _ _ _ _ _ (disable_returns w)).
  set (wa := log PruDisable (set_pru (pru_pos (tick w)) false (tick w))).
  assert (Ma : gpio_mapped wa = true)
    by (unfold wa; cbn [gpio_mapped log set_pru]; rewrite tick_gpio_mapped;
        exact Hm).
  assert (La : host_log wa = host_log w ++ [PruDisable])
    by (unfold wa; cbn [host_log log set_pru]; rewrite tick_host_log;
        reflexivity).
  assert (Qa : queue_pos_ wa = queue_pos_ w)
    by (unfold wa; cbn [queue_pos_ log set_pru]; apply tick_queue_pos).
  assert (Ra : pru_running wa = false) by reflexivity.
  clearbody wa.
  assert (Hb : prussdrv_exit wa = Returned tt (log PruExit (tick wa)))
    by reflexivity.
  rewrite (bind_eq_returned _ _ _ _ _ Hb).
  set (wb := log PruExit (tick wa)).
  assert (Mb : gpio_mapped wb = true)
    by (unfold wb; cbn [gpio_mapped log]; rewrite tick_gpio_mapped; exact Ma).
  assert (Lb : host_log wb = host_log wa ++ [PruExit])
    by (unfold wb; cbn [host_log log]; rewrite tick_host_log; reflexivity).
  assert (Qb : queue_pos_ wb = queue_pos_ wa)
    by (unfold wb; cbn [queue_pos_ log]; apply tick_queue_pos).
  assert (Rb : pru_running wb = false)
    by (unfold wb; cbn [pru_running log];
        apply (quiet_tick _ _ quiet_halted); exact Ra).
  clearbody wb.
  rewrite (bind_eq_returned _ _ _ _ _ (motor_enable_returns 0 wb Mb)).
  change (0 =? 0) with true. cbv iota.
  set (wc := log (Gpio1Dataout disabled_level)
               (set_gpio true disabled_level (tick wb))).
  assert (Lc : host_log wc = host_log wb ++ [Gpio1Dataout disabled_level])
    by (unfold wc; cbn [host_log log set_gpio]; rewrite tick_host_log;
        reflexivity).
  assert (Qc : queue_pos_ wc = queue_pos_ wb)
    by (unfold wc; cbn [queue_pos_ log set_gpio]; apply tick_queue_pos).
  assert (Rc : pru_running wc = false)
    by (unfold wc; cbn [pru_running log set_gpio];
        apply (quiet_tick _ _ quiet_halted); exact Rb).
  assert (Gc : gpio_1_DATAOUT wc = disabled_level) by reflexivity.
  clearbody wc.
  exists (log UnmapGpio (set_gpio false (gpio_1_DATAOUT (tick wc)) (tick wc))).
  split; [reflexivity|].
  cbn [host_log queue_pos_ pru_running gpio_mapped gpio_1_DATAOUT log set_gpio].
  rewrite tick_host_log, tick_queue_pos, tick_gpio_1_DATAOUT.
  split; [rewrite Lc, Lb, La, <- !app_assoc; reflexivity|].
  split; [congruence|].
  split; [apply (quiet_tick _ _ quiet_halted); exact Rc|].
  split; [reflexivity|exact Gc].
Qed.


Lemma shutdown_no_flush fuel w : pru_shutdown fuel 0 w = teardown w.
Proof. reflexivity. Qed.

(** X1.  pru_shutdown with flush_queue = 0 enqueues nothing and waits for
    nothing: with the GPIO banks mapped it returns whatever the ring buffer
    holds and whatever the bound, after exactly four operations: disable,
    exit, motors off, unmap.  It leaves the cursor where it was. *)
Theorem X1_shutdown_without_flush fuel w :
  gpio_mapped w = true ->
  exists w',
    pru_shutdown fuel 0 w = Returned tt w' /\
    host_log w' =
      host_log w ++ [PruDisable; PruExit; Gpio1Dataout disabled_level;
                     UnmapGpio] /\
    queue_pos_ w' = queue_pos_ w /\
    pru_running w' = false /\
    gpio_mapped w' = false /\
    gpio_1_DATAOUT w' = disabled_level.
Proof. intros Hm. rewrite shutdown_no_flush. apply teardown_mapped. exact Hm. Qed.



(** ** What the queue operations leave alone *)

Lemma preserves_store P i f v :
  quiet P -> store_proof P -> preserves P (store i f v).
Proof.
  intros HQ HS w HP. unfold store.
  pose proof (quiet_tick P w HQ HP) as Ht.
  destruct (ring_buffer (tick w) !! Z.to_nat i) as [s|]; [|exact Ht].
  destruct (0 <=? i); [|exact Ht]. apply HS. exact Ht.
Qed.

Lemma preserves_copy_struct P order i e :
  quiet P -> store_proof P -> preserves P (copy_struct order i e).
Proof.
  intros HQ HS. induction order as [|f order IH]; cbn [copy_struct].
  - apply preserves_ret.
  - apply preserves_bind; [apply preserves_store; assumption|].
    intros _. exact IH.
Qed.

Lemma preserves_next_queue_element P fuel :
  quiet P -> cursor_free P -> preserves P (next_queue_element fuel).
Proof.
  intros HQ HC w HP. unfold next_queue_element.
  apply (preserves_bind P (wait_slot_empty fuel _)).
  - apply quiet_wait_slot_empty. exact HQ.
  - intros _ w1 H1. apply HC. exact H1.
  - apply HC. exact HP.
Qed.

Lemma preserves_enqueue P fuel e :
  quiet P -> cursor_free P -> store_proof P ->
  preserves P (pru_enqueue_segment fuel e).
Proof.
  intros HQ HC HS. unfold pru_enqueue_segment.
  destruct (state e =? STATE_EMPTY); [intros w HP; exact HP|].
  apply preserves_bind; [apply preserves_next_queue_element; assumption|].
  intros qe. apply preserves_bind; [apply preserves_copy_struct; assumption|].
  intros _. apply preserves_bind; [apply preserves_store; assumption|].
  intros _. apply preserves_bind; [apply quiet_DumpMotionSegment; assumption|].
  intros _. apply preserves_ret.
Qed.

Lemma quiet_gpio (p : bool * Z) :
  quiet (fun w => (gpio_mapped w, gpio_1_DATAOUT w) = p).
Proof.
  split; intros w; [|cbn; auto..].
  intros H. destruct (consume_gpio w) as [-> ->]. exact H.
Qed.

(** X3.  pru_enqueue_segment never touches the GPIO side: however the call
    ends (returned, still waiting, assertion failed), the mapping of the
    banks and the GPIO-1 data-out register are as before. *)
Theorem X3_enqueue_leaves_gpio fuel e w :
  gpio_mapped (world_of (pru_enqueue_segment fuel e w)) = gpio_mapped w /\
  gpio_1_DATAOUT (world_of (pru_enqueue_segment fuel e w)) = gpio_1_DATAOUT w.
Proof.
  pose proof (preserves_enqueue _ fuel e
                (quiet_gpio (gpio_mapped w, gpio_1_DATAOUT w))) as H.
  specialize (H (fun w0 p H0 => H0) (fun w0 i f v s H0 => H0) w eq_refl).
  cbv beta in H. split; congruence.
Qed.

Lemma quiet_holds j e : quiet (holds j e).
Proof.
  apply quiet_intro; try (intros w ? H; exact H).
  intros w s _ Hs Hne (Hj & x & Hx & Hxe). split; [assumption|]. cbn.
  destruct (decide (Z.to_nat (pru_pos w) = Z.to_nat j)) as [E|E].
  - exists (set_state STATE_EMPTY s). rewrite E.
    split; [apply list_lookup_insert_eq; eapply lookup_lt_Some; eassumption|].
    right. rewrite E, Hx in Hs. injection Hs as <-.
    destruct Hxe as [->| ->]; reflexivity.
  - exists x. rewrite list_lookup_insert_ne by assumption. auto.
Qed.

Lemma quiet_laid_out es : quiet (laid_out es).
Proof.
  unfold laid_out. apply quiet_forall. intros j. apply quiet_forall. intros e.
  apply quiet_impl. apply quiet_holds.
Qed.

Lemma laid_out_self w : laid_out (ring_buffer w) w.
Proof.
  intros j e He. split; [lia|]. exists e. rewrite Nat2Z.id. auto.
Qed.

(** X4.  pru_wait_queue_empty only waits: however it ends, the host has
    done nothing but rounds of wait and clear (at most as many as the bound
    allows), the cursor and the GPIO side are as before, and every slot
    holds the members it held, its state either as before or Empty.  A call
    that is still waiting has just read a state other than Empty from the
    slot filled last. *)
Theorem X4_wait_queue_empty_only_waits fuel w :
  let o := pru_wait_queue_empty fuel w in
  (exists k, (k <= fuel)%nat /\ host_log (world_of o) = host_log w ++ waits k) /\
  queue_pos_ (world_of o) = queue_pos_ w /\
  gpio_mapped (world_of o) = gpio_mapped w /\
  gpio_1_DATAOUT (world_of o) = gpio_1_DATAOUT w /\
  laid_out (ring_buffer w) (world_of o) /\
  (forall w', o <> AssertFailed w') /\
  (forall w', o = Blocked w' ->
     exists s, slot_is (last_insert_position w) s w' /\
               state s <> STATE_EMPTY).
Proof.
  intros o. unfold o, pru_wait_queue_empty.
  set (i := last_insert_position w).
  split; [apply wait_slot_empty_log|].
  split; [apply (quiet_wait_slot_empty _ fuel i
                   (quiet_queue_pos (queue_pos_ w)) w eq_refl)|].
  pose proof (quiet_wait_slot_empty _ fuel i
                (quiet_gpio (gpio_mapped w, gpio_1_DATAOUT w)) w eq_refl) as Hg.
  cbv beta in Hg.
  split; [congruence|]. split; [congruence|].
  split; [apply (quiet_wait_slot_empty _ fuel i (quiet_laid_out _) w);
          apply laid_out_self|].
  split; [intros w'; apply wait_slot_empty_no_abort|].
  intros w' Hb. exact (wait_slot_empty_blocked _ _ _ _ Hb).
Qed.

(** ** No timeout *)

Lemma frozen_tick w : frozen w -> tick w = set_clock (S (clock w)) w.
Proof.
  intros [H|H]; unfold tick.
  - rewrite iter_not_running by exact H. reflexivity.
  - rewrite H. reflexivity.
Qed.

Lemma wait_blocked_while_frozen fuel i s w :
  frozen w -> slot_is i s w -> state s <> STATE_EMPTY ->
  exists w',
    wait_slot_empty fuel i w = Blocked w' /\
    ring_buffer w' = ring_buffer w /\
    queue_pos_ w' = queue_pos_ w /\
    List.filter is_store (host_log w') = List.filter is_store (host_log w).
Proof.
  intros Hf Hs Hne. revert w Hf Hs.
  induction fuel as [|fuel IH]; intros w Hf Hs.
  - assert (Ht : slot_is i s (tick w)) by (rewrite frozen_tick; assumption).
    cbn. rewrite (bind_eq_returned _ _ _ _ _ (read_state_slot_is i s w Ht)).
    apply Z.eqb_neq in Hne. rewrite Hne.
    exists (tick w). rewrite frozen_tick by assumption. auto.
  - assert (Ht : slot_is i s (tick w)) by (rewrite frozen_tick; assumption).
    cbn. rewrite (bind_eq_returned _ _ _ _ _ (read_state_slot_is i s w Ht)).
    apply Z.eqb_neq in Hne. rewrite Hne.
    unfold bind, prussdrv_pru_wait_event, prussdrv_pru_clear_event, call.
    rewrite (frozen_tick w Hf).
    set (w1 := set_clock (S (clock w)) w).
    assert (Hf1 : frozen (log WaitEvent (tick w1))).
    { rewrite frozen_tick by exact Hf. exact Hf. }
    assert (E1 : log WaitEvent (tick w1)
                 = log WaitEvent (set_clock (S (clock w1)) w1))
      by (rewrite (frozen_tick w1 Hf); reflexivity).
    rewrite E1 in Hf1 |- *.
    set (w2 := log WaitEvent (set_clock (S (clock w1)) w1)) in *.
    rewrite (frozen_tick w2 Hf1).
    destruct (IH (log ClearEvent (set_clock (S (clock w2)) w2)))
      as (w' & Hrun & Hr & Hq & Hl).
    { exact Hf1. } { exact Hs. }
    exists w'. split; [exact Hrun|].
    rewrite Hr, Hq, Hl. cbn.
    rewrite !List.filter_app. cbn. rewrite !app_nil_r. auto.
Qed.

(** X5.  Neither wait loop has a timeout.  While the consumer does nothing
    (the firmware has halted, or it gets no time), pru_enqueue_segment on an
    occupied slot and pru_wait_queue_empty behind an occupied slot are still
    waiting whatever the bound, and have written nothing to the ring
    buffer. *)
Theorem X5_no_timeout fuel w s :
  frozen w ->
  state s <> STATE_EMPTY ->
  (forall e,
     state e <> STATE_EMPTY ->
     slot_is (queue_pos_ w mod QUEUE_LEN) s w ->
     exists w',
       pru_enqueue_segment fuel e w = Blocked w' /\
       ring_buffer w' = ring_buffer w /\
       List.filter is_store (host_log w') = List.filter is_store (host_log w)) /\
  (slot_is (last_insert_position w) s w ->
   exists w',
     pru_wait_queue_empty fuel w = Blocked w' /\
     ring_buffer w' = ring_buffer w /\
     List.filter is_store (host_log w') = List.filter is_store (host_log w)).
Proof.
  intros Hf Hne. split.
  - intros e He Hs.
    destruct (wait_blocked_while_frozen fuel (queue_pos_ w mod QUEUE_LEN) s
                (set_queue_pos (queue_pos_ w mod QUEUE_LEN) w) Hf Hs Hne)
      as (w' & Hrun & Hr & _ & Hl).
    exists w'. unfold pru_enqueue_segment, next_queue_element.
    apply Z.eqb_neq in He. rewrite He. unfold bind.
    cbn [queue_pos_ set_queue_pos]. rewrite Hrun. auto.
  - intros Hs.
    destruct (wait_blocked_while_frozen fuel (last_insert_position w) s w
                Hf Hs Hne) as (w' & Hrun & Hr & _ & Hl).
    exists w'. auto.
Qed.

(** ** The order of the slots *)

Lemma motor_enable_private on w w' :
  pru_motor_enable_nowait on w = Returned tt w' ->
  queue_pos_ w' = queue_pos_ w.
Proof.
  unfold pru_motor_enable_nowait. destruct (gpio_mapped (tick w)); [|discriminate].
  intros [= <-]. cbn [queue_pos_ log set_gpio]. apply tick_queue_pos.
Qed.

Lemma session_cursor segs w :
  0 < QUEUE_LEN < UINT_MAX_1 -> (forall f, f ∈ copy_order) ->
  session segs w ->
  queue_pos_ w mod QUEUE_LEN = Z.of_nat (length segs) mod QUEUE_LEN.
Proof.
  intros HQ Hall Hs. induction Hs as
    [|segs w fuel e e' w' Hs IH Hrun|segs w fuel w' Hs IH Hrun
     |segs w on w' Hs IH Hrun].
  - rewrite opened_eq. reflexivity.
  - destruct (enqueue_fills _ _ _ _ _ HQ Hall Hrun) as (_ & _ & Hq & _).
    rewrite Hq, length_app. cbn [length].
    rewrite Nat2Z.inj_add, <- Zplus_mod_idemp_l, IH, Zplus_mod_idemp_l.
    reflexivity.
  - pose proof (quiet_wait_slot_empty _ fuel (last_insert_position w)
                  (quiet_queue_pos (queue_pos_ w)) w eq_refl) as Hq.
    unfold pru_wait_queue_empty in Hrun. rewrite Hrun in Hq.
    cbn [world_of] in Hq. rewrite Hq. exact IH.
  - rewrite (motor_enable_private _ _ _ Hrun). exact IH.
Qed.

(** X6.  The slots are filled in their order: in a session in which n
    segments have been enqueued the cursor is between 0 and QUEUE_LEN and
    congruent to n modulo QUEUE_LEN, and the next segment that is enqueued
    is shown by the ring buffer in slot n mod QUEUE_LEN. *)
Theorem X6_slots_in_order segs fuel e w e' w' :
  0 < QUEUE_LEN < UINT_MAX_1 ->
  (forall f, f ∈ copy_order) ->
  session segs w ->
  pru_enqueue_segment fuel e w = Returned e' w' ->
  let n := Z.of_nat (length segs) in
  0 <= queue_pos_ w <= QUEUE_LEN /\
  queue_pos_ w mod QUEUE_LEN = n mod QUEUE_LEN /\
  queue_pos_ w' = n mod QUEUE_LEN + 1 /\
  exists r, r ∈ history w' /\ r !! Z.to_nat (n mod QUEUE_LEN) = Some e.
Proof.
  intros HQ Hall Hs Hrun n.
  pose proof (session_inv_holds _ _ HQ Hall Hs) as (_ & Hqp & _).
  pose proof (session_cursor _ _ HQ Hall Hs) as Hc. fold n in Hc.
  destruct (enqueue_fills _ _ _ _ _ HQ Hall Hrun) as (_ & Hq & _ & _ & Hr).
  rewrite Hc in Hq, Hr. auto.
Qed.

(** ** Backpressure *)

Lemma full_when_occupied i w s :
  0 <= i < QUEUE_LEN ->
  ring_inv i w -> slot_is i s w -> state s <> STATE_EMPTY ->
  pru_pos w = i /\ Forall (fun x => state x <> STATE_EMPTY) (ring_buffer w).
Proof.
  intros Hi (Hlen & Hp & n & Hn & Hh & Hocc) [_ Hs] Hne.
  set (c := pru_pos w) in *.
  assert (HQ : 0 < QUEUE_LEN) by lia.
  assert (Hd : (i - c) mod QUEUE_LEN = n mod QUEUE_LEN).
  { apply dist_of_sum; assumption. }
  pose proof (proj1 (Hocc i s Hi Hs) Hne) as Hlt. rewrite Hd in Hlt.
  assert (Hfull : n = QUEUE_LEN).
  { destruct (Z.eq_dec n QUEUE_LEN) as [|Hn']; [assumption|].
    rewrite Z.mod_small in Hlt by lia. lia. }
  subst n. split.
  - rewrite Z.mod_same in Hd by lia.
    destruct (dist_cases QUEUE_LEN i c Hi Hp) as [[H1 H2]|[H1 H2]]; lia.
  - apply Forall_lookup. intros j x Hx.
    assert (Hj : 0 <= Z.of_nat j < QUEUE_LEN)
      by (apply lookup_lt_Some in Hx; lia).
    rewrite <- (Nat2Z.id j) in Hx. apply (Hocc _ x Hj Hx).
    apply Z.mod_pos_bound. assumption.
Qed.

Lemma enqueue_blocked_in_wait fuel e w wb :
  pru_enqueue_segment fuel e w = Blocked wb ->
  wait_slot_empty fuel (queue_pos_ w mod QUEUE_LEN)
    (set_queue_pos (queue_pos_ w mod QUEUE_LEN) w) = Blocked wb.
Proof.
  intros Hrun. unfold pru_enqueue_segment in Hrun.
  destruct (state e =? STATE_EMPTY); [discriminate Hrun|].
  unfold bind at 1 in Hrun.
  destruct (next_queue_element fuel w) as [qe w1|w1|w1|w1] eqn:Hn;
    try discriminate Hrun.
  - exfalso. revert Hrun.
    apply never_blocks_bind; [apply never_blocks_copy_struct|].
    intros _. apply never_blocks_bind; [apply never_blocks_store|].
    intros _. apply never_blocks_bind; [apply never_blocks_DumpMotionSegment|].
    intros _ w0 w0'. discriminate.
  - injection Hrun as <-. unfold next_queue_element, bind in Hn.
    cbn [queue_pos_ set_queue_pos] in Hn.
    destruct (wait_slot_empty fuel (queue_pos_ w mod QUEUE_LEN)
                (set_queue_pos (queue_pos_ w mod QUEUE_LEN) w))
      as [[] w2|w2|w2|w2]; try discriminate Hn.
    injection Hn as <-. reflexivity.
Qed.

(** X7.  pru_enqueue_segment waits only when the ring buffer is full: in a
    session, a call that is still waiting leaves a ring buffer in which
    every one of the QUEUE_LEN slots is occupied, and the slot it waits for
    is the one the firmware is looking at.  (The firmware consumes the
    slots in order.) *)
Theorem X7_waits_only_when_full segs fuel e w wb :
  0 < QUEUE_LEN < UINT_MAX_1 ->
  (forall f, f ∈ copy_order) ->
  session segs w ->
  pru_enqueue_segment fuel e w = Blocked wb ->
  Z.of_nat (length (ring_buffer wb)) = QUEUE_LEN /\
  Forall (fun x => state x <> STATE_EMPTY) (ring_buffer wb) /\
  pru_pos wb = queue_pos_ w mod QUEUE_LEN.
Proof.
  intros HQ Hall Hs Hrun.
  pose proof (session_inv_holds _ _ HQ Hall Hs) as (Hring & _).
  set (i := queue_pos_ w mod QUEUE_LEN).
  assert (Hi : 0 <= i < QUEUE_LEN) by (apply Z.mod_pos_bound; lia).
  destruct (enqueue_blocked _ _ _ _ Hrun) as ((s & Hslot & Hne) & _ & _).
  fold i in Hslot.
  assert (Hinv : ring_inv i wb).
  { pose proof (quiet_wait_slot_empty _ fuel i (quiet_ring_inv i)
                  (set_queue_pos i w)) as Hp.
    pose proof (enqueue_blocked_in_wait _ _ _ _ Hrun) as Hw. fold i in Hw.
    unfold preserves in Hp. rewrite Hw in Hp.
    apply Hp. apply ring_inv_mod. exact Hring. }
  destruct (full_when_occupied i wb s Hi Hinv Hslot Hne) as [Hpos Hall'].
  split; [apply Hinv|]. split; [exact Hall'|exact Hpos].
Qed.

(** ** What is enqueued is what the ring buffer shows *)

Lemma enqueue_transfer (P P' : world -> Prop) fuel e w e' w' :
  (forall f, f ∈ copy_order) ->
  pru_enqueue_segment fuel e w = Returned e' w' ->
  let i := queue_pos_ w mod QUEUE_LEN in
  quiet P -> cursor_free P -> copy_safe i P -> quiet P' ->
  (forall w0,
     P w0 -> slot_is i (set_state STATE_EMPTY e) w0 ->
     P' (do_store i F_state (Word (state e)) (set_state STATE_EMPTY e) w0)) ->
  P w -> P' w'.
Proof.
  intros Hall Hrun i HQ HC HS HQ' Hflip HP.
  destruct (enqueue_returned _ _ _ _ _ Hall Hrun)
    as (_ & _ & w1 & w2 & d & Hwait & _ & _ & Hslot & Htr & Hdump & _).
  fold i in Hwait, Hslot, Htr, Hdump.
  pose proof (quiet_wait_slot_empty P fuel i HQ (set_queue_pos i w)
                (HC _ _ HP)) as H1.
  rewrite Hwait in H1. cbn [world_of] in H1.
  pose proof (Htr P HQ HS (HC _ _ H1)) as H2.
  pose proof (quiet_DumpMotionSegment P' i HQ' _ (Hflip _ H2 Hslot)) as H3.
  rewrite Hdump in H3. exact H3.
Qed.

Lemma copy_safe_holds i j e : j <> i -> copy_safe i (holds j e).
Proof.
  intros Hne w f v s (Hj & x & Hx & Hxe) Hi Hs Hse Hput.
  split; [assumption|]. exists x. split; [|assumption]. cbn.
  rewrite list_lookup_insert_ne; [assumption|].
  intros E. apply Hne. symmetry. apply Z2Nat.inj; assumption.
Qed.

Lemma do_store_holds_other i j e f v s w :
  0 <= i -> j <> i -> holds j e w -> holds j e (do_store i f v s w).
Proof.
  intros Hi Hne (Hj & x & Hx & Hxe). split; [assumption|]. exists x.
  split; [|assumption]. cbn. rewrite list_lookup_insert_ne; [assumption|].
  intros E. apply Hne. symmetry. apply Z2Nat.inj; assumption.
Qed.

Lemma enqueue_all_laid_out fuel es :
  0 < QUEUE_LEN < UINT_MAX_1 ->
  (forall f, f ∈ copy_order) ->
  Forall (fun e => state e <> STATE_EMPTY) es ->
  forall done w,
    queue_pos_ w = Z.of_nat (length done) ->
    queue_pos_ w + Z.of_nat (length es) <= QUEUE_LEN ->
    free_from (queue_pos_ w) w ->
    laid_out done w ->
    exists w',
      enqueue_all fuel es w = Returned tt w' /\ laid_out (done ++ es) w'.
Proof.
  intros HQ Hall Hes.
  induction Hes as [|e es Hne Hes IH]; intros done w Hk Hlen Hfree Hlaid.
  - exists w. rewrite app_nil_r. split; [reflexivity|exact Hlaid].
  - cbn [length] in Hlen. set (k := queue_pos_ w) in *.
    assert (Hk0 : 0 <= k) by lia.
    assert (Hmod : k mod QUEUE_LEN = k) by (apply Z.mod_small; lia).
    assert (Hslot : slot_empty (queue_pos_ w mod QUEUE_LEN) w).
    { fold k. rewrite Hmod. apply Hfree. lia. }
    destruct (enqueue_free fuel e w Hne Hslot) as (e' & w1 & Hrun).
    destruct (enqueue_private _ _ _ _ _ Hall Hrun) as (Hq1 & _ & _).
    fold k in Hq1. rewrite Hmod, Z.mod_small in Hq1 by lia.
    pose (P := fun w0 => laid_out done w0 /\ free_from (k + 1) w0).
    pose (P' := fun w0 => laid_out (done ++ [e]) w0 /\ free_from (k + 1) w0).
    assert (H1 : P' w1).
    { apply (enqueue_transfer P P' fuel e w e' w1 Hall Hrun).
      - apply quiet_and; [apply quiet_laid_out|apply quiet_free_from].
      - intros w0 p H0. exact H0.
      - fold k. rewrite Hmod. apply copy_safe_and; [|apply copy_safe_free_from].
        intros w0 f v s H0 Hi Hs Hse Hput j x Hx.
        apply copy_safe_holds; auto.
        apply lookup_lt_Some in Hx. lia.
      - apply quiet_and; [apply quiet_laid_out|apply quiet_free_from].
      - fold k. rewrite Hmod. intros w0 [HL HF] Hs0. split.
        + intros j x Hx. apply lookup_app_Some in Hx as [Hx|[Hge Hx]].
          * apply do_store_holds_other; [lia| |apply HL; exact Hx].
            apply lookup_lt_Some in Hx. lia.
          * apply list_lookup_singleton_Some in Hx as [Hj <-].
            assert (Ej : Z.of_nat j = k) by lia. rewrite Ej.
            split; [lia|]. exists e. split; [|left; reflexivity].
            cbn [ring_buffer do_store log set_ring put_field].
            rewrite set_state_set_state, set_state_same.
            apply list_lookup_insert_eq.
            destruct Hs0 as [_ Hs0]. eapply lookup_lt_Some. eassumption.
        + intros j Hj. apply do_store_other; [lia|lia|]. apply HF. exact Hj.
      - split; [exact Hlaid|]. intros j Hj. apply Hfree. lia. }
    destruct H1 as [HL1 HF1].
    destruct (IH (done ++ [e]) w1) as (w' & Hrun' & HL').
    { rewrite Hq1, length_app. cbn [length]. lia. }
    { rewrite Hq1. lia. }
    { rewrite Hq1. exact HF1. }
    { exact HL1. }
    exists w'. split.
    + cbn [enqueue_all]. rewrite (bind_eq_returned _ _ _ _ _ Hrun). exact Hrun'.
    + rewrite <- app_assoc in HL'. exact HL'.
Qed.

(** X8.  What is enqueued is what the firmware gets: after at most
    QUEUE_LEN segments have been enqueued on the freshly opened channel,
    slot j of the ring buffer holds the j-th of them, every member as the
    caller passed it, whatever the consumer did meanwhile; at most its
    state has gone back to Empty (the firmware is done with it). *)
Theorem X8_segments_laid_out fuel es :
  0 < QUEUE_LEN < UINT_MAX_1 ->
  (forall f, f ∈ copy_order) ->
  Forall (fun e => state e <> STATE_EMPTY) es ->
  Z.of_nat (length es) <= QUEUE_LEN ->
  exists w',
    enqueue_all fuel es opened = Returned tt w' /\
    forall j e,
      es !! j = Some e ->
      exists s,
        ring_buffer w' !! j = Some s /\
        (s = e \/ s = set_state STATE_EMPTY e).
Proof.
  intros HQ Hall Hes Hlen.
  assert (Hq0 : queue_pos_ opened = 0) by (rewrite opened_eq; reflexivity).
  destruct (enqueue_all_laid_out fuel es HQ Hall Hes [] opened)
    as (w' & Hrun & HL).
  { exact Hq0. } { lia. } { rewrite Hq0. apply opened_free. lia. }
  { intros j e He. rewrite lookup_nil in He. discriminate He. }
  exists w'. split; [exact Hrun|]. intros j e He.
  destruct (HL j e He) as (_ & s & Hs & Hse).
  rewrite Nat2Z.id in Hs. eauto.
Qed.

(** ** A consumer that makes progress *)

Lemma wait_slot_empty_first_read fuel i w :
  slot_empty i (tick w) -> wait_slot_empty fuel i w = Returned tt (tick w).
Proof.
  intros (Hi & s & Hs & He).
  assert (read_state i w = Returned (state s) (tick w)) as Hr
    by (apply read_state_slot_is; split; assumption).
  destruct fuel; cbn; rewrite (bind_eq_returned _ _ _ _ _ Hr);
    rewrite He, Z.eqb_refl; reflexivity.
Qed.

Lemma enqueue_first_read fuel e w :
  state e <> STATE_EMPTY ->
  let i := queue_pos_ w mod QUEUE_LEN in
  slot_empty i (tick (set_queue_pos i w)) ->
  exists e' w',
    pru_enqueue_segment fuel e w = Returned e' w' /\
    wait_slot_empty fuel i (set_queue_pos i w)
      = Returned tt (tick (set_queue_pos i w)).
Proof.
  intros Hne i Hfree.
  pose proof (wait_slot_empty_first_read fuel i _ Hfree) as Hwait.
  unfold pru_enqueue_segment. apply Z.eqb_neq in Hne. rewrite Hne.
  assert (Hnext : next_queue_element fuel w =
            Returned i (set_queue_pos ((i + 1) mod UINT_MAX_1)
                          (tick (set_queue_pos i w)))).
  { unfold next_queue_element. fold i. cbn [queue_pos_ set_queue_pos].
    rewrite (bind_eq_returned _ _ _ _ _ Hwait).
    rewrite tick_queue_pos. reflexivity. }
  rewrite (bind_eq_returned _ _ _ _ _ Hnext).
  destruct Hfree as (Hi & s & Hs & Hse).
  destruct (copy_struct_spec copy_order i (set_state STATE_EMPTY e) s
              (set_queue_pos ((i + 1) mod UINT_MAX_1) (tick (set_queue_pos i w)))
              eq_refl Hse)
    as (w2 & Hcopy & Hslot & Hst & _ & _).
  { split; assumption. }
  rewrite (bind_eq_returned _ _ _ _ _ Hcopy).
  pose proof (quiet_tick _ _ (quiet_slot_is i _ Hst) Hslot) as Hslot'.
  rewrite (bind_eq_returned _ _ _ _ _ (store_slot_is i F_state _ _ w2 Hslot')).
  pose proof (do_store_slot_is i F_state (Word (state e)) _ _ Hslot') as Hs3.
  apply slot_is_in_range in Hs3 as [_ Hl].
  destruct (DumpMotionSegment_spec i _ Hi Hl) as (w4 & d & Hdump & _).
  rewrite (bind_eq_returned _ _ _ _ _ Hdump). eexists _, _.
  split; [reflexivity|exact Hwait].
Qed.

Lemma consume_frees_head i w :
  0 <= i < QUEUE_LEN ->
  ring_inv i w -> pru_running w = true ->
  slot_empty i (pru_consume w).
Proof.
  intros Hi Hinv Hr.
  assert (Hl : (Z.to_nat i < length (ring_buffer w))%nat)
    by (destruct Hinv as (Hlen & _); lia).
  destruct (in_range_slot i w (proj1 Hi) Hl) as [s Hs].
  destruct (Z.eq_dec (state s) STATE_EMPTY) as [He|Hne].
  - apply (quiet_consume _ (quiet_slot_empty i)). destruct Hs as [H0 Hs].
    split; [assumption|]. eauto.
  - destruct (full_when_occupied i w s Hi Hinv Hs Hne) as [Hpos _].
    destruct Hs as [H0 Hs]. unfold pru_consume. rewrite Hr, Hpos, Hs.
    apply Z.eqb_neq in Hne. rewrite Hne.
    split; [assumption|]. exists (set_state STATE_EMPTY s).
    split; [|reflexivity]. cbn. apply list_lookup_insert_eq. exact Hl.
Qed.

(** X9.  A full ring buffer is no deadlock: in a session, while the
    firmware is running and has completed at least one segment by the time
    the host reads the slot's state, pru_enqueue_segment returns without
    waiting, full ring or not: the slot the firmware frees first is the one
    the host is after.  (The firmware consumes the slots in order.) *)
Theorem X9_no_wait_with_live_consumer segs fuel e w :
  0 < QUEUE_LEN < UINT_MAX_1 ->
  (forall f, f ∈ copy_order) ->
  session segs w ->
  state e <> STATE_EMPTY ->
  pru_running w = true ->
  (1 <= sched (clock w))%nat ->
  let i := queue_pos_ w mod QUEUE_LEN in
  exists e' w' d,
    pru_enqueue_segment fuel e w = Returned e' w' /\
    dump_of i d /\
    host_log w' =
      host_log w ++ copy_stores i (set_state STATE_EMPTY e)
        ++ [Store i F_state (Word (state e))] ++ d.
Proof.
  intros HQ Hall Hs Hne Hr Hsched i.
  pose proof (session_inv_holds _ _ HQ Hall Hs) as (Hring & _).
  assert (Hi : 0 <= i < QUEUE_LEN) by (apply Z.mod_pos_bound; lia).
  assert (Hfree : slot_empty i (tick (set_queue_pos i w))).
  { unfold tick. cbn [clock set_queue_pos].
    destruct (sched (clock w)) as [|n]; [lia|].
    rewrite Nat.iter_succ_r.
    apply (quiet_clock _ (quiet_slot_empty i)).
    apply (quiet_iter _ _ _ (quiet_slot_empty i)).
    apply consume_frees_head; [exact Hi| |exact Hr].
    apply ring_inv_mod in Hring. exact Hring. }
  destruct (enqueue_first_read fuel e w Hne Hfree) as (e' & w' & Hrun & Hwait).
  destruct (enqueue_returned _ _ _ _ _ Hall Hrun)
    as (_ & _ & w1 & w2 & d & Hwait' & _ & _ & _ & _ & _ & Hd & Hlog).
  subst i. cbv zeta in Hwait. rewrite Hwait in Hwait'. injection Hwait' as <-.
  exists e', w', d. split; [exact Hrun|]. split; [exact Hd|].
  rewrite Hlog, tick_host_log. reflexivity.
Qed.

(** ** map_pru_communication *)

Lemma mark_all_empty_lookup_eq r j :
  mark_all_empty r !! j =
    if decide (j < Z.to_nat QUEUE_LEN)%nat
    then set_state STATE_EMPTY <$> r !! j
    else r !! j.
Proof.
  unfold mark_all_empty.
  induction (Z.to_nat QUEUE_LEN) as [|n IH]; [reflexivity|].
  rewrite seq_S, foldl_snoc. cbn [Nat.add].
  destruct (decide (n = j)) as [->|Hne].
  - rewrite list_lookup_alter_eq, IH.
    destruct (decide (j < j)%nat); [lia|].
    destruct (decide (j < S j)%nat); [reflexivity|lia].
  - rewrite list_lookup_alter_ne by assumption. rewrite IH.
    destruct (decide (j < n)%nat), (decide (j < S n)%nat);
      try reflexivity; lia.
Qed.

Lemma fresh_ring_eq :
  fresh_ring =
    replicate (Z.to_nat QUEUE_LEN) (set_state STATE_EMPTY zero_segment).
Proof.
  unfold fresh_ring. apply list_eq. intros j.
  rewrite mark_all_empty_lookup_eq.
  destruct (decide (j < Z.to_nat QUEUE_LEN)%nat) as [H|H].
  - rewrite !lookup_replicate_2 by assumption. reflexivity.
  - rewrite !lookup_ge_None_2 by (rewrite length_replicate; lia).
    reflexivity.
Qed.

(** X10.  map_pru_communication starts the channel afresh whatever it was
    used for before: it returns with exactly QUEUE_LEN slots, each with
    every member zero and the state Empty, and with the cursor at 0;
    segments still queued are gone.  Nothing else changes. *)
Theorem X10_map_pru_communication_resets w :
  exists w',
    map_pru_communication w = Returned tt w' /\
    ring_buffer w' =
      replicate (Z.to_nat QUEUE_LEN) (set_state STATE_EMPTY zero_segment) /\
    queue_pos_ w' = 0 /\
    host_log w' = host_log w /\
    gpio_mapped w' = gpio_mapped w /\
    gpio_1_DATAOUT w' = gpio_1_DATAOUT w /\
    pru_pos w' = pru_pos w /\
    pru_running w' = pru_running w.
Proof.
  eexists. split; [reflexivity|]. cbn. split; [apply fresh_ring_eq|].
  repeat split.
Qed.

(** ** The dummy queue *)

(** X11.  The dummy queue does nothing at all: whatever is called through
    it, how often and in which order, every call returns at once, no ring
    buffer slot, register or cursor changes and nothing is logged; its
    enqueue hands the caller's segment back as it was and has no assertion
    on the state. *)
Theorem X11_dummy_queue_is_inert fuel cs w :
  do_calls init_dummy_motion_queue fuel cs w = Returned tt w /\
  forall e, enqueue init_dummy_motion_queue fuel e w = Returned e w.
Proof.
  split; [|reflexivity].
  induction cs as [|c cs IH]; [reflexivity|].
  cbn [do_calls]. unfold bind at 1.
  destruct c; cbn; exact IH.
Qed.

(** ** DumpMotionSegment *)

Lemma frozen_set_clock c w : frozen w -> frozen (set_clock c w).
Proof. intros [H|H]; [left; exact H|right; exact H]. Qed.

Lemma DumpMotionSegment_ends i w :
  match DumpMotionSegment i w with
  | Returned _ _ | Undefined _ => True
  | _ => False
  end.
Proof.
  unfold DumpMotionSegment. unfold bind at 1.
  destruct (read_state_cases i w) as [(s & Hs & ->) | ->]; cbv beta iota;
    [|exact I].
  destruct (state s =? STATE_EXIT); [exact I|].
  unfold bind, read_slot, call.
  destruct (ring_buffer (tick (tick w)) !! Z.to_nat i);
    [destruct (0 <=? i)|]; exact I.
Qed.

(** X19.  DumpMotionSegment only reads and prints: it stores nothing (each
    slot holds the members it held, its state as before or Empty), leaves
    the cursor and the GPIO side alone, and neither waits nor asserts.  It
    reads the slot twice, the state and then the whole segment; while the
    consumer stands still and the slot holds [s], it returns having printed
    one line, the EXIT line when the state of [s] is STATE_EXIT and the
    members of [s] otherwise. *)
Theorem X19_dump_only_reads i w :
  let o := DumpMotionSegment i w in
  queue_pos_ (world_of o) = queue_pos_ w /\
  gpio_mapped (world_of o) = gpio_mapped w /\
  gpio_1_DATAOUT (world_of o) = gpio_1_DATAOUT w /\
  laid_out (ring_buffer w) (world_of o) /\
  (forall w', o <> AssertFailed w' /\ o <> Blocked w') /\
  (forall s,
     frozen w -> slot_is i s w ->
     o = Returned tt (world_of o) /\
     ring_buffer (world_of o) = ring_buffer w /\
     host_log (world_of o) =
       host_log w ++ [if state s =? STATE_EXIT then StderrExit i
                      else StderrSegment i s]).
Proof.
  intros o. unfold o.
  split; [apply (quiet_DumpMotionSegment _ i
                   (quiet_queue_pos (queue_pos_ w)) w eq_refl)|].
  pose proof (quiet_DumpMotionSegment _ i
                (quiet_gpio (gpio_mapped w, gpio_1_DATAOUT w)) w eq_refl) as Hg.
  cbv beta in Hg.
  split; [congruence|]. split; [congruence|].
  split; [apply (quiet_DumpMotionSegment _ i (quiet_laid_out _) w);
          apply laid_out_self|].
  split.
  - intros w'.
    pose proof (DumpMotionSegment_ends i w) as Hends.
    destruct (DumpMotionSegment i w); try contradiction;
      split; intros H; discriminate H.
  - intros s Hf Hs. unfold DumpMotionSegment.
    assert (Hs1 : slot_is i s (tick w))
      by (rewrite (frozen_tick w Hf); exact Hs).
    rewrite (bind_eq_returned _ _ _ _ _ (read_state_slot_is i s w Hs1)).
    pose proof (frozen_tick (tick w)) as Ht2.
    rewrite (frozen_tick w Hf) in Ht2 at 1.
    specialize (Ht2 (frozen_set_clock _ _ Hf)).
    destruct (state s =? STATE_EXIT).
    + unfold call. cbn [world_of]. split; [reflexivity|].
      rewrite Ht2, (frozen_tick w Hf). split; reflexivity.
    + assert (Hs2 : slot_is i s (tick (tick w)))
        by (rewrite Ht2, (frozen_tick w Hf); exact Hs).
      rewrite (bind_eq_returned _ _ _ _ _ (read_slot_slot_is i s _ Hs2)).
      unfold call. cbn [world_of]. split; [reflexivity|].
      rewrite (frozen_tick (tick (tick w))), Ht2, (frozen_tick w Hf)
        by (rewrite Ht2, (frozen_tick w Hf);
            apply frozen_set_clock, frozen_set_clock; exact Hf).
      split; reflexivity.
Qed.

End MoreProofs.

(** * The start-up *)

Section StartupProofs.

Context {setup : Setup} {pins : Startup.Pins}.

Arguments tick : simpl never.

(** ** The output-enable masks *)

Lemma bit_of_shifted_one k b :
  0 <= k -> Z.testbit (Z.shiftl 1 b) k = (k =? b).
Proof.
  intros Hk. rewrite Z.shiftl_spec by exact Hk.
  destruct (Z.eqb_spec k b) as [->|Hne].
  - rewrite Z.sub_diag. reflexivity.
  - change 1 with (2 ^ 0). apply Z.pow2_bits_false. lia.
Qed.

Lemma bit_of_shifted_byte k b :
  0 <= k -> Z.testbit (Z.shiftl 255 b) k = (b <=? k) && (k <? b + 8).
Proof.
  intros Hk. rewrite Z.shiftl_spec by exact Hk.
  change 255 with (Z.ones 8).
  destruct (Z.leb_spec b k) as [H1|H1]; cbn [andb].
  - destruct (Z.ltb_spec k (b + 8)) as [H2|H2].
    + apply Z.ones_spec_low. lia.
    + apply Z.ones_spec_high. lia.
  - apply Z.testbit_neg_r. lia.
Qed.

Lemma bit_of_uint32 z k :
  0 <= k < 32 -> Z.testbit (Startup.to_uint32 z) k = Z.testbit z k.
Proof.
  intros Hk. unfold Startup.to_uint32, UINT_MAX_1.
  apply Z.mod_pow2_bits_low. lia.
Qed.

Lemma gpio_1_output_enable_bit k :
  0 <= k < 32 ->
  Z.testbit Startup.gpio_1_output_enable k
  = negb (Startup.is_gpio_1_output k).
Proof.
  intros Hk. unfold Startup.gpio_1_output_enable, Startup.is_gpio_1_output,
    Startup.DIRECTION_OUT_BITS.
  rewrite bit_of_uint32 by exact Hk.
  rewrite Z.lnot_spec, Z.lor_spec by lia.
  rewrite bit_of_uint32 by exact Hk.
  rewrite bit_of_shifted_byte, bit_of_shifted_one by lia.
  reflexivity.
Qed.

(** X12.  The output-enable mask written for GPIO-1 (where a 0 bit makes
    the line an output) marks as outputs the eight direction lines, from
    DIRECTION_GPIO1_SHIFT on, and the motor-enable line, and leaves every
    other one of the 32 lines an input. *)
Theorem X12_gpio_1_outputs k :
  0 <= k < 32 ->
  Z.testbit Startup.gpio_1_output_enable k
  = negb (Startup.is_gpio_1_output k).
Proof.
  intros Hk. unfold Startup.gpio_1_output_enable, Startup.DIRECTION_OUT_BITS.
  rewrite bit_of_uint32 by exact Hk.
  rewrite Z.lnot_spec, Z.lor_spec by lia.
  rewrite bit_of_uint32 by exact Hk.
  rewrite bit_of_shifted_byte, bit_of_shifted_one by lia.
  unfold Startup.is_gpio_1_output. reflexivity.
Qed.

(** X13.  The output-enable mask written for GPIO-0 marks as outputs the
    eight motor step lines and the two auxiliary lines, and leaves every
    other one of the 32 lines an input. *)
Theorem X13_gpio_0_outputs k :
  0 <= k < 32 ->
  Z.testbit Startup.gpio_0_output_enable k
  = negb (existsb (Z.eqb k) Startup.gpio_0_outputs).
Proof.
  intros Hk. unfold Startup.gpio_0_output_enable, Startup.MOTOR_OUT_BITS,
    Startup.gpio_0_outputs.
  rewrite bit_of_uint32 by exact Hk.
  rewrite Z.lnot_spec by lia. rewrite !Z.lor_spec.
  rewrite bit_of_uint32 by exact Hk. rewrite !Z.lor_spec.
  rewrite !bit_of_shifted_one by lia.
  cbn [existsb]. rewrite orb_false_r, <- !orb_assoc. reflexivity.
Qed.

(** ** map_gpio *)

(** X14.  map_gpio returns 1 exactly when both mappings succeed, and then
    both pointers are usable and the descriptor on /dev/mem is closed again;
    otherwise it returns 0 and rolls nothing back: the descriptor, if one
    was opened, stays open; when the second mapping fails the first bank
    stays mapped; when the first fails the second is not attempted. *)
Theorem X14_map_gpio_no_rollback a m :
  let r := fst (Startup.map_gpio a m) in
  let m' := snd (Startup.map_gpio a m) in
  let opened_fd := if Startup.open_dev_mem a then 1%nat else 0%nat in
  (r = 1 <-> Startup.mmap_GPIO_0 a = true /\ Startup.mmap_GPIO_1 a = true) /\
  (r = 1 ->
   Startup.gpio_0 m' = Startup.Mapped /\
   Startup.gpio_1 m' = Startup.Mapped /\
   gpio_mapped (Startup.hw m') = true /\
   Startup.open_fds m' = Startup.open_fds m /\
   Startup.stderr m' = Startup.stderr m) /\
  (r <> 1 ->
   r = 0 /\
   gpio_mapped (Startup.hw m') = false /\
   Startup.open_fds m' = (Startup.open_fds m + opened_fd)%nat) /\
  (Startup.mmap_GPIO_0 a = false ->
   Startup.gpio_0 m' = Startup.MapFailed /\
   Startup.gpio_1 m' = Startup.gpio_1 m /\
   Startup.stderr m' = Startup.stderr m ++ [Startup.Perror_GPIO_0]) /\
  (Startup.mmap_GPIO_0 a = true -> Startup.mmap_GPIO_1 a = false ->
   Startup.gpio_0 m' = Startup.Mapped /\
   Startup.gpio_1 m' = Startup.MapFailed /\
   Startup.stderr m' = Startup.stderr m ++ [Startup.Perror_GPIO_1]).
Proof.
  destruct a as [o [|] [|] ret]; destruct o; cbn;
    repeat split; intros; try discriminate; try tauto; try lia;
    try (exfalso; intuition congruence).
Qed.

(** ** init_pru_motion_queue *)

Lemma init_after_map_gpio a m :
  Startup.mmap_GPIO_0 a = true -> Startup.mmap_GPIO_1 a = true ->
  let m1 := snd (Startup.map_gpio a m) in
  let m3 := Startup.with_OE Startup.gpio_0_output_enable
              Startup.gpio_1_output_enable m1 in
  let w1 := log (Gpio1Dataout disabled_level)
              (set_gpio true disabled_level (tick (Startup.hw m1))) in
  Startup.init_pru_motion_queue a m =
    if Startup.prussdrv_open a =? 0 then
      Startup.Finished (0, Some pru_motion_queue)
        (Startup.with_hw
           (set_pru 0 true
              (set_queue_pos 0 (set_ring fresh_ring w1)))
           (Startup.with_hw w1 m3))
    else
      Startup.Finished (Startup.prussdrv_open a, None)
        (Startup.say (Startup.Prussdrv_open_failed (Startup.prussdrv_open a))
           (Startup.with_hw w1 m3)).
Proof.
  intros H0 H1. unfold Startup.init_pru_motion_queue.
  destruct a as [o m0 m1' ret]. cbn in H0, H1. subst m0 m1'.
  destruct (Startup.map_gpio (Startup.mkAnswers o true true ret) m)
    as [mapped m1] eqn:Hmap.
  assert (Hr : mapped = 1 /\ Startup.gpio_0 m1 = Startup.Mapped
               /\ Startup.gpio_1 m1 = Startup.Mapped
               /\ gpio_mapped (Startup.hw m1) = true).
  { unfold Startup.map_gpio in Hmap. cbn in Hmap.
    injection Hmap as <- <-. cbn. auto. }
  destruct Hr as (-> & Hp0 & Hp1 & Hm). cbn [snd].
  change (1 =? 0) with false. cbv iota.
  rewrite Hp0. cbn [Startup.valid negb].
  cbn [Startup.gpio_1 Startup.with_OE]. rewrite Hp1. cbn [Startup.valid negb].
  cbn [Startup.hw Startup.with_OE Startup.gpio_0_OE Startup.gpio_1_OE
       Startup.prussdrv_open].
  rewrite (motor_enable_returns 0 (Startup.hw m1) Hm).
  change (0 =? 0) with true. cbv iota.
  destruct (ret =? 0); reflexivity.
Qed.

Lemma init_map_gpio_failed a m :
  fst (Startup.map_gpio a m) = 0 ->
  Startup.init_pru_motion_queue a m =
    Startup.Finished (1, None)
      (Startup.say Startup.Couldnt_mmap_GPIO (snd (Startup.map_gpio a m))).
Proof.
  intros H. unfold Startup.init_pru_motion_queue.
  destruct (Startup.map_gpio a m) as [mapped m1]. cbn in H. subst mapped.
  reflexivity.
Qed.

Lemma map_gpio_code a m :
  fst (Startup.map_gpio a m) =
    if Startup.mmap_GPIO_0 a && Startup.mmap_GPIO_1 a then 1 else 0.
Proof. destruct a as [o [|] [|] ret]; reflexivity. Qed.


(** X16.  When every call succeeds, init_pru_motion_queue on the machine
    as it is switched on leaves exactly the freshly opened channel that the
    queue operations start from, both banks mapped, both output-enable
    registers written, no descriptor open and nothing on stderr; the
    motor-enable line is then an output at its inactive (high) level and
    the direction lines are outputs at 0. *)
Theorem X16_init_success a :
  Startup.mmap_GPIO_0 a = true ->
  Startup.mmap_GPIO_1 a = true ->
  Startup.prussdrv_open a = 0 ->
  0 <= MOTOR_ENABLE_GPIO1_BIT < 32 ->
  exists m',
    Startup.init_pru_motion_queue a Startup.power_on
      = Startup.Finished (0, Some pru_motion_queue) m' /\
    Startup.hw m' = opened /\
    Startup.gpio_0 m' = Startup.Mapped /\
    Startup.gpio_1 m' = Startup.Mapped /\
    Startup.gpio_0_OE m' = Startup.gpio_0_output_enable /\
    Startup.gpio_1_OE m' = Startup.gpio_1_output_enable /\
    Startup.open_fds m' = 0%nat /\
    Startup.stderr m' = [] /\
    Z.testbit (Startup.gpio_1_OE m') MOTOR_ENABLE_GPIO1_BIT = false /\
    Z.testbit (gpio_1_DATAOUT (Startup.hw m')) MOTOR_ENABLE_GPIO1_BIT = true /\
    forall k,
      Startup.DIRECTION_GPIO1_SHIFT <= k < Startup.DIRECTION_GPIO1_SHIFT + 8 ->
      0 <= k < 32 -> k <> MOTOR_ENABLE_GPIO1_BIT ->
      Z.testbit (Startup.gpio_1_OE m') k = false /\
      Z.testbit (gpio_1_DATAOUT (Startup.hw m')) k = false.
Proof.
  intros H0 H1 Hopen Hbit.
  rewrite (init_after_map_gpio a _ H0 H1), Hopen. change (0 =? 0) with true.
  cbv iota. eexists. split; [reflexivity|].
  assert (Hhw : Startup.hw (snd (Startup.map_gpio a Startup.power_on))
                = set_gpio true 0 boot).
  { destruct a as [o m0 m1 ret]. cbn in H0, H1. subst m0 m1.
    destruct o; reflexivity. }
  assert (Hrest : forall X : Prop,
            (Startup.gpio_0 (snd (Startup.map_gpio a Startup.power_on))
               = Startup.Mapped /\
             Startup.gpio_1 (snd (Startup.map_gpio a Startup.power_on))
               = Startup.Mapped /\
             Startup.open_fds (snd (Startup.map_gpio a Startup.power_on))
               = 0%nat /\
             Startup.stderr (snd (Startup.map_gpio a Startup.power_on)) = []
             -> X) -> X).
  { intros X HX. apply HX. destruct a as [o m0 m1 ret]. cbn in H0, H1.
    subst m0 m1. destruct o; cbn; auto. }
  apply Hrest. intros (Hp0 & Hp1 & Hfd & Herr).
  cbn [Startup.hw Startup.with_hw Startup.with_OE Startup.gpio_0
       Startup.gpio_1 Startup.gpio_0_OE Startup.gpio_1_OE Startup.open_fds
       Startup.stderr].
  rewrite Hhw.
  assert (Hopened :
            set_pru 0 true
              (set_queue_pos 0
                 (set_ring fresh_ring
                    (log (Gpio1Dataout disabled_level)
                       (set_gpio true disabled_level
                          (tick (set_gpio true 0 boot))))))
            = opened).
  { rewrite opened_eq. unfold tick.
    rewrite iter_not_running by reflexivity. reflexivity. }
  rewrite Hopened.
  split; [reflexivity|]. split; [exact Hp0|]. split; [exact Hp1|].
  split; [reflexivity|]. split; [reflexivity|].
  split; [exact Hfd|]. split; [exact Herr|].
  assert (Hd : gpio_1_DATAOUT opened = disabled_level)
    by (rewrite opened_eq; reflexivity).
  rewrite Hd. split; [|split].
  - rewrite gpio_1_output_enable_bit by exact Hbit.
    unfold Startup.is_gpio_1_output. rewrite Z.eqb_refl, orb_true_r.
    reflexivity.
  - rewrite disabled_level_bits by exact Hbit. apply Z.eqb_refl.
  - intros k Hk Hk32 Hne. split.
    + rewrite gpio_1_output_enable_bit by exact Hk32.
      unfold Startup.is_gpio_1_output.
      destruct (Z.leb_spec Startup.DIRECTION_GPIO1_SHIFT k); [|lia].
      destruct (Z.ltb_spec k (Startup.DIRECTION_GPIO1_SHIFT + 8)); [|lia].
      reflexivity.
    + rewrite disabled_level_bits by exact Hbit. apply Z.eqb_neq. exact Hne.
Qed.

(** X17.  When a mapping of the GPIO banks fails, init_pru_motion_queue
    returns 1 and has touched no hardware: no register is written, the ring
    buffer and the write cursor are as before, the PRU is not started, and
    stderr holds perror's line for the failed bank followed by the
    message that the ranges could not be mapped.  The descriptor on
    /dev/mem, if it was opened, is left open. *)
Theorem X17_init_mmap_failure a m :
  Startup.mmap_GPIO_0 a && Startup.mmap_GPIO_1 a = false ->
  exists m',
    Startup.init_pru_motion_queue a m = Startup.Finished (1, None) m' /\
    host_log (Startup.hw m') = host_log (Startup.hw m) /\
    gpio_1_DATAOUT (Startup.hw m') = gpio_1_DATAOUT (Startup.hw m) /\
    ring_buffer (Startup.hw m') = ring_buffer (Startup.hw m) /\
    queue_pos_ (Startup.hw m') = queue_pos_ (Startup.hw m) /\
    pru_running (Startup.hw m') = pru_running (Startup.hw m) /\
    clock (Startup.hw m') = clock (Startup.hw m) /\
    gpio_mapped (Startup.hw m') = false /\
    Startup.gpio_0_OE m' = Startup.gpio_0_OE m /\
    Startup.gpio_1_OE m' = Startup.gpio_1_OE m /\
    Startup.stderr m' =
      Startup.stderr m ++
        [(if Startup.mmap_GPIO_0 a then Startup.Perror_GPIO_1
          else Startup.Perror_GPIO_0);
         Startup.Couldnt_mmap_GPIO] /\
    Startup.open_fds m' =
      (Startup.open_fds m + (if Startup.open_dev_mem a then 1 else 0))%nat.
Proof.
  intros Hmm.
  rewrite (init_map_gpio_failed a m)
    by (rewrite map_gpio_code, Hmm; reflexivity).
  eexists. split; [reflexivity|].
  destruct a as [o [|] [|] ret]; try discriminate Hmm;
    destruct o; cbn; rewrite <- ?app_assoc; cbn;
    repeat split; try reflexivity; lia.
Qed.

(** X18.  When prussdrv_open fails, init_pru_motion_queue returns the
    driver's value with the GPIO banks already set up and left so: both
    banks stay mapped with their output-enable registers written and the
    motors switched off, which is the only register write logged; the ring
    buffer and the write cursor are not initialised, the PRU is not
    started, and nothing is assigned to the caller's queue. *)
Theorem X18_init_open_failure a m :
  Startup.mmap_GPIO_0 a = true ->
  Startup.mmap_GPIO_1 a = true ->
  Startup.prussdrv_open a <> 0 ->
  exists m',
    Startup.init_pru_motion_queue a m
      = Startup.Finished (Startup.prussdrv_open a, None) m' /\
    Startup.gpio_0 m' = Startup.Mapped /\
    Startup.gpio_1 m' = Startup.Mapped /\
    gpio_mapped (Startup.hw m') = true /\
    Startup.gpio_0_OE m' = Startup.gpio_0_output_enable /\
    Startup.gpio_1_OE m' = Startup.gpio_1_output_enable /\
    gpio_1_DATAOUT (Startup.hw m') = disabled_level /\
    host_log (Startup.hw m')
      = host_log (Startup.hw m) ++ [Gpio1Dataout disabled_level] /\
    queue_pos_ (Startup.hw m') = queue_pos_ (Startup.hw m) /\
    (pru_running (Startup.hw m) = false ->
     ring_buffer (Startup.hw m') = ring_buffer (Startup.hw m) /\
     pru_running (Startup.hw m') = false) /\
    Startup.open_fds m' = Startup.open_fds m /\
    Startup.stderr m' =
      Startup.stderr m ++ [Startup.Prussdrv_open_failed (Startup.prussdrv_open a)].
Proof.
  intros H0 H1 Hret.
  rewrite (init_after_map_gpio a m H0 H1).
  destruct (Z.eqb_spec (Startup.prussdrv_open a) 0) as [E|_]; [contradiction|].
  eexists. split; [reflexivity|].
  assert (Hhw : Startup.hw (snd (Startup.map_gpio a m))
                = set_gpio true (gpio_1_DATAOUT (Startup.hw m)) (Startup.hw m)).
  { destruct a as [o m0 m1 ret]. cbn in H0, H1. subst m0 m1.
    destruct o; reflexivity. }
  assert (Hrest : Startup.gpio_0 (snd (Startup.map_gpio a m)) = Startup.Mapped
          /\ Startup.gpio_1 (snd (Startup.map_gpio a m)) = Startup.Mapped
          /\ Startup.open_fds (snd (Startup.map_gpio a m)) = Startup.open_fds m
          /\ Startup.stderr (snd (Startup.map_gpio a m)) = Startup.stderr m).
  { destruct a as [o m0 m1 ret]. cbn in H0, H1. subst m0 m1.
    destruct o; cbn; auto. }
  destruct Hrest as (Hp0 & Hp1 & Hfd & Herr).
  cbn [Startup.hw Startup.with_hw Startup.with_OE Startup.say Startup.gpio_0
       Startup.gpio_1 Startup.gpio_0_OE Startup.gpio_1_OE Startup.open_fds
       Startup.stderr].
  rewrite Hhw, Hp0, Hp1, Hfd, Herr.
  split; [reflexivity|]. split; [reflexivity|]. split; [reflexivity|].
  split; [reflexivity|]. split; [reflexivity|]. split; [reflexivity|].
  split.
  { cbn [host_log log set_gpio]. rewrite tick_host_log. reflexivity. }
  split.
  { cbn [queue_pos_ log set_gpio]. rewrite tick_queue_pos. reflexivity. }
  split; [|split; reflexivity].
  intros Hoff. unfold tick.
  rewrite iter_not_running by exact Hoff. cbn. auto.
Qed.

End StartupProofs.

(** * The further properties on the concrete board *)

Lemma session_enqueue_all {setup : Setup} fuel es :
  forall segs w w',
    session segs w ->
    enqueue_all fuel es w = Returned tt w' ->
    session (segs ++ es) w'.
Proof.
  induction es as [|e es IH]; intros segs w w' Hs Hrun.
  - cbn in Hrun. unfold ret in Hrun.
    assert (w' = w) by congruence. subst w'.
    rewrite app_nil_r. exact Hs.
  - cbn [enqueue_all] in Hrun.
    apply bind_returned in Hrun as (e' & w1 & H1 & H2).
    replace (segs ++ e :: es) with ((segs ++ [e]) ++ es)
      by (rewrite <- app_assoc; reflexivity).
    apply (IH _ w1 w'); [|exact H2].
    exact (session_enqueue _ _ _ _ _ _ Hs H1).
Qed.

Lemma X1_witness :
  exists w',
    @pru_shutdown (board4 idle) 0 0 (@opened (board4 idle)) = Returned tt w' /\
    host_log w' =
      host_log (@opened (board4 idle))
        ++ [PruDisable; PruExit; Gpio1Dataout (@disabled_level (board4 idle));
            UnmapGpio] /\
    queue_pos_ w' = queue_pos_ (@opened (board4 idle)) /\
    pru_running w' = false /\
    gpio_mapped w' = false /\
    gpio_1_DATAOUT w' = @disabled_level (board4 idle).
Proof.
  exact (@X1_shutdown_without_flush (board4 idle) 0%nat (@opened (board4 idle))
           (board4_opened_mapped idle)).
Defined.


Lemma X5_witness :
  exists w wb,
    @enqueue_all (board4 idle) 0 [sample 1; sample 2; sample 3; sample 4]
      (@opened (board4 idle)) = Returned tt w /\
    @pru_enqueue_segment (board4 idle) 1000 (sample 5) w = Blocked wb /\
    ring_buffer wb = ring_buffer w.
Proof.
  set (b := board4 idle).
  set (r := @enqueue_all b 0 [sample 1; sample 2; sample 3; sample 4]
              (@opened b)).
  assert (Hrun : r = Returned tt (world_of r)) by (vm_compute; reflexivity).
  assert (Hfrozen : @frozen b (world_of r)) by (right; intros t; reflexivity).
  assert (Hs : state (sample 1) <> @STATE_EMPTY b)
    by (intros H; discriminate H).
  assert (He : state (sample 5) <> @STATE_EMPTY b)
    by (intros H; discriminate H).
  assert (Hslot : @slot_is (queue_pos_ (world_of r) mod @QUEUE_LEN b)
                    (sample 1) (world_of r))
    by (split; [vm_compute; intros H; discriminate H
               |vm_compute; reflexivity]).
  destruct (proj1 (@X5_no_timeout b 1000%nat (world_of r) (sample 1)
                     Hfrozen Hs) (sample 5) He Hslot)
    as (wb & Hb & Hring & _).
  exists (world_of r), wb. split; [exact Hrun|]. split; [exact Hb|exact Hring].
Defined.

Lemma X6_witness :
  exists e' w',
    @pru_enqueue_segment (board4 idle) 0 (sample 1) (@opened (board4 idle))
      = Returned e' w' /\
    queue_pos_ w' = 0 mod @QUEUE_LEN (board4 idle) + 1 /\
    exists r, r ∈ history w' /\ r !! Z.to_nat (0 mod @QUEUE_LEN (board4 idle))
                                = Some (sample 1).
Proof.
  set (b := board4 idle).
  set (r := @pru_enqueue_segment b 0 (sample 1) (@opened b)).
  assert (Hrun : r = Returned (set_state 0 (sample 1)) (world_of r))
    by (vm_compute; reflexivity).
  exists (set_state 0 (sample 1)), (world_of r). split; [exact Hrun|].
  exact (proj2 (proj2
           (@X6_slots_in_order b [] 0%nat (sample 1) (@opened b) _ _
              (board4_queue_len idle) declaration_order_complete
              (@session_open b) Hrun))).
Defined.

Lemma X7_witness :
  exists w wb,
    @session (board4 idle) [sample 1; sample 2; sample 3; sample 4] w /\
    @pru_enqueue_segment (board4 idle) 3 (sample 5) w = Blocked wb /\
    Forall (fun x => state x <> @STATE_EMPTY (board4 idle)) (ring_buffer wb).
Proof.
  set (b := board4 idle).
  set (r := @enqueue_all b 0 [sample 1; sample 2; sample 3; sample 4]
              (@opened b)).
  set (r2 := @pru_enqueue_segment b 3 (sample 5) (world_of r)).
  assert (Hrun : r = Returned tt (world_of r)) by (vm_compute; reflexivity).
  assert (Hrun2 : r2 = Blocked (world_of r2)) by (vm_compute; reflexivity).
  assert (Hs : @session b [sample 1; sample 2; sample 3; sample 4] (world_of r))
    by exact (@session_enqueue_all b 0%nat _ [] _ _ (@session_open b) Hrun).
  exists (world_of r), (world_of r2).
  split; [exact Hs|]. split; [exact Hrun2|].
  exact (proj1 (proj2
           (@X7_waits_only_when_full b _ 3%nat (sample 5) _ _
              (board4_queue_len idle) declaration_order_complete Hs Hrun2))).
Defined.

Lemma X8_witness :
  exists w',
    @enqueue_all (board4 idle) 0 [sample 1; sample 2; sample 3]
      (@opened (board4 idle)) = Returned tt w' /\
    forall j e,
      [sample 1; sample 2; sample 3] !! j = Some e ->
      exists s,
        ring_buffer w' !! j = Some s /\
        (s = e \/ s = set_state (@STATE_EMPTY (board4 idle)) e).
Proof.
  refine (@X8_segments_laid_out (board4 idle) 0%nat
            [sample 1; sample 2; sample 3]
            (board4_queue_len idle) declaration_order_complete _ _).
  - repeat constructor; intros H; discriminate H.
  - cbn. lia.
Defined.

Lemma X9_witness :
  exists e' w',
    @pru_enqueue_segment (board4 (steady_from 0)) 0 (sample 1)
      (@opened (board4 (steady_from 0))) = Returned e' w'.
Proof.
  set (b := board4 (steady_from 0)).
  destruct (@X9_no_wait_with_live_consumer b [] 0%nat (sample 1) (@opened b)
              (board4_queue_len _) declaration_order_complete
              (@session_open b))
    as (e' & w' & d & Hrun & _).
  - intros H; discriminate H.
  - vm_compute; reflexivity.
  - vm_compute; lia.
  - exists e', w'. exact Hrun.
Defined.

Lemma X12_witness :
  Z.testbit (@Startup.gpio_1_output_enable (board4 idle) sample_pins) 28
  = negb (@Startup.is_gpio_1_output (board4 idle) sample_pins 28).
Proof.
  apply (@X12_gpio_1_outputs (board4 idle) sample_pins 28). lia.
Defined.

Lemma X13_witness :
  Z.testbit (@Startup.gpio_0_output_enable sample_pins) 14
  = negb (existsb (Z.eqb 14) (@Startup.gpio_0_outputs sample_pins)).
Proof.
  apply (@X13_gpio_0_outputs sample_pins 14). lia.
Defined.

Lemma X16_witness :
  exists m',
    @Startup.init_pru_motion_queue (board4 idle) sample_pins
      (Startup.mkAnswers true true true 0) Startup.power_on
      = Startup.Finished (0, Some (@pru_motion_queue (board4 idle))) m' /\
    Startup.hw m' = @opened (board4 idle) /\
    Z.testbit (Startup.gpio_1_OE m') 28 = false /\
    Z.testbit (gpio_1_DATAOUT (Startup.hw m')) 28 = true.
Proof.
  destruct (@X16_init_success (board4 idle) sample_pins
              (Startup.mkAnswers true true true 0)
              eq_refl eq_refl eq_refl (board4_bit idle))
    as (m' & Hrun & Hhw & _ & _ & _ & _ & _ & _ & Hoe & Hout & _).
  exists m'. split; [exact Hrun|]. split; [exact Hhw|].
  split; [exact Hoe|exact Hout].
Defined.

Lemma X17_witness :
  exists m',
    @Startup.init_pru_motion_queue (board4 idle) sample_pins
      (Startup.mkAnswers true true false 0) Startup.power_on
      = Startup.Finished (1, None) m' /\
    host_log (Startup.hw m') = [] /\
    Startup.stderr m' = [Startup.Perror_GPIO_1; Startup.Couldnt_mmap_GPIO] /\
    Startup.open_fds m' = 1%nat.
Proof.
  destruct (@X17_init_mmap_failure (board4 idle) sample_pins
              (Startup.mkAnswers true true false 0) Startup.power_on eq_refl)
    as (m' & Hrun & Hlog & _ & _ & _ & _ & _ & _ & _ & _ & Herr & Hfd).
  exists m'. split; [exact Hrun|]. split; [exact Hlog|].
  split; [exact Herr|exact Hfd].
Defined.

Lemma X18_witness :
  exists m',
    @Startup.init_pru_motion_queue (board4 idle) sample_pins
      (Startup.mkAnswers true true true (-1)) Startup.power_on
      = Startup.Finished (-1, None) m' /\
    gpio_mapped (Startup.hw m') = true /\
    pru_running (Startup.hw m') = false /\
    Startup.stderr m' = [Startup.Prussdrv_open_failed (-1)].
Proof.
  destruct (@X18_init_open_failure (board4 idle) sample_pins
              (Startup.mkAnswers true true true (-1)) Startup.power_on
              eq_refl eq_refl ltac:(intros H; discriminate H))
    as (m' & Hrun & _ & _ & Hm & _ & _ & _ & _ & _ & Hoff & _ & Herr).
  exists m'. split; [exact Hrun|]. split; [exact Hm|].
  split; [exact (proj2 (Hoff eq_refl))|exact Herr].
Defined.
